(** * CG-Tutorial: molecules, periodic-boundary repair and coarse-graining

    A shallow embedding of [utils.py]: [get_decorr], [get_molecules],
    [has_number], [has_common_member], [num2str], [cg_comp], [cg_bonds],
    [coarse] and the [CG_Compound] methods [amber_to_element],
    [get_molecules], [get_bonds], [from_pybel], [wrap], [unwrap],
    [bond_dict], [is_bad_bond] and [unwrap_position]; and of
    [polysmiles.py].

    Conventions.
    - A Python [float] (and a NumPy [float64]) is a binary64 number: Rocq's
      primitive [float].  A reduction of NumPy along the first axis of an
      (n, 3) array adds the rows one by one.
    - What CPython, NumPy and freud decide is a parameter, collected in the
      class [Libraries]: the order in which the elements of a set are
      listed, the mean of a one-dimensional array, which NumPy adds in
      pairs from eight numbers on, and the unwrap of freud, which computes
      in single precision.  The wrap of freud is a parameter of [wrap].
      [remove_atomistic] removes particles from the compound while it
      goes through [Compound.particles()]; what this leaves is decided by
      mbuild, so it is a parameter of [coarse].
    - A Python [set] of particle indices is a [gset nat].  [set.pop] takes
      the first of [elements], one of the elements Python may choose.
    - A [defaultdict(set)] keeps its keys in insertion order, as Python
      dictionaries do.
    - A compound is the list of its particles, in the order of
      [Compound.particles()], its bond graph and its box.  The bond graph
      is [None] until the first bond is added; its edges are pairs of
      particle indices, listed in the order in which the bonds were added
      and from the particle that was given first.  [translate_to] leaves
      a particle at the position it is given.
    - [print] appends a [message] to a log; exceptions are values of
      [exception]. *)

From Stdlib Require Import Floats ZArith Uint63.
From stdpp Require Import gmap strings list sorting.

Set Warnings "-inexact-float".

Local Open Scope float_scope.

(** ** Numbers and positions *)

Definition vec : Type := float * float * float.

Definition vzero : vec := (0, 0, 0).

Definition vadd (p q : vec) : vec :=
  let '(x1, y1, z1) := p in
  let '(x2, y2, z2) := q in
  (x1 + x2, y1 + y2, z1 + z2).

Definition vsub (p q : vec) : vec :=
  let '(x1, y1, z1) := p in
  let '(x2, y2, z2) := q in
  (x1 - x2, y1 - y2, z1 - z2).

Definition float_of_nat (n : nat) : float :=
  PrimFloat.of_uint63 (Uint63.of_Z (Z.of_nat n)).

Definition float_of_Z (z : Z) : float :=
  match z with
  | Z0 => 0
  | Zpos _ => PrimFloat.of_uint63 (Uint63.of_Z z)
  | Zneg _ => - PrimFloat.of_uint63 (Uint63.of_Z (- z))
  end.

(** [np.linalg.norm] of a 3-vector. *)
Definition norm (p : vec) : float :=
  let '(x, y, z) := p in
  PrimFloat.sqrt (x * x + y * y + z * z).

(** [distance(pos1, pos2)]: [np.linalg.norm(pos1 - pos2)]. *)
Definition distance (pos1 pos2 : vec) : float := norm (vsub pos1 pos2).

(** [v_distance(pos_array, pos2)]: the distance of every row to [pos2]. *)
Definition v_distance (pos_array : list vec) (pos2 : vec) : list float :=
  (fun p => norm (vsub p pos2)) <$> pos_array.

(** NumPy's [add.reduce] along the first axis of an (n, 3) array: the first
    row, then the others added one by one; zeros for an empty array. *)
Definition vsum (l : list vec) : vec :=
  match l with
  | [] => vzero
  | x :: r => foldl vadd x r
  end.

(** [np.mean(a, axis=0)] of an (n, 3) array. *)
Definition mean_axis0 (a : list vec) : vec :=
  let '(sx, sy, sz) := vsum a in
  let n := float_of_nat (length a) in
  (sx / n, sy / n, sz / n).

(** [get_decorr(acorr)]: [np.argmin(acorr > 0)], the index of the first
    entry that is not above 0, and 0 when every entry is; [None] stands for
    the [ValueError] of [np.argmin] on an empty array. *)
Definition get_decorr (acorr : list float) : option nat :=
  match acorr with
  | [] => None
  | _ :: _ =>
      Some (default O (fst <$> list_find (fun x : float => (0 <? x) = false) acorr))
  end.

(** ** Python sets and [defaultdict(set)] *)

(** [s.pop()]: an element of [s] and the set without it. *)
Definition set_pop (s : gset nat) : option (nat * gset nat) :=
  match elements s with
  | [] => None
  | x :: _ => Some (x, s ∖ {[x]})
  end.

Record defaultdict : Type := {
  dd_keys : list nat;
  dd_map : gmap nat (gset nat)
}.

Definition dd_empty : defaultdict := {| dd_keys := []; dd_map := ∅ |}.

(** [d[k]] (read). *)
Definition dd_get (d : defaultdict) (k : nat) : gset nat :=
  default ∅ (dd_map d !! k).

(** [d[k].add(v)] *)
Definition dd_add (d : defaultdict) (k v : nat) : defaultdict :=
  {| dd_keys := if decide (k ∈ dd_keys d) then dd_keys d else dd_keys d ++ [k];
     dd_map := <[k := {[v]} ∪ dd_get d k]> (dd_map d) |}.

(** ** Messages and exceptions *)

Inductive message : Type :=
  | NoBadBonds (d_tolerance : float)
      (* "No bonds found longer than ... No changes made." *)
  | TryingAgain (_count : nat)
      (* "Bad bonds still present! Trying unwrap again. {_count}" *)
  | TryLimitExceeded
      (* "Bad bonds still present and try limit exceeded." *)
  | CantWrap
      (* "Can't wrap because CG_Compound.box values aren't assigned." *)
  | NotFound (smart_str : string)
      (* "{smart_str} not found in compound!" *)
  | LeftOut.
      (* "WARNING: Some atoms have been left out of coarse-graining!" *)

Inductive exception : Type :=
  | RuntimeError (tup : nat * nat)
      (* "Can't determine which is outlier between indices {tup}" *)
  | UnboundLocalError
      (* a local variable read before any assignment *)
  | TypeError
      (* [list(None)]: the box is not set *)
  | IndexError
      (* [particle_pair[1]] of a list with fewer than two particles *)
  | AttributeError
      (* [self.bond_graph] is [None]: the compound never had a bond *)
  | NameError
      (* [warn] is not defined in [utils.py] *)
  | OutOfFuel.
      (* not a Python exception: a loop of the model used up its fuel *)

Definition outcome (A : Type) : Type := (exception + A)%type.

Definition raise {A : Type} (e : exception) : outcome A := inl e.

(** [x ← r; k] runs [r] and, unless it raised, goes on with [k]. *)
#[global] Instance outcome_ret : MRet outcome := fun A a => inr a.

#[global] Instance outcome_bind : MBind outcome := fun A B k r =>
  match r with
  | inl e => inl e
  | inr a => k a
  end.

(** ** CPython, NumPy and freud *)

(** What the model takes from the interpreter and from the libraries, none
    of which is part of this repository. *)
Class Libraries : Type := {
  set_list : gset nat -> list nat;
      (* [list(s)]: the elements of a set of integers, in the order in
         which CPython goes through the set *)
  set_list_perm : ∀ s : gset nat, set_list s ≡ₚ elements s;
  np_mean : list float -> float;
      (* [np.mean(a)] of a one-dimensional array *)
  freud_unwrap : vec -> vec -> Z * Z * Z -> vec
      (* [freud.box.Box(Lx, Ly, Lz).unwrap(pos, img)] *)
}.

(** ** [get_molecules(snapshot)] *)

Record Snapshot : Type := {
  particles_N : nat;
  bonds_group : list (nat * nat)
}.

Definition _snap_bond_graph (snapshot : Snapshot) : defaultdict :=
  foldl (fun bond_graph row => dd_add (dd_add bond_graph row.1 row.2) row.2 row.1)
        dd_empty (bonds_group snapshot).

(** The [while nodes:] loop of [_get_connected_group]; one unit of fuel per
    iteration. *)
Fixpoint _get_connected_group_loop (fuel : nat) (graph : defaultdict)
    (nodes result already_seen : gset nat) : option (gset nat * gset nat) :=
  match set_pop nodes with
  | None => Some (result, already_seen)
  | Some (node, nodes) =>
      match fuel with
      | O => None
      | S fuel =>
          let already_seen := {[node]} ∪ already_seen in
          let nodes := nodes ∪ (dd_get graph node ∖ already_seen) in
          let result := {[node]} ∪ result in
          _get_connected_group_loop fuel graph nodes result already_seen
      end
  end.

Definition _get_connected_group (fuel : nat) (graph : defaultdict)
    (node : nat) (already_seen : gset nat) : option (gset nat * gset nat) :=
  _get_connected_group_loop fuel graph {[node]} ∅ already_seen.

(** The [for node in graph:] loop. *)
Fixpoint get_molecules_loop (fuel : nat) (graph : defaultdict)
    (nodes : list nat) (already_seen : gset nat) (result : list (gset nat))
    : option (list (gset nat)) :=
  match nodes with
  | [] => Some result
  | node :: nodes =>
      if decide (node ∈ already_seen)
      then get_molecules_loop fuel graph nodes already_seen result
      else
        match _get_connected_group fuel graph node already_seen with
        | None => None
        | Some (connected_group, already_seen) =>
            get_molecules_loop fuel graph nodes already_seen
                               (result ++ [connected_group])
        end
  end.

(** [get_molecules(snapshot)].  Every flood fill gets as much fuel as the
    graph has nodes; [None] would mean that this was not enough
    ([get_molecules_spec] shows it always is). *)
Definition get_molecules (snapshot : Snapshot) : option (list (gset nat)) :=
  let graph := _snap_bond_graph snapshot in
  get_molecules_loop (length (dd_keys graph)) graph (dd_keys graph) ∅ [].

(** ** The class [CG_Compound] *)

Record Particle : Type := {
  name : string;
  pos : vec
}.

(** ** [amber_dict] *)

Definition amber_dict : list (string * string) :=
  [("c", "C"); ("c1", "C"); ("c2", "C"); ("c3", "C"); ("ca", "C"); ("cp", "C");
   ("cq", "C"); ("cc", "C"); ("cd", "C"); ("ce", "C"); ("cf", "C"); ("cg", "C");
   ("ch", "C"); ("cx", "C"); ("cy", "C"); ("cu", "C"); ("cv", "C");
   ("h1", "H"); ("h2", "H"); ("h3", "H"); ("h4", "H"); ("h5", "H"); ("ha", "H");
   ("hc", "H"); ("hn", "H"); ("ho", "H"); ("hp", "H"); ("hs", "H"); ("hw", "H");
   ("hx", "H");
   ("f", "F"); ("cl", "Cl"); ("br", "Br"); ("i", "I");
   ("n", "N"); ("n1", "N"); ("n2", "N"); ("n3", "N"); ("n4", "N"); ("na", "N");
   ("nb", "N"); ("nc", "N"); ("nd", "N"); ("ne", "N"); ("nf", "N"); ("nh", "N");
   ("no", "N");
   ("o", "O"); ("oh", "O"); ("os", "O"); ("ow", "O");
   ("p2", "P"); ("p3", "P"); ("p4", "P"); ("p5", "P"); ("pb", "P"); ("pc", "P");
   ("pd", "P"); ("pe", "P"); ("pf", "P"); ("px", "P"); ("py", "P");
   ("s", "S"); ("s2", "S"); ("s4", "S"); ("s6", "S"); ("sh", "S"); ("ss", "S");
   ("sx", "S"); ("sy", "S")].

Module CG_Compound.

Record t : Type := {
  particles : list Particle;
  bond_graph : option (list (nat * nat));
  box : option vec
}.

(** [self.bonds()]: the edges of the bond graph, and nothing when there is
    no bond graph. *)
Definition bonds (self : t) : list (nat * nat) := default [] (bond_graph self).

Arguments bonds : simpl nomatch.

(** [self.xyz], [self.xyz[i, :]] and [self.xyz[inds, :]]. *)
Definition xyz (self : t) : list vec := pos <$> particles self.

Definition xyz_row (self : t) (i : nat) : vec := default vzero (xyz self !! i).

Definition xyz_rows (self : t) (inds : list nat) : list vec :=
  xyz_row self <$> inds.

(** Every bond joins two particles of the compound. *)
Definition wf (self : t) : Prop :=
  ∀ bond, bond ∈ bonds self →
    (bond.1 < length (particles self))%nat ∧ (bond.2 < length (particles self))%nat.

(** [particles[i].translate_to(new_xyz)] *)
Definition translate_to (self : t) (i : nat) (new_xyz : vec) : t :=
  {| particles := alter (fun p => {| name := name p; pos := new_xyz |}) i (particles self);
     bond_graph := bond_graph self;
     box := box self |}.

(** [self.get_molecules()].  mbuild's bond graph has the particles of the
    bonds as nodes and the bonds as edges; [connected_components()] flood
    fills it as [get_molecules(snapshot)] does, and [particle_list.index]
    turns the particles into their indices.  Without a bond graph,
    [self.bond_graph.connected_components] raises. *)
Definition get_molecules (self : t) : outcome (list (gset nat)) :=
  match bond_graph self with
  | None => raise AttributeError
  | Some edges =>
      match get_molecules {| particles_N := length (particles self);
                             bonds_group := edges |} with
      | None => raise OutOfFuel
      | Some molecules => mret molecules
      end
  end.

(** [self.bond_dict()] *)
Definition bond_dict (self : t) : defaultdict :=
  foldl (fun bond_dict bond => dd_add (dd_add bond_dict bond.1 bond.2) bond.2 bond.1)
        dd_empty (bonds self).

(** [self.add(particle)]: the new particle comes last. *)
Definition add (self : t) (particle : Particle) : t :=
  {| particles := particles self ++ [particle];
     bond_graph := bond_graph self;
     box := box self |}.

(** [self.add_bond([particles[i], particles[j]])].  mbuild makes the bond
    graph when the first bond is added, and keeps the bonds as the edges of
    the graph: adding an edge that is there changes nothing. *)
Definition add_bond (self : t) (pair : nat * nat) : t :=
  if decide (pair ∈ bonds self ∨ (pair.2, pair.1) ∈ bonds self) then self
  else {| particles := particles self;
          bond_graph := Some (bonds self ++ [pair]);
          box := box self |}.

(** The order of [bonds.sort(key=lambda tup: (tup[0], tup[1]))]. *)
Definition pair_le (p q : nat * nat) : Prop :=
  (p.1 < q.1)%nat ∨ (p.1 = q.1 ∧ (p.2 ≤ q.2)%nat).

#[global] Instance pair_le_dec : RelDecision pair_le.
Proof. intros p q. unfold pair_le. apply _. Defined.

(** [self.get_bonds()]; without a bond graph, [self.bond_graph.edges]
    raises. *)
Definition get_bonds (self : t) : outcome (list (nat * nat)) :=
  match bond_graph self with
  | None => raise AttributeError
  | Some edges =>
      mret (merge_sort pair_le
              ((fun tup => (Nat.min tup.1 tup.2, Nat.max tup.1 tup.2)) <$> edges))
  end.

(** [[p for i, p in enumerate(self.particles()) if i == tup[0] or i == tup[1]]]:
    the particles at the two indices, in the order of the compound. *)
Definition particle_pair (self : t) (tup : nat * nat) : list Particle :=
  snd <$> filter (fun ip : nat * Particle => ip.1 = tup.1 ∨ ip.1 = tup.2)
                 (imap pair (particles self)).

(** *** [unwrap] and [unwrap_position] *)

Section Unwrap.

Context {libraries : Libraries}.

Definition check_bad_bonds (compound : t) (d_tolerance : float) : list (nat * nat) :=
  filter (fun bond =>
            (d_tolerance <? distance (xyz_row compound bond.1) (xyz_row compound bond.2)) = true)
         (bonds compound).

(** The two averages [_is_outlier] compares; the loop goes over all the
    molecules, and the last one that holds [index] counts. *)
Definition avg_dists (compound : t) (molecules : list (gset nat)) (index : nat)
    : option (float * float) :=
  foldl (fun avg molecule =>
           if decide (index ∈ molecule) then
             let test_molecule := molecule ∖ {[index]} in
             let a := xyz_rows compound (set_list molecule) in
             let b := xyz_rows compound (set_list test_molecule) in
             let center_a := mean_axis0 a in
             let center_b := mean_axis0 b in
             let avg_dist_a := np_mean (v_distance a center_a) in
             let avg_dist_b := np_mean (v_distance b center_b) in
             Some (avg_dist_a, avg_dist_b)
           else avg)
        None molecules.

Definition _is_outlier (compound : t) (molecules : list (gset nat)) (index : nat)
    : outcome bool :=
  match avg_dists compound molecules index with
  | None => raise UnboundLocalError
  | Some (avg_dist_a, avg_dist_b) => mret (avg_dist_b <? avg_dist_a)
  end.

Definition _d_to_center (compound : t) (molecules : list (gset nat)) (index : nat)
    : outcome float :=
  let dist :=
    foldl (fun dist molecule =>
             if decide (index ∈ molecule) then
               let mol_xyz := xyz_rows compound (set_list molecule) in
               let center := mean_axis0 mol_xyz in
               Some (distance (xyz_row compound index) center)
             else dist)
          None molecules in
  match dist with
  | None => raise UnboundLocalError
  | Some dist => mret dist
  end.

(** The body of [for tup in maybe_outliers:] up to [checked.add]: the set
    [outliers] after the bond [tup]. *)
Definition classify (compound : t) (molecules : list (gset nat))
    (outliers : gset nat) (tup : nat * nat) : outcome (gset nat) :=
  o_0 ← _is_outlier compound molecules tup.1;
  both ← (if o_0 : bool then _is_outlier compound molecules tup.2 else mret false);
  if both : bool then
    d_0 ← _d_to_center compound molecules tup.1;
    d_1 ← _d_to_center compound molecules tup.2;
    if d_1 <? d_0 then mret ({[tup.1]} ∪ outliers)
    else if d_0 <? d_1 then mret ({[tup.2]} ∪ outliers)
    else raise (RuntimeError tup)
  else
    o_0 ← _is_outlier compound molecules tup.1;
    if o_0 : bool then mret ({[tup.1]} ∪ outliers)
    else
      o_1 ← _is_outlier compound molecules tup.2;
      if o_1 : bool then mret ({[tup.2]} ∪ outliers)
      else mret outliers.

Fixpoint classify_loop (compound : t) (molecules : list (gset nat))
    (maybe_outliers : list (nat * nat)) (outliers checked : gset nat)
    : outcome (gset nat * gset nat) :=
  match maybe_outliers with
  | [] => mret (outliers, checked)
  | tup :: maybe_outliers =>
      outliers ← classify compound molecules outliers tup;
      classify_loop compound molecules maybe_outliers outliers
                    ({[tup.2]} ∪ ({[tup.1]} ∪ checked))
  end.

(** The [while starts:] loop; one unit of fuel per iteration. *)
Fixpoint propagate (fuel : nat) (bond_dict : defaultdict)
    (starts outliers checked : gset nat) : outcome (gset nat) :=
  match set_pop starts with
  | None => mret outliers
  | Some (index, starts) =>
      match fuel with
      | O => raise OutOfFuel
      | S fuel =>
          let outliers := outliers ∪ (dd_get bond_dict index ∖ checked) in
          let starts := starts ∪ (dd_get bond_dict index ∖ checked) in
          let checked := {[index]} ∪ checked in
          propagate fuel bond_dict starts outliers checked
      end
  end.

(** [find_outliers(self)]; the flood fill gets three units of fuel per
    bonded particle. *)
Definition find_outliers (compound : t) (molecules : list (gset nat))
    (maybe_outliers : list (nat * nat)) (bond_dict : defaultdict)
    : outcome (gset nat) :=
  '(outliers, checked) ← classify_loop compound molecules maybe_outliers ∅ ∅;
  let starts := outliers in
  propagate (3 * length (dd_keys bond_dict)) bond_dict starts outliers checked.

(** [mol_ind = [i for i, mol in enumerate(molecules) if outlier in mol]] *)
Definition mol_ind (molecules : list (gset nat)) (outlier : nat) : list nat :=
  fst <$> filter (fun im => outlier ∈ im.2) (imap pair molecules).

(** "organize outliers by molecule": the body of [for outlier in outliers:]
    and the loop. *)
Definition organize_step (molecules : list (gset nat)) (outlier_dict : defaultdict)
    (outlier : nat) : defaultdict :=
  match mol_ind molecules outlier with
  | [] => outlier_dict
  | i :: _ => dd_add outlier_dict i outlier
  end.

Definition organize (molecules : list (gset nat)) (outliers : gset nat) : defaultdict :=
  foldl (organize_step molecules) dd_empty (set_list outliers).

(** One axis of
    [np.where(image > self.box / 2, 1, 0) + np.where(image < -self.box / 2, -1, 0)]. *)
Definition img_axis (image L : float) : Z :=
  Z.add (if L / 2 <? image then 1%Z else 0%Z)
        (if image <? (- L) / 2 then (-1)%Z else 0%Z).

Definition img_of (image box : vec) : Z * Z * Z :=
  let '(ix, iy, iz) := image in
  let '(Lx, Ly, Lz) := box in
  (img_axis ix Lx, img_axis iy Ly, img_axis iz Lz).

(** The body of [for outlier in outlier_dict[mol_ind]:]. *)
Definition move_outlier (box mol_avg : vec) (self : t) (outlier : nat) : t :=
  let image := vsub mol_avg (xyz_row self outlier) in
  let img := img_of image box in
  let new_xyz := freud_unwrap box (xyz_row self outlier) img in
  translate_to self outlier new_xyz.

(** The body of [for mol_ind in outlier_dict:]. *)
Definition relocate_molecule (molecules : list (gset nat)) (outlier_dict : defaultdict)
    (self : t) (mol_ind : nat) : outcome t :=
  let molecule := default ∅ (molecules !! mol_ind) ∖ dd_get outlier_dict mol_ind in
  let mol_xyz := xyz_rows self (set_list molecule) in
  let mol_avg := mean_axis0 mol_xyz in
  match box self with
  | None => raise TypeError
  | Some box =>
      mret (foldl (move_outlier box mol_avg) self (set_list (dd_get outlier_dict mol_ind)))
  end.

Fixpoint relocate (molecules : list (gset nat)) (outlier_dict : defaultdict)
    (mol_inds : list nat) (self : t) : outcome t :=
  match mol_inds with
  | [] => mret self
  | mol_ind :: mol_inds =>
      self ← relocate_molecule molecules outlier_dict self mol_ind;
      relocate molecules outlier_dict mol_inds self
  end.

(** One pass of [unwrap] over a compound with bad bonds: classify,
    propagate, relocate. *)
Definition unwrap_pass (self : t) (molecules : list (gset nat))
    (maybe_outliers : list (nat * nat)) : outcome t :=
  let bond_dict := bond_dict self in
  outliers ← find_outliers self molecules maybe_outliers bond_dict;
  let outlier_dict := organize molecules outliers in
  relocate molecules outlier_dict (dd_keys outlier_dict) self.

(** What a call leaves behind: the compound, the lines printed, and the
    exception when the call raised one. *)
Record run : Type := {
  final : t;
  printed : list message;
  raised : option exception
}.

(** [self.unwrap(d_tolerance, _count)]; one unit of fuel per call of
    [unwrap]. *)
Fixpoint unwrap_from (fuel : nat) (self : t) (d_tolerance : float) (_count : nat) : run :=
  match fuel with
  | O => {| final := self; printed := []; raised := Some OutOfFuel |}
  | S fuel =>
      match get_molecules self with
      | inl e => {| final := self; printed := []; raised := Some e |}
      | inr molecules =>
          let maybe_outliers := check_bad_bonds self d_tolerance in
          match maybe_outliers with
          | [] => {| final := self; printed := [NoBadBonds d_tolerance]; raised := None |}
          | _ :: _ =>
              match unwrap_pass self molecules maybe_outliers with
              | inl e => {| final := self; printed := []; raised := Some e |}
              | inr self =>
                  let bad_bonds := check_bad_bonds self d_tolerance in
                  match bad_bonds with
                  | [] => {| final := self; printed := []; raised := None |}
                  | _ :: _ =>
                      if (_count <? 5)%nat then
                        let _count := S _count in
                        let r := unwrap_from fuel self d_tolerance _count in
                        {| final := final r;
                           printed := TryingAgain _count :: printed r;
                           raised := raised r |}
                      else
                        {| final := self; printed := [TryLimitExceeded]; raised := None |}
                  end
              end
          end
      end
  end.

(** [self.unwrap(d_tolerance=0.22, _count=0)] *)
Definition unwrap (self : t) (d_tolerance : float) (_count : nat) : run :=
  unwrap_from (S (5 - _count)) self d_tolerance _count.

Definition default_d_tolerance : float := 0.22.

(** [self.unwrap_position(tup)]: [TypeError] from [list(self.box)] when the
    box is not set, [IndexError] from [pair[0]] or [pair[1]] when fewer
    than two particles are found. *)
Definition unwrap_position (self : t) (tup : nat * nat) : outcome vec :=
  match box self with
  | None => raise TypeError
  | Some box =>
      match particle_pair self tup with
      | p_0 :: p_1 :: _ =>
          let diff := vsub (pos p_0) (pos p_1) in
          let img := img_of diff box in
          mret (freud_unwrap box (pos p_1) img)
      | _ => raise IndexError
      end
  end.

End Unwrap.

(** *** [wrap] *)

Section Wrap.

(** [freud.box.Box(Lx, Ly, Lz).wrap(pos)], which is not part of this
    repository. *)
Variable freud_wrap : vec -> vec -> vec.

(** The first column of [np.argwhere(abs(self.xyz) > self.box / 2)]: a row
    once for each of its coordinates out of the box. *)
Definition rows_out_of_box (self : t) (box : vec) : list nat :=
  let '(Lx, Ly, Lz) := box in
  mjoin (imap (fun row p =>
                 let '(x, y, z) := p in
                 (if Lx / 2 <? abs x then [row] else []) ++
                 (if Ly / 2 <? abs y then [row] else []) ++
                 (if Lz / 2 <? abs z then [row] else []))
              (xyz self)).

Definition wrap (self : t) : t * list message :=
  match box self with
  | None => (self, [CantWrap])
  | Some box =>
      (foldl (fun self row => translate_to self row (freud_wrap box (xyz_row self row)))
             self (rows_out_of_box self box),
       [])
  end.

End Wrap.

(** *** [is_bad_bond] *)

(** [self.is_bad_bond(tup)]; [None] is the return value after
    "Bond {tup} not found in compound! Aborting..." is printed. *)
Definition is_bad_bond (self : t) (tup : nat * nat) : outcome (option bool) :=
  bonds ← get_bonds self;
  if decide (¬ (tup ∈ bonds) ∧ ¬ ((tup.2, tup.1) ∈ bonds)) then mret None
  else
    match particle_pair self tup with
    | p_0 :: p_1 :: _ =>
        let '(dx, dy, dz) := vsub (pos p_0) (pos p_1) in
        match box self with
        | None => raise TypeError
        | Some (Lx, Ly, Lz) =>
            mret (Some ((Lx / 2 <? abs dx) || (Ly / 2 <? abs dy) || (Lz / 2 <? abs dz)))
        end
    | _ => raise IndexError
    end.

(** *** [amber_to_element] *)

(** [amber_dict[name]] *)
Definition amber_dict_get (name : string) : option string :=
  (list_to_map amber_dict : gmap string string) !! name.

(** The loop of [self.amber_to_element()]: the particles as the loop leaves
    them, and the name that is no key of [amber_dict] when the loop stopped
    with a [KeyError]. *)
Fixpoint amber_rename (particles : list Particle) : list Particle * option string :=
  match particles with
  | [] => ([], None)
  | particle :: rest =>
      match amber_dict_get (name particle) with
      | None => (particle :: rest, Some (name particle))
      | Some element =>
          let '(rest, key_error) := amber_rename rest in
          ({| name := element; pos := pos particle |} :: rest, key_error)
      end
  end.

Definition amber_to_element (self : t) : t * option string :=
  let '(renamed, key_error) := amber_rename (particles self) in
  ({| particles := renamed; bond_graph := bond_graph self; box := box self |}, key_error).

End CG_Compound.

(** ** Coarse-graining *)

(** [has_number(string)]: [re.search("[0-9]", string)] finds a character
    from ["0"] to ["9"]. *)
Definition is_digit (c : Ascii.ascii) : bool :=
  (48 <=? Ascii.nat_of_ascii c)%nat && (Ascii.nat_of_ascii c <=? 57)%nat.

Fixpoint has_number (string : string) : bool :=
  match string with
  | EmptyString => false
  | String c string => is_digit c || has_number string
  end.

(** [has_common_member(set_a, tup)] returns the set [set_a & set(tup)];
    [if] takes a set as true when it is not empty. *)
Definition has_common_member (set_a : gset nat) (tup : list nat) : gset nat :=
  set_a ∩ list_to_set tup.

Definition truth (s : gset nat) : bool := bool_decide (s ≠ ∅).

(** [chr(n)], for the code points an [ascii] holds (below 256). *)
Definition chr (n : nat) : string := String (Ascii.ascii_of_nat n) EmptyString.

(** [num2str(num)]: "a capital letter for positive integers up to 701". *)
Definition num2str (num : nat) : string :=
  if (num <? 26)%nat then chr (num + 65)
  else chr (num / 26 + 64) +:+ chr (num mod 26 + 65).

(** A match: the tuple of its atoms, the SMARTS string and the bead name. *)
Definition bead_match : Type := list nat * string * string.

(** What [coarse] reads from a [pybel.Molecule].  pybel and openbabel are
    not part of this repository: the matches of a SMARTS string come from
    [findall], with atoms counted from 1. *)
Record Molecule : Type := {
  atoms : list Particle;
      (* the particles [from_pybel] makes of [pybel_mol.atoms], each of
         which has an element, in the order of [cmpd.particles()] *)
  OBMolBondIter : list (nat * nat);
      (* [(bond.GetBeginAtomIdx(), bond.GetEndAtomIdx())], counted from 1 *)
  unitcell : option vec;
      (* [mb.box.Box(lengths, angles).maxs] of [pybel_mol.unitcell]; [None]
         when the molecule has no unit cell *)
  NumHvyAtoms : nat;
  findall : string -> list (list nat)
}.

(** [CG_Compound.from_pybel(mol)].  Without a unit cell it calls [warn],
    which [utils.py] does not define. *)
Definition from_pybel (pybel_mol : Molecule) : outcome CG_Compound.t :=
  let cmpd := {| CG_Compound.particles := atoms pybel_mol;
                 CG_Compound.bond_graph := None;
                 CG_Compound.box := None |} in
  let cmpd := foldl (fun cmpd bond => CG_Compound.add_bond cmpd (bond.1 - 1, bond.2 - 1)%nat)
                    cmpd (OBMolBondIter pybel_mol) in
  match unitcell pybel_mol with
  | None => raise NameError
  | Some maxs =>
      mret {| CG_Compound.particles := CG_Compound.particles cmpd;
              CG_Compound.bond_graph := CG_Compound.bond_graph cmpd;
              CG_Compound.box := Some maxs |}
  end.

(** [cg_comp(comp, bead_inds)] *)
Definition cg_comp (comp : CG_Compound.t) (bead_inds : list bead_match)
    : CG_Compound.t * nat :=
  let N := length (CG_Compound.particles comp) in
  (foldl (fun comp (m : bead_match) =>
            let '(bead, smarts, bead_name) := m in
            let bead_xyz := CG_Compound.xyz_rows comp bead in
            let avg_xyz := mean_axis0 bead_xyz in
            CG_Compound.add comp {| name := bead_name; pos := avg_xyz |})
         comp bead_inds,
   N).

(** The first loop of [cg_bonds]: the list [bead_bonds]. *)
Definition bead_bonds_of (bonds : list (nat * nat)) (beads : list bead_match)
    : list (nat * nat) :=
  mjoin (imap (fun i (m_i : bead_match) =>
     let bead_i := m_i.1.1 in
     mjoin (imap (fun j (m_j : bead_match) =>
        let bead_j := m_j.1.1 in
        mjoin ((fun pair : nat * nat =>
                  (if decide (pair.1 ∈ bead_i ∧ pair.2 ∈ bead_j)
                   then [(i, j + i + 1)%nat] else []) ++
                  (if decide (pair.2 ∈ bead_i ∧ pair.1 ∈ bead_j)
                   then [(i, j + i + 1)%nat] else []))
               <$> bonds))
       (drop (i + 1) beads)))
    (take (length beads - 1) beads)).

(** The body of the second loop: [bond_pair] holds the particles at
    [pair[0] + N] and [pair[1] + N], and [add_bond] reads its first two
    elements. *)
Definition add_bead_bond (N : nat) (comp : CG_Compound.t) (pair : nat * nat)
    : outcome CG_Compound.t :=
  let bond_pair :=
    filter (fun i => i = (pair.1 + N)%nat ∨ i = (pair.2 + N)%nat)
           (seq 0 (length (CG_Compound.particles comp))) in
  match bond_pair with
  | i :: j :: _ => mret (CG_Compound.add_bond comp (i, j))
  | _ => raise IndexError
  end.

Fixpoint add_bead_bonds (N : nat) (bead_bonds : list (nat * nat)) (comp : CG_Compound.t)
    : outcome CG_Compound.t :=
  match bead_bonds with
  | [] => mret comp
  | tup :: bead_bonds =>
      comp ← add_bead_bond N comp tup;
      add_bead_bonds N bead_bonds comp
  end.

(** [cg_bonds(comp, beads, N)] *)
Definition cg_bonds (comp : CG_Compound.t) (beads : list bead_match) (N : nat)
    : outcome CG_Compound.t :=
  bonds ← CG_Compound.get_bonds comp;
  let bead_bonds := bead_bonds_of bonds beads in
  add_bead_bonds N bead_bonds comp.

(** The first loop of [coarse]: the list [matches]. *)
Definition find_matches (mol : Molecule) (bead_smarts : list string) : list bead_match :=
  mjoin (imap (fun i smart_str =>
                 (fun group : list nat =>
                    ((fun i => (i - 1)%nat) <$> group, smart_str, "_" +:+ num2str i))
                 <$> findall mol smart_str)
              bead_smarts).

Definition not_found (mol : Molecule) (bead_smarts : list string) : list message :=
  NotFound <$> filter (fun smart_str => findall mol smart_str = []) bead_smarts.

(** [for atom in group: seen.add(atom)] *)
Definition add_atoms (seen : gset nat) (group : list nat) : gset nat :=
  foldl (fun seen atom => {[atom]} ∪ seen) seen group.

(** The body of [for group, smarts, name in matches:]. *)
Definition accept (state : gset nat * list bead_match) (m : bead_match)
    : gset nat * list bead_match :=
  let '(seen, bead_inds) := state in
  let '(group, smarts, name) := m in
  if has_number smarts then
    (add_atoms seen group, bead_inds ++ [(group, smarts, name)])
  else if truth (has_common_member seen group) then
    (seen, bead_inds)
  else
    (add_atoms seen group, bead_inds ++ [(group, smarts, name)]).

Definition accept_all (matches : list bead_match) : gset nat * list bead_match :=
  foldl accept (∅, []) matches.

Section Coarse.

(** [comp.remove_atomistic()].  It removes particles from the compound
    while it goes through them; what this leaves is decided by mbuild and
    its ordered set, which are not part of this repository. *)
Variable remove_atomistic : CG_Compound.t -> outcome CG_Compound.t.

(** [coarse(mol, bead_smarts, atomistic)]: what the call returns or
    raises, and the lines it has printed by then. *)
Definition coarse (mol : Molecule) (bead_smarts : list string) (atomistic : bool)
    : outcome CG_Compound.t * list message :=
  let matches := find_matches mol bead_smarts in
  let '(seen, bead_inds) := accept_all matches in
  let n_atoms := NumHvyAtoms mol in
  let warning := if decide (n_atoms ≠ size seen) then [LeftOut] else [] in
  (comp ← from_pybel mol;
   let '(comp, N) := cg_comp comp bead_inds in
   comp ← cg_bonds comp bead_inds N;
   if atomistic then mret comp else remove_atomistic comp,
   not_found mol bead_smarts ++ warning).

End Coarse.

Local Close Scope float_scope.

(** * [polysmiles.py] *)

Module polysmiles.

Import Stdlib.Strings.Ascii.

(** A Python [str] is the list of its characters; a character is a code
    point below 256. *)
Abbreviation str := (list ascii).

(** [s.isalpha()] for a character: the letters among the code points below
    256. *)
Definition isalpha (s : ascii) : bool :=
  let n := nat_of_ascii s in
  (65 <=? n) && (n <=? 90) || (97 <=? n) && (n <=? 122)
  || (n =? 170) || (n =? 181) || (n =? 186)
  || (192 <=? n) && (n <=? 214) || (216 <=? n) && (n <=? 246) || (248 <=? n).

(** [s * n]: the empty string when [n] is negative. *)
Definition str_mul (s : str) (n : Z) : str := mjoin (replicate (Z.to_nat n) s).

(** What a call returns: [()], the result [r] of the converter, or [None]. *)
Inductive value (R : Type) :=
  | Tuple
  | Converted (r : R)
  | NoneValue.
Arguments Tuple {R}.
Arguments Converted {R} r.
Arguments NoneValue {R}.

(** The exceptions of [str.format] and [list.remove]. *)
Inductive error :=
  | SingleBrace         (* ValueError: Single '{' (or '}') encountered in format string *)
  | ReplacementIndex    (* IndexError: Replacement index 1 out of range *)
  | NotInList           (* ValueError: list.remove(x): x not in list *)
  | OtherField.         (* a replacement field that is not {}: formatting it is not modelled *)

(** [l.remove(x)]: the list without its first item equal to [x], or the
    [ValueError] when no item is. *)
Fixpoint remove (x : str) (l : list str) : error + list str :=
  match l with
  | [] => inl NotInList
  | y :: l =>
      if decide (y = x) then inr l
      else match remove x l with
           | inl e => inl e
           | inr l => inr (y :: l)
           end
  end.

(** The string [s] before the string a call returns. *)
Definition prepend (s : str) (r : error + str) : error + str :=
  match r with
  | inl e => inl e
  | inr t => inr (s ++ t)
  end.

(** [fmt.format(arg)] for a string [arg].  [numbered] tells that a field
    [{}] has taken the argument.  A doubled brace is a brace; a field [{}]
    is the argument, and a second one has no argument left. *)
Fixpoint format_from (numbered : bool) (fmt arg : str) : error + str :=
  match fmt with
  | [] => inr []
  | c :: rest =>
      if decide (c = "{"%char) then
        match rest with
        | [] => inl SingleBrace
        | c' :: rest' =>
            if decide (c' = "{"%char) then prepend [c] (format_from numbered rest' arg)
            else if decide (c' = "}"%char) then
              if numbered then inl ReplacementIndex
              else prepend arg (format_from true rest' arg)
            else inl OtherField
        end
      else if decide (c = "}"%char) then
        match rest with
        | [] => inl SingleBrace
        | c' :: rest' =>
            if decide (c' = "}"%char) then prepend [c] (format_from numbered rest' arg)
            else inl SingleBrace
        end
      else prepend [c] (format_from numbered rest arg)
  end.

Definition format (fmt arg : str) : error + str := format_from false fmt arg.

Section Converter.

(** [deepsmiles.Converter(rings=True, branches=True)]: what [encode] and
    [decode] do with a string. *)
Context {R : Type} (encode decode : str → R).

(** A string that is not empty; [None] stands for [False]. *)
Definition truthy (s : option str) : bool :=
  match s with Some (_ :: _) => true | _ => false end.

(** [convert_smiles(smiles=False, deep=False)]: the lines printed and the
    value returned. *)
Definition convert_smiles (smiles deep : option str) : list string * value R :=
  let converter := (encode, decode) in
  if truthy smiles && truthy deep
  then (["Only provide a string for one of smiles or deep"], Tuple)
  else if truthy smiles then ([], Converted (converter.1 (default [] smiles)))
  else if truthy deep then ([], Converted (converter.2 (default [] deep)))
  else ([], NoneValue).

(** The first loop of [poly_smiles]: [(atom_count, bracket_count)]. *)
Definition count_atoms_brackets (monomer_string : str) : Z * Z :=
  foldl (fun '(atom_count, bracket_count) s =>
           let atom_count := if isalpha s then (atom_count + 1)%Z else atom_count in
           let bracket_count :=
             if decide (s = ")"%char) then (bracket_count + 1)%Z else bracket_count in
           (atom_count, bracket_count))
        (0%Z, 0%Z) monomer_string.

(** The loop that formats the polymer, over the rest [range] of
    [range(length)]. *)
Fixpoint format_loop (length : Z) (template monomer : str) (range : list nat)
    (polymer : str) : error + str :=
  match range with
  | [] => inr polymer
  | i :: range =>
      if decide (Z.of_nat i = length - 1)%Z then format polymer monomer
      else match format polymer template with
           | inl e => inl e
           | inr polymer => format_loop length template monomer range polymer
           end
  end.

(** [poly_smiles(monomer_string, length=2)]: the exception raised, or the
    lines printed and the value returned. *)
Definition poly_smiles (monomer_string : str) (length : Z)
    : error + list string * value R :=
  let '(atom_count, bracket_count) := count_atoms_brackets monomer_string in
  let brackets :=
    if decide (bracket_count = 0%Z) then str_mul ([")"%char]) atom_count
    else str_mul ([")"%char]) (atom_count - bracket_count) in
  let monomer_list := (fun s => [s]) <$> monomer_string in
  if decide (["*"%char] ∉ monomer_list)
  then inr (["ERROR: Identify the wanted polymerization site using *x*"], NoneValue)
  else
    let key_indices :=
      fst <$> filter (fun iv : nat * str => iv.2 = ["*"%char]) (imap pair monomer_list) in
    match key_indices with
    | [key_0; key_1] =>
        if decide (Z.of_nat key_1 - Z.of_nat key_0 ≠ 2)%Z
        then inr (["ERROR: Select only one polymerization site using *x*"], NoneValue)
        else
          (* "{}".format(brackets) is brackets *)
          let site := ["{"; "}"]%char ++ brackets in
          let monomer_list := <[key_1 := site]> monomer_list in
          match remove ["*"%char] monomer_list with
          | inl e => inl e
          | inr monomer_list =>
              let template := mjoin monomer_list in
              match remove site monomer_list with
              | inl e => inl e
              | inr monomer_list =>
                  let monomer := mjoin monomer_list in
                  match format_loop length template monomer
                          (seq 0 (Z.to_nat length)) ["{"; "}"]%char with
                  | inl e => inl e
                  | inr polymer => inr (convert_smiles None (Some polymer))
                  end
              end
          end
    | _ => inr (["ERROR: Select only one polymerization site using *x*"], NoneValue)
    end.

End Converter.

End polysmiles.


(** ** Vocabulary of the statements *)

Local Close Scope float_scope.

(** The keys of a dictionary as a set. *)
Definition dd_dom (d : defaultdict) : gset nat := list_to_set (dd_keys d).

(** A dictionary filled from a list of bonds: both ends of every bond are
    keys, and a key is mapped to keys. *)
Definition of_bonds (bonds : list (nat * nat)) : defaultdict :=
  foldl (fun d bond => dd_add (dd_add d bond.1 bond.2) bond.2 bond.1) dd_empty bonds.

(** The keys are distinct, and a key is mapped to keys. *)
Record dd_ok (d : defaultdict) : Prop := {
  dd_ok_NoDup : NoDup (dd_keys d);
  dd_ok_get : ∀ k, dd_get d k ⊆ dd_dom d;
  dd_ok_key : ∀ k, k ∉ dd_dom d → dd_get d k = ∅
}.

(** No two sets of the list share an element. *)
Definition pairwise_disjoint (l : list (gset nat)) : Prop :=
  ∀ i j m1 m2, l !! i = Some m1 → l !! j = Some m2 → i ≠ j → m1 ## m2.

(** The ends of a list of bonds. *)
Definition ends (bonds : list (nat * nat)) : gset nat :=
  list_to_set (bonds.*1) ∪ list_to_set (bonds.*2).

Section UnwrapVocabulary.

Context {libraries : Libraries}.

(** One scan of the bonds and one pass over the bad ones. *)
Definition unwrap_once (self : CG_Compound.t) (d_tolerance : float) : outcome CG_Compound.t :=
  molecules ← CG_Compound.get_molecules self;
  CG_Compound.unwrap_pass self molecules (CG_Compound.check_bad_bonds self d_tolerance).

Fixpoint unwrap_times (n : nat) (self : CG_Compound.t) (d_tolerance : float)
    : outcome CG_Compound.t :=
  match n with
  | O => mret self
  | S n => self ← unwrap_once self d_tolerance; unwrap_times n self d_tolerance
  end.

(** How a call [unwrap(d_tolerance, _count)] ends when it made [k] calls of
    itself, the last of them on the compound [mid]. *)
Inductive ending (d_tolerance : float) (_count k : nat) (mid : CG_Compound.t)
    (r : CG_Compound.run) : Prop :=
  | no_bond_graph :
      k = 0 →
      CG_Compound.bond_graph mid = None →
      r = {| CG_Compound.final := mid;
             CG_Compound.printed := [];
             CG_Compound.raised := Some AttributeError |} →
      ending d_tolerance _count k mid r
  | no_change :
      k = 0 →
      CG_Compound.bond_graph mid ≠ None →
      CG_Compound.check_bad_bonds mid d_tolerance = [] →
      r = {| CG_Compound.final := mid;
             CG_Compound.printed := [NoBadBonds d_tolerance];
             CG_Compound.raised := None |} →
      ending d_tolerance _count k mid r
  | exception_raised e :
      CG_Compound.bond_graph mid ≠ None →
      CG_Compound.check_bad_bonds mid d_tolerance ≠ [] →
      unwrap_once mid d_tolerance = inl e →
      e ≠ OutOfFuel →
      r = {| CG_Compound.final := mid;
             CG_Compound.printed := TryingAgain <$> seq (S _count) k;
             CG_Compound.raised := Some e |} →
      ending d_tolerance _count k mid r
  | repaired self :
      CG_Compound.check_bad_bonds mid d_tolerance ≠ [] →
      unwrap_once mid d_tolerance = inr self →
      CG_Compound.check_bad_bonds self d_tolerance = [] →
      r = {| CG_Compound.final := self;
             CG_Compound.printed := TryingAgain <$> seq (S _count) k;
             CG_Compound.raised := None |} →
      ending d_tolerance _count k mid r
  | limit_exceeded self :
      _count + k = 5 →
      CG_Compound.check_bad_bonds mid d_tolerance ≠ [] →
      unwrap_once mid d_tolerance = inr self →
      CG_Compound.check_bad_bonds self d_tolerance ≠ [] →
      r = {| CG_Compound.final := self;
             CG_Compound.printed := (TryingAgain <$> seq (S _count) k) ++ [TryLimitExceeded];
             CG_Compound.raised := None |} →
      ending d_tolerance _count k mid r.

(** Both ends of the bond test as outliers and neither is farther from the
    centre of its molecule than the other. *)
Definition ambiguous (compound : CG_Compound.t) (molecules : list (gset nat))
    (tup : nat * nat) : Prop :=
  CG_Compound._is_outlier compound molecules tup.1 = inr true
  ∧ CG_Compound._is_outlier compound molecules tup.2 = inr true
  ∧ ∃ d_0 d_1,
      CG_Compound._d_to_center compound molecules tup.1 = inr d_0
      ∧ CG_Compound._d_to_center compound molecules tup.2 = inr d_1
      ∧ (d_1 <? d_0)%float = false ∧ (d_0 <? d_1)%float = false.

(** The centre of a molecule: the mean of the positions of its particles,
    in the order in which Python lists the set. *)
Definition centre (compound : CG_Compound.t) (molecule : gset nat) : vec :=
  mean_axis0 (CG_Compound.xyz_rows compound (set_list molecule)).

(** The mean distance of the particles of a molecule to its centre. *)
Definition spread (compound : CG_Compound.t) (molecule : gset nat) : float :=
  np_mean (v_distance (CG_Compound.xyz_rows compound (set_list molecule))
                      (centre compound molecule)).

(** Leaving the particle out lowers the mean distance to the centre. *)
Definition exclusion_improves (compound : CG_Compound.t) (molecule : gset nat)
    (index : nat) : bool :=
  (spread compound (molecule ∖ {[index]}) <? spread compound molecule)%float.

(** Where [unwrap] moves the particle [p], given the centre [mol_avg] of the
    particles of its molecule that are not outliers. *)
Definition relocated (box mol_avg : vec) (self : CG_Compound.t) (p : nat) : vec :=
  freud_unwrap box (CG_Compound.xyz_row self p)
    (CG_Compound.img_of (vsub mol_avg (CG_Compound.xyz_row self p)) box).

(** The centre of the particles of molecule [k] that are not outliers. *)
Definition anchor (molecules : list (gset nat)) (outlier_dict : defaultdict)
    (self : CG_Compound.t) (k : nat) : vec :=
  mean_axis0 (CG_Compound.xyz_rows self
                (set_list (default ∅ (molecules !! k) ∖ dd_get outlier_dict k))).

End UnwrapVocabulary.

(** ** An instance of the libraries for the examples

    Sets are listed in increasing order, as CPython lists a set of a few
    small integers; the mean adds from left to right, as NumPy does for
    fewer than eight numbers; the unwrap is computed in single precision,
    as freud does. *)

(** NumPy's [add.reduce] of fewer than eight numbers: they are added one
    by one to [0.0]. *)
Definition fsum (l : list float) : float := foldl PrimFloat.add 0%float l.

(** The sum over the length, so [nan] for an empty array. *)
Definition mean (l : list float) : float := (fsum l / float_of_nat (length l))%float.

(** A binary64 number rounded to single precision, to the nearest number
    and to the even one of two nearest. *)
Definition float32 (x : float) : float :=
  match Prim2SF x with
  | S754_finite s m e => SF2Prim (binary_normalize 24 128 (cond_Zopp s (Z.pos m)) e s)
  | _ => x
  end.

Definition vec32 (p : vec) : vec :=
  let '(x, y, z) := p in (float32 x, float32 y, float32 z).

(** The sum of two positions, and a lattice vector times a number of
    images, in single precision. *)
Definition vadd32 (p q : vec) : vec := vec32 (vadd p q).

Definition vscale32 (v : vec) (i : Z) : vec :=
  let '(x, y, z) := v in
  vec32 (x * float_of_Z i, y * float_of_Z i, z * float_of_Z i)%float.

(** freud's unwrap in a box without tilt: to the position, the three
    lattice vectors are added one after the other, each as often as the
    image says. *)
Definition unwrap_float32 (box pos : vec) (img : Z * Z * Z) : vec :=
  let '(Lx, Ly, Lz) := vec32 box in
  let '(ix, iy, iz) := img in
  let newp := vec32 pos in
  let newp := vadd32 newp (vscale32 (Lx, 0, 0)%float ix) in
  let newp := vadd32 newp (vscale32 (0, Ly, 0)%float iy) in
  vadd32 newp (vscale32 (0, 0, Lz)%float iz).

Definition increasing (s : gset nat) : list nat := merge_sort Nat.le (elements s).

Definition example_libraries : Libraries :=
  {| set_list := increasing;
     set_list_perm := fun s => merge_sort_Permutation Nat.le (elements s);
     np_mean := mean;
     freud_unwrap := unwrap_float32 |}.

(** ** Example compounds *)

(** A carbon atom on the x axis. *)
Definition atom (x : float) : Particle := {| name := "C"; pos := (x, 0, 0)%float |}.

(** Two bonded atoms on either side of the boundary of a cubic box of
    side 10. *)
Definition two : CG_Compound.t :=
  {| CG_Compound.particles := [atom 0.1; atom 9.9];
     CG_Compound.bond_graph := Some [(0, 1)];
     CG_Compound.box := Some (10, 10, 10)%float |}.

(** Three atoms, the last one across the boundary. *)
Definition three : CG_Compound.t :=
  {| CG_Compound.particles := [atom 0.1; atom 0.2; atom 9.9];
     CG_Compound.bond_graph := Some [(0, 1); (0, 2)];
     CG_Compound.box := Some (10, 10, 10)%float |}.

(** Four atoms in a row, two on either side of the boundary; the bond in
    the middle crosses it. *)
Definition four : CG_Compound.t :=
  {| CG_Compound.particles := [atom 0.05; atom 0.15; atom 9.95; atom 9.85];
     CG_Compound.bond_graph := Some [(0, 1); (1, 2); (2, 3)];
     CG_Compound.box := Some (10, 10, 10)%float |}.

(** The same three atoms in a compound whose box is not set. *)
Definition three_without_box : CG_Compound.t :=
  {| CG_Compound.particles := CG_Compound.particles three;
     CG_Compound.bond_graph := CG_Compound.bond_graph three;
     CG_Compound.box := None |}.

(** ** Vocabulary of the statements on coarse-graining *)

(** The atoms of a list of matches. *)
Definition group_atoms (bead_inds : list bead_match) : gset nat :=
  ⋃ ((fun m : bead_match => list_to_set m.1.1) <$> bead_inds).

(** The characters ["0"] to ["9"]. *)
Definition digits : list Ascii.ascii := String.list_ascii_of_string "0123456789".

(** The list [get_bonds] returns when the compound has a bond graph. *)
Definition sorted_bonds (self : CG_Compound.t) : list (nat * nat) :=
  merge_sort CG_Compound.pair_le
    ((fun tup => (Nat.min tup.1 tup.2, Nat.max tup.1 tup.2)) <$> CG_Compound.bonds self).

(** The bond joins an atom of the first group to an atom of the second. *)
Definition crosses (bond : nat * nat) (bead_i bead_j : list nat) : Prop :=
  (bond.1 ∈ bead_i ∧ bond.2 ∈ bead_j) ∨ (bond.2 ∈ bead_i ∧ bond.1 ∈ bead_j).

(** A bead bond of [cg_bonds] as a bond of the compound with [N] atoms. *)
Definition shift (N : nat) (pair : nat * nat) : nat * nat := (pair.1 + N, pair.2 + N).

(** A bond that ends in a bead starts below its end. *)
Definition bead_bonds_ordered (N : nat) (bonds : list (nat * nat)) : Prop :=
  ∀ bond, bond ∈ bonds → N ≤ bond.1 → bond.1 < bond.2.

(** Hexane: six carbon atoms in a row.  The SMARTS string [CCC] matches
    every three atoms in a row, and no other string of the examples
    matches. *)
Definition hexane : Molecule :=
  {| atoms := [atom 0.0; atom 0.15; atom 0.3; atom 0.45; atom 0.6; atom 0.75];
     OBMolBondIter := [(1, 2); (2, 3); (3, 4); (4, 5); (5, 6)];
     unitcell := Some (10, 10, 10)%float;
     NumHvyAtoms := 6;
     findall := fun smart_str =>
       if decide (smart_str = "CCC")
       then [[1; 2; 3]; [2; 3; 4]; [3; 4; 5]; [4; 5; 6]]
       else [] |}.

(** The two matches of [CCC] that [coarse] accepts in hexane, and hexane
    with their beads. *)
Definition hexane_beads : list bead_match :=
  [([0; 1; 2], "CCC", "_A"); ([3; 4; 5], "CCC", "_A")].

Definition hexane_compound : CG_Compound.t :=
  {| CG_Compound.particles := atoms hexane;
     CG_Compound.bond_graph := Some [(0, 1); (1, 2); (2, 3); (3, 4); (4, 5)];
     CG_Compound.box := Some (10, 10, 10)%float |}.

Definition hexane_with_beads : CG_Compound.t :=
  (cg_comp hexane_compound hexane_beads).1.

(** ** Vocabulary of the further statements *)

(** Two particles with a bond between them. *)
Definition bonded (bonds : list (nat * nat)) (a b : nat) : Prop :=
  (a, b) ∈ bonds ∨ (b, a) ∈ bonds.

(** The set holds the neighbours of its elements. *)
Definition closed (graph : defaultdict) (X : gset nat) : Prop :=
  ∀ a, a ∈ X → dd_get graph a ⊆ X.

(** A molecule as [get_molecules] builds one: every particle of it is
    reached from its first one along the edges of the graph, and all the
    neighbours of its particles are in it. *)
Definition component (graph : defaultdict) (m : gset nat) : Prop :=
  (∃ root, root ∈ m ∧ ∀ x, x ∈ m → rtc (fun a b => b ∈ dd_get graph a) root x)
  ∧ closed graph m.

(** What a call keeps of a compound: the names of the particles, the bond
    graph and the box. *)
Definition same_frame (self self' : CG_Compound.t) : Prop :=
  name <$> CG_Compound.particles self' = name <$> CG_Compound.particles self
  ∧ CG_Compound.bond_graph self' = CG_Compound.bond_graph self
  ∧ CG_Compound.box self' = CG_Compound.box self.

(** A capital letter from A to Z. *)
Definition is_capital (c : Ascii.ascii) : Prop :=
  65 ≤ Ascii.nat_of_ascii c ≤ 90.

(** How many coordinates of a position are out of the box. *)
Definition out_of_box (box p : vec) : nat :=
  let '(Lx, Ly, Lz) := box in
  let '(x, y, z) := p in
  ((if (Lx / 2 <? abs x)%float then 1 else 0)
   + ((if (Ly / 2 <? abs y)%float then 1 else 0)
      + (if (Lz / 2 <? abs z)%float then 1 else 0)))%nat.

(** A particle moved to [new_xyz]. *)
Definition moved (particle : Particle) (new_xyz : vec) : Particle :=
  {| name := name particle; pos := new_xyz |}.

(** The names [amber_dict] maps to. *)
Definition element_symbols : list string :=
  ["C"; "H"; "F"; "Cl"; "Br"; "I"; "N"; "O"; "P"; "S"].

(** ** Further examples *)

(** Two particles with AMBER names, and three of which the second has a
    name that is no key of [amber_dict]. *)
Definition amber_pair : CG_Compound.t :=
  {| CG_Compound.particles := [{| name := "ca"; pos := vzero |};
                               {| name := "hc"; pos := vzero |}];
     CG_Compound.bond_graph := Some [(0, 1)];
     CG_Compound.box := None |}.

Definition amber_mixed : CG_Compound.t :=
  {| CG_Compound.particles := [{| name := "ca"; pos := vzero |};
                               {| name := "C"; pos := vzero |};
                               {| name := "hc"; pos := vzero |}];
     CG_Compound.bond_graph := None;
     CG_Compound.box := None |}.

(** A stand-in for [freud.box.Box.wrap]: the position one box length
    lower. *)
Definition wrap_down (box p : vec) : vec := vsub p box.

(** An autocorrelation that drops below zero at index 2. *)
Definition acorr_example : list float := [1; 0.5; -0.1; 0.2]%float.

(** The bead [cg_comp] adds for a match, when the atoms of the match are
    where they are in [comp]: it has the name of the match and sits at the
    mean of the positions of its atoms. *)
Definition bead_of (comp : CG_Compound.t) (m : bead_match) : Particle :=
  {| name := m.2; pos := mean_axis0 (CG_Compound.xyz_rows comp m.1.1) |}.

(** What pybel gives for a molecule: the atoms of a match are atoms of the
    molecule, counted from 1. *)
Definition matches_in_range (mol : Molecule) : Prop :=
  ∀ smart_str group i,
    group ∈ findall mol smart_str → i ∈ group → 1 ≤ i ≤ length (atoms mol).

(** The bonds openbabel lists join atoms of the molecule, counted from
    1. *)
Definition bonds_in_range (mol : Molecule) : Prop :=
  ∀ bond, bond ∈ OBMolBondIter mol →
    1 ≤ bond.1 ≤ length (atoms mol) ∧ 1 ≤ bond.2 ≤ length (atoms mol).

(** ** Vocabulary of the statements on [poly_smiles] *)

Section PolySmilesVocabulary.

Import Stdlib.Strings.Ascii.

(** The number of [")"] that [poly_smiles] writes after the site: the
    letters of the string, less its closing brackets when it has one. *)
Definition closing (monomer_string : list ascii) : nat :=
  let atom_count := length (filter (fun s => polysmiles.isalpha s = true) monomer_string) in
  let bracket_count := length (filter (fun s => s = ")"%char) monomer_string) in
  if decide (bracket_count = 0) then atom_count else atom_count - bracket_count.

(** The string has two ["*"], with one character between them. *)
Definition marks_one_character (monomer_string : list ascii) : Prop :=
  ∃ pre x post,
    monomer_string = pre ++ "*"%char :: x :: "*"%char :: post
    ∧ "*"%char ∉ pre ∧ x ≠ "*"%char ∧ "*"%char ∉ post.

(** The string has no brace. *)
Definition brace_free (s : list ascii) : Prop := "{"%char ∉ s ∧ "}"%char ∉ s.

(** [n] copies of a string in a row. *)
Definition copies (n : nat) (s : list ascii) : list ascii := mjoin (replicate n s).

End PolySmilesVocabulary.


(** * Proofs *)

(** ** Python sets and dictionaries *)

Lemma set_pop_None (s : gset nat) : set_pop s = None → s = ∅.
Proof.
  unfold set_pop. destruct (elements s) eqn:E; [|done].
  intros _. by apply elements_empty_inv in E; apply leibniz_equiv in E.
Qed.

Lemma set_pop_Some (s s' : gset nat) x :
  set_pop s = Some (x, s') → x ∈ s ∧ s' = s ∖ {[x]}.
Proof.
  unfold set_pop. destruct (elements s) eqn:E; [done|].
  intros [= <- <-]. split; [|done].
  apply elem_of_elements. rewrite E. left.
Qed.

Lemma dd_get_add d k v k' :
  dd_get (dd_add d k v) k' = if decide (k = k') then {[v]} ∪ dd_get d k else dd_get d k'.
Proof.
  unfold dd_get at 1, dd_add; simpl. rewrite lookup_insert.
  case_decide; done.
Qed.

Lemma dd_dom_add d k v : dd_dom (dd_add d k v) = {[k]} ∪ dd_dom d.
Proof.
  unfold dd_dom, dd_add; simpl. case_decide as H.
  - apply (elem_of_list_to_set (C:=gset nat)) in H. set_solver.
  - rewrite list_to_set_app_L. set_solver.
Qed.

Lemma dd_add_NoDup d k v : NoDup (dd_keys d) → NoDup (dd_keys (dd_add d k v)).
Proof.
  intros H. unfold dd_add; simpl. case_decide; [done|].
  apply NoDup_app. split_and!; [done| |apply NoDup_singleton].
  intros x Hx ->%list_elem_of_singleton. done.
Qed.

Lemma dd_add_bond_ok d a b :
  dd_ok d → dd_ok (dd_add (dd_add d a b) b a).
Proof.
  intros [H1 H2 H3]. split.
  - by do 2 apply dd_add_NoDup.
  - intros k. rewrite !dd_dom_add, !dd_get_add.
    repeat case_decide; subst; rewrite ?dd_get_add; repeat case_decide;
      try specialize (H2 k); try pose proof (H2 a); try pose proof (H2 b); set_solver.
  - intros k. rewrite !dd_dom_add, !dd_get_add. intros Hk.
    repeat case_decide; subst; [set_solver..|]. apply H3. set_solver.
Qed.

Lemma of_bonds_snoc bonds bond :
  of_bonds (bonds ++ [bond]) = dd_add (dd_add (of_bonds bonds) bond.1 bond.2) bond.2 bond.1.
Proof. unfold of_bonds. by rewrite foldl_app. Qed.

Lemma of_bonds_ok bonds : dd_ok (of_bonds bonds).
Proof.
  induction bonds as [|bond bonds IH] using rev_ind.
  - split; [apply NoDup_nil_2|set_solver..].
  - rewrite of_bonds_snoc. by apply dd_add_bond_ok.
Qed.

Lemma of_bonds_dom bonds k :
  k ∈ dd_dom (of_bonds bonds) ↔ ∃ bond, bond ∈ bonds ∧ (k = bond.1 ∨ k = bond.2).
Proof.
  induction bonds as [|bond bonds IH] using rev_ind.
  - unfold dd_dom; simpl. set_solver.
  - rewrite of_bonds_snoc, !dd_dom_add, !elem_of_union, !elem_of_singleton, IH.
    setoid_rewrite elem_of_app. setoid_rewrite list_elem_of_singleton. naive_solver.
Qed.

Lemma of_bonds_get bonds k v :
  v ∈ dd_get (of_bonds bonds) k ↔ (k, v) ∈ bonds ∨ (v, k) ∈ bonds.
Proof.
  induction bonds as [|[a b] bonds IH] using rev_ind.
  - unfold dd_get; simpl. rewrite lookup_empty; simpl. set_solver.
  - rewrite of_bonds_snoc; simpl. rewrite !dd_get_add.
    setoid_rewrite elem_of_app. setoid_rewrite list_elem_of_singleton.
    repeat case_decide; subst; rewrite ?dd_get_add; repeat case_decide;
      rewrite ?elem_of_union, ?elem_of_singleton, ?IH; naive_solver.
Qed.

Lemma _snap_bond_graph_of_bonds snapshot :
  _snap_bond_graph snapshot = of_bonds (bonds_group snapshot).
Proof. done. Qed.

(** ** The flood fill of [get_molecules] *)

Lemma pairwise_disjoint_snoc (l : list (gset nat)) (m : gset nat) :
  pairwise_disjoint l → m ## ⋃ l → pairwise_disjoint (l ++ [m]).
Proof.
  intros Hl Hm i j m1 m2 Hi Hj Hij.
  assert (∀ k m', l !! k = Some m' → m' ## m) as Hd.
  { intros k m' Hk. apply list_elem_of_lookup_2 in Hk.
    pose proof (elem_of_union_list l) as HU. set_solver. }
  apply lookup_app_Some in Hi as [Hi|[Hi1 Hi2]];
  apply lookup_app_Some in Hj as [Hj|[Hj1 Hj2]].
  - eauto.
  - apply list_lookup_singleton_Some in Hj2 as [_ <-]. eauto.
  - apply list_lookup_singleton_Some in Hi2 as [_ <-]. symmetry. eauto.
  - apply list_lookup_singleton_Some in Hi2 as [? _].
    apply list_lookup_singleton_Some in Hj2 as [? _]. lia.
Qed.

Section FloodFill.

Variable graph : defaultdict.
Hypothesis graph_ok : dd_ok graph.

Lemma _get_connected_group_loop_spec fuel :
  ∀ nodes result already_seen : gset nat,
    nodes ⊆ dd_dom graph → nodes ## already_seen →
    size (dd_dom graph ∖ already_seen) ≤ fuel →
    ∃ added : gset nat,
      _get_connected_group_loop fuel graph nodes result already_seen
        = Some (result ∪ added, already_seen ∪ added)
      ∧ nodes ⊆ added ∧ added ## already_seen ∧ added ⊆ dd_dom graph.
Proof.
  induction fuel as [|fuel IH]; intros nodes result seen Hsub Hdisj Hfuel.
  - destruct (set_pop nodes) as [[node nodes']|] eqn:Hpop.
    + apply set_pop_Some in Hpop as [Hnode _].
      assert (size (dd_dom graph ∖ seen) ≠ 0) by (apply size_non_empty_iff; set_solver).
      lia.
    + exists ∅. simpl. rewrite Hpop. apply set_pop_None in Hpop as ->.
      split_and!; [f_equal; f_equal; set_solver | set_solver..].
  - simpl. destruct (set_pop nodes) as [[node nodes']|] eqn:Hpop.
    + apply set_pop_Some in Hpop as [Hnode ->].
      pose proof (dd_ok_get _ graph_ok node) as Hget.
      destruct (IH (nodes ∖ {[node]} ∪ dd_get graph node ∖ ({[node]} ∪ seen))
                   ({[node]} ∪ result) ({[node]} ∪ seen))
        as (added & Heq & Hn & Hd & Hu).
      * set_solver.
      * set_solver.
      * assert (size (dd_dom graph ∖ seen)
                = size ({[node]} : gset nat) + size (dd_dom graph ∖ ({[node]} ∪ seen))) as Hsz.
        { rewrite <- size_union by set_solver. f_equal.
          apply set_eq. intros x. destruct (decide (x = node)); set_solver. }
        rewrite size_singleton in Hsz. lia.
      * exists ({[node]} ∪ added). rewrite Heq.
        split_and!; [f_equal; f_equal; set_solver | | set_solver..].
        intros x Hx. destruct (decide (x = node)); set_solver.
    + exists ∅. apply set_pop_None in Hpop as ->.
      split_and!; [f_equal; f_equal; set_solver | set_solver..].
Qed.

Lemma get_molecules_loop_spec fuel :
  size (dd_dom graph) ≤ fuel →
  ∀ (nodes : list nat) (already_seen : gset nat) (result : list (gset nat)),
    list_to_set nodes ⊆ dd_dom graph →
    already_seen = ⋃ result → already_seen ⊆ dd_dom graph →
    pairwise_disjoint result →
    ∃ molecules,
      get_molecules_loop fuel graph nodes already_seen result = Some molecules
      ∧ pairwise_disjoint molecules
      ∧ already_seen ∪ list_to_set nodes ⊆ ⋃ molecules
      ∧ ⋃ molecules ⊆ dd_dom graph.
Proof.
  intros Hfuel nodes. induction nodes as [|node nodes IH];
    intros seen result Hnodes Hseen Hsub Hpd; simpl.
  - exists result. subst seen. split_and!; [done|done|set_solver|done].
  - case_decide as Hin.
    + destruct (IH seen result) as (ms & Heq & H1 & H2 & H3); [set_solver|done..|].
      exists ms. split_and!; [done|done|set_solver|done].
    + unfold _get_connected_group.
      destruct (_get_connected_group_loop_spec fuel {[node]} ∅ seen)
        as (added & Heq & Hn & Hd & Hu).
      * set_solver.
      * set_solver.
      * etrans; [|exact Hfuel]. apply subseteq_size. set_solver.
      * rewrite Heq.
        destruct (IH (seen ∪ added) (result ++ [∅ ∪ added]))
          as (ms & Heq' & H1 & H2 & H3).
        -- set_solver.
        -- rewrite union_list_app_L. simpl. set_solver.
        -- set_solver.
        -- apply pairwise_disjoint_snoc; [done|]. set_solver.
        -- exists ms. split_and!; [done|done|set_solver|done].
Qed.

End FloodFill.

Fact get_molecules_spec snapshot :
  ∃ molecules,
    get_molecules snapshot = Some molecules
    ∧ pairwise_disjoint molecules
    ∧ ∀ i, i ∈ ⋃ molecules ↔
           ∃ bond, bond ∈ bonds_group snapshot ∧ (i = bond.1 ∨ i = bond.2).
Proof.
  unfold get_molecules. rewrite _snap_bond_graph_of_bonds.
  pose proof (of_bonds_ok (bonds_group snapshot)) as Hok.
  destruct (get_molecules_loop_spec _ Hok (length (dd_keys (of_bonds (bonds_group snapshot))))
              ltac:(unfold dd_dom; rewrite size_list_to_set by apply Hok; done)
              (dd_keys (of_bonds (bonds_group snapshot))) ∅ [])
    as (ms & Heq & H1 & H2 & H3).
  - done.
  - done.
  - set_solver.
  - intros i j m1 m2 Hi. by rewrite lookup_nil in Hi.
  - exists ms. split_and!; [done..|].
    intros i. rewrite <- of_bonds_dom. fold (dd_dom (of_bonds (bonds_group snapshot))) in H2.
    set_solver.
Qed.
(** ** The outliers of [unwrap] *)

(** Case analysis on what the calls of [_is_outlier] and [_d_to_center] in
    a hypothesis return. *)
Ltac destruct_calls H raises_0 raises_1 :=
  unfold CG_Compound.classify, mbind, outcome_bind, mret, outcome_ret, raise in H;
  repeat match type of H with
         | context [CG_Compound._is_outlier ?c ?m ?i] =>
             let E := fresh "Hout" in
             destruct (CG_Compound._is_outlier c m i) as [?|[]] eqn:E;
             [apply raises_0 in E| |]
         | context [CG_Compound._d_to_center ?c ?m ?i] =>
             let E := fresh "Hdist" in
             destruct (CG_Compound._d_to_center c m i) as [?|?] eqn:E;
             [apply raises_1 in E|]
         | context [if ?b then _ else _] => destruct b eqn:?
         end;
  simplify_eq.

Section UnwrapOutliers.

Context {libraries : Libraries}.

Lemma elem_of_set_list (s : gset nat) x : x ∈ set_list s ↔ x ∈ s.
Proof. by rewrite set_list_perm, elem_of_elements. Qed.

Lemma NoDup_set_list (s : gset nat) : NoDup (set_list s).
Proof. rewrite set_list_perm. apply NoDup_elements. Qed.

Lemma bond_dict_of_bonds self :
  CG_Compound.bond_dict self = of_bonds (CG_Compound.bonds self).
Proof. done. Qed.

Lemma ends_cons bond bonds : ends (bond :: bonds) = {[bond.1; bond.2]} ∪ ends bonds.
Proof. unfold ends. rewrite !fmap_cons. set_solver. Qed.

Lemma elem_of_ends bonds k :
  k ∈ ends bonds ↔ ∃ bond, bond ∈ bonds ∧ (k = bond.1 ∨ k = bond.2).
Proof.
  unfold ends. rewrite elem_of_union, !elem_of_list_to_set, !list_elem_of_fmap.
  naive_solver.
Qed.

Lemma dd_dom_of_bonds bonds : dd_dom (of_bonds bonds) = ends bonds.
Proof. apply set_eq. intros k. by rewrite of_bonds_dom, elem_of_ends. Qed.

Lemma ends_check_bad_bonds compound d_tolerance :
  ends (CG_Compound.check_bad_bonds compound d_tolerance) ⊆ ends (CG_Compound.bonds compound).
Proof.
  intros k. rewrite !elem_of_ends. intros (bond & Hb & Hk).
  exists bond. split; [|done]. unfold CG_Compound.check_bad_bonds in Hb.
  by apply list_elem_of_filter in Hb as [_ ?].
Qed.

Lemma size_remove (X : gset nat) x : x ∈ X → size X = S (size (X ∖ {[x]})).
Proof.
  intros Hx. rewrite size_difference by set_solver. rewrite size_singleton.
  assert (size X ≠ 0) by (apply size_non_empty_iff; set_solver). lia.
Qed.

Lemma propagate_spec bond_dict (Hok : dd_ok bond_dict) fuel :
  ∀ starts outliers checked : gset nat,
    starts ⊆ dd_dom bond_dict →
    size (starts ∩ checked) + 2 * size (dd_dom bond_dict ∖ checked) ≤ fuel →
    ∃ all_outliers : gset nat,
      CG_Compound.propagate fuel bond_dict starts outliers checked = inr all_outliers
      ∧ outliers ⊆ all_outliers ∧ all_outliers ⊆ outliers ∪ dd_dom bond_dict.
Proof.
  induction fuel as [|fuel IH]; intros starts outliers checked Hsub Hfuel; simpl;
    destruct (set_pop starts) as [[index starts']|] eqn:Hpop;
    try (exists outliers; split_and!; [done|set_solver..]);
    apply set_pop_Some in Hpop as [Hindex ->].
  - destruct (decide (index ∈ checked)) as [Hc|Hc].
    + assert (size (starts ∩ checked) ≠ 0) by (apply size_non_empty_iff; set_solver). lia.
    + assert (size (dd_dom bond_dict ∖ checked) ≠ 0) by (apply size_non_empty_iff; set_solver).
      lia.
  - pose proof (dd_ok_get _ Hok index) as Hget.
    destruct (IH (starts ∖ {[index]} ∪ dd_get bond_dict index ∖ checked)
                 (outliers ∪ dd_get bond_dict index ∖ checked) ({[index]} ∪ checked))
      as (o & Heq & H1 & H2).
    + set_solver.
    + destruct (decide (index ∈ checked)) as [Hc|Hc].
      * rewrite (size_remove (starts ∩ checked) index) in Hfuel by set_solver.
        assert (size ((starts ∖ {[index]} ∪ dd_get bond_dict index ∖ checked) ∩ ({[index]} ∪ checked))
                ≤ size ((starts ∩ checked) ∖ {[index]})) by (apply subseteq_size; set_solver).
        assert (size (dd_dom bond_dict ∖ ({[index]} ∪ checked))
                ≤ size (dd_dom bond_dict ∖ checked)) by (apply subseteq_size; set_solver).
        lia.
      * rewrite (size_remove (dd_dom bond_dict ∖ checked) index) in Hfuel by set_solver.
        assert (size ((starts ∖ {[index]} ∪ dd_get bond_dict index ∖ checked) ∩ ({[index]} ∪ checked))
                ≤ size ({[index]} ∪ starts ∩ checked)) by (apply subseteq_size; set_solver).
        assert (size ({[index]} ∪ starts ∩ checked) ≤ 1 + size (starts ∩ checked)).
        { rewrite size_union_alt, size_singleton.
          assert (size ((starts ∩ checked) ∖ {[index]}) ≤ size (starts ∩ checked))
            by (apply subseteq_size; set_solver). lia. }
        assert (size (dd_dom bond_dict ∖ ({[index]} ∪ checked))
                ≤ size ((dd_dom bond_dict ∖ checked) ∖ {[index]})) by (apply subseteq_size; set_solver).
        lia.
    + exists o. split_and!; [done|set_solver..].
Qed.

(** ** The passes of [unwrap] *)

Lemma compound_get_molecules_spec self :
  match CG_Compound.bond_graph self with
  | None => CG_Compound.get_molecules self = inl AttributeError
  | Some _ =>
      ∃ molecules,
        CG_Compound.get_molecules self = inr molecules
        ∧ pairwise_disjoint molecules
        ∧ ⋃ molecules = ends (CG_Compound.bonds self)
  end.
Proof.
  unfold CG_Compound.get_molecules, CG_Compound.bonds.
  destruct (CG_Compound.bond_graph self) as [edges|]; [|done].
  destruct (get_molecules_spec {| particles_N := length (CG_Compound.particles self);
                                  bonds_group := edges |})
    as (ms & H1 & H2 & H3).
  exists ms. rewrite H1. split_and!; [done..|].
  apply set_eq. intros i. rewrite H3, elem_of_ends. done.
Qed.

Lemma compound_get_molecules_inr self molecules :
  CG_Compound.get_molecules self = inr molecules →
  CG_Compound.bond_graph self ≠ None
  ∧ pairwise_disjoint molecules
  ∧ ⋃ molecules = ends (CG_Compound.bonds self).
Proof.
  intros Hmol. pose proof (compound_get_molecules_spec self) as Hspec.
  destruct (CG_Compound.bond_graph self) as [edges|]; [|congruence].
  destruct Hspec as (ms & Hms & Hpd & Hunion).
  rewrite Hmol in Hms. injection Hms as <-. done.
Qed.

Lemma compound_get_molecules_inl self e :
  CG_Compound.get_molecules self = inl e →
  CG_Compound.bond_graph self = None ∧ e = AttributeError.
Proof.
  intros Hmol. pose proof (compound_get_molecules_spec self) as Hspec.
  destruct (CG_Compound.bond_graph self) as [edges|]; [|split; congruence].
  destruct Hspec as (ms & Hms & _). congruence.
Qed.

Lemma _is_outlier_raises compound molecules index e :
  CG_Compound._is_outlier compound molecules index = inl e → e = UnboundLocalError.
Proof.
  unfold CG_Compound._is_outlier.
  destruct (CG_Compound.avg_dists compound molecules index) as [[??]|]; [done|].
  by intros [= <-].
Qed.

Lemma _d_to_center_raises compound molecules index e :
  CG_Compound._d_to_center compound molecules index = inl e → e = UnboundLocalError.
Proof.
  unfold CG_Compound._d_to_center.
  destruct (foldl _ _ _); [done|]. by intros [= <-].
Qed.

Lemma classify_raises compound molecules outliers tup e :
  CG_Compound.classify compound molecules outliers tup = inl e →
  e = RuntimeError tup ∨ e = UnboundLocalError.
Proof. intros H. destruct_calls H _is_outlier_raises _d_to_center_raises; auto. Qed.

Lemma classify_subseteq compound molecules outliers tup outliers' :
  CG_Compound.classify compound molecules outliers tup = inr outliers' →
  outliers ⊆ outliers' ∧ outliers' ⊆ {[tup.1; tup.2]} ∪ outliers.
Proof. intros H. destruct_calls H _is_outlier_raises _d_to_center_raises; set_solver. Qed.

Lemma classify_loop_spec compound molecules maybe_outliers :
  ∀ outliers checked outliers' checked',
    CG_Compound.classify_loop compound molecules maybe_outliers outliers checked
      = inr (outliers', checked') →
    outliers ⊆ outliers' ∧ outliers' ⊆ outliers ∪ ends maybe_outliers
    ∧ checked' = checked ∪ ends maybe_outliers.
Proof.
  induction maybe_outliers as [|tup l IH]; intros o c o' c'; simpl.
  - intros [= <- <-]. unfold ends; simpl. set_solver.
  - unfold mbind, outcome_bind.
    destruct (CG_Compound.classify compound molecules o tup) as [|o1] eqn:Hcl; [done|].
    intros H. apply IH in H as (H1 & H2 & ->).
    apply classify_subseteq in Hcl as [H3 H4]. rewrite ends_cons.
    clear IH. generalize dependent (ends l). intros E H2.
    destruct tup as [a b]; simpl in *.
    split_and!; [set_solver..|]. clear. set_solver.
Qed.

Lemma classify_loop_raises compound molecules maybe_outliers :
  ∀ outliers checked e,
    CG_Compound.classify_loop compound molecules maybe_outliers outliers checked = inl e →
    (∃ tup, tup ∈ maybe_outliers ∧ e = RuntimeError tup) ∨ e = UnboundLocalError.
Proof.
  induction maybe_outliers as [|tup l IH]; intros o c e; simpl; [done|].
  unfold mbind, outcome_bind.
  destruct (CG_Compound.classify compound molecules o tup) as [e'|o1] eqn:Hcl.
  - intros [= <-]. apply classify_raises in Hcl as [->| ->]; [left|by right].
    exists tup. split; [left|done].
  - intros H. apply IH in H as [(tup' & ? & ?)|?]; [left|by right].
    exists tup'. split; [by right|done].
Qed.

Lemma size_dd_dom d : dd_ok d → size (dd_dom d) = length (dd_keys d).
Proof. intros [H _ _]. unfold dd_dom. by rewrite size_list_to_set. Qed.

(** [find_outliers] raises what the classification of a bond raises, and
    nothing else: its flood fill has fuel enough. *)
Lemma find_outliers_spec compound molecules maybe_outliers :
  ends maybe_outliers ⊆ ends (CG_Compound.bonds compound) →
  match CG_Compound.find_outliers compound molecules maybe_outliers
          (CG_Compound.bond_dict compound) with
  | inl e =>
      CG_Compound.classify_loop compound molecules maybe_outliers ∅ ∅ = inl e
  | inr outliers =>
      (∃ classified checked,
         CG_Compound.classify_loop compound molecules maybe_outliers ∅ ∅
           = inr (classified, checked)
         ∧ classified ⊆ outliers)
      ∧ outliers ⊆ ends (CG_Compound.bonds compound)
  end.
Proof.
  intros Hends. unfold CG_Compound.find_outliers, mbind, outcome_bind.
  destruct (CG_Compound.classify_loop compound molecules maybe_outliers ∅ ∅)
    as [e|[classified checked]] eqn:Hcl; [done|].
  apply classify_loop_spec in Hcl as (_ & H2 & ->).
  rewrite bond_dict_of_bonds.
  pose proof (of_bonds_ok (CG_Compound.bonds compound)) as Hok.
  destruct (propagate_spec _ Hok (3 * length (dd_keys (of_bonds (CG_Compound.bonds compound))))
              classified classified (∅ ∪ ends maybe_outliers))
    as (o & -> & H3 & H4).
  - rewrite dd_dom_of_bonds. set_solver.
  - rewrite <- size_dd_dom by done.
    assert (size (classified ∩ (∅ ∪ ends maybe_outliers)) ≤ size (dd_dom (of_bonds (CG_Compound.bonds compound)))).
    { apply subseteq_size. rewrite dd_dom_of_bonds. set_solver. }
    assert (size (dd_dom (of_bonds (CG_Compound.bonds compound)) ∖ (∅ ∪ ends maybe_outliers))
            ≤ size (dd_dom (of_bonds (CG_Compound.bonds compound)))).
    { apply subseteq_size. set_solver. }
    lia.
  - rewrite dd_dom_of_bonds in H4. split; [eauto|set_solver].
Qed.

Lemma foldl_move_outlier_box box mol_avg l :
  ∀ self, CG_Compound.box (foldl (CG_Compound.move_outlier box mol_avg) self l)
          = CG_Compound.box self.
Proof. induction l as [|o l IH]; intros self; simpl; [done|]. by rewrite IH. Qed.

Lemma relocate_raises molecules outlier_dict mol_inds :
  ∀ self e,
    CG_Compound.relocate molecules outlier_dict mol_inds self = inl e →
    e = TypeError ∧ CG_Compound.box self = None.
Proof.
  induction mol_inds as [|k l IH]; intros self e; simpl; [done|].
  unfold mbind, outcome_bind, CG_Compound.relocate_molecule.
  destruct (CG_Compound.box self) as [b|] eqn:Hbox; simpl.
  - intros H. apply IH in H as [-> H]. by rewrite foldl_move_outlier_box, Hbox in H.
  - by intros [= <-].
Qed.

Lemma unwrap_once_fuel self d_tolerance : unwrap_once self d_tolerance ≠ inl OutOfFuel.
Proof.
  unfold unwrap_once, mbind, outcome_bind.
  destruct (CG_Compound.get_molecules self) as [e|ms] eqn:Hmol.
  { apply compound_get_molecules_inl in Hmol as [_ ->]. done. }
  unfold CG_Compound.unwrap_pass, mbind, outcome_bind.
  pose proof (find_outliers_spec self ms (CG_Compound.check_bad_bonds self d_tolerance)
                (ends_check_bad_bonds _ _)) as H.
  destruct (CG_Compound.find_outliers _ _ _ _) as [e|o].
  - apply classify_loop_raises in H as [(? & _ & ->)| ->]; done.
  - intros Hr. by apply relocate_raises in Hr as [? _].
Qed.

End UnwrapOutliers.
(** ** Comparison of binary64 numbers *)

Lemma ltb_irrefl x : (x <? x)%float = false.
Proof.
  rewrite FloatAxioms.ltb_spec. unfold SFltb, SFcompare.
  destruct (Prim2SF x) as [s|s| |s m e]; [by destruct s..|done|].
  destruct s; by rewrite Z.compare_refl, Pos.compare_cont_refl.
Qed.

Lemma ltb_asym x y : (x <? y)%float = true → (y <? x)%float = false.
Proof.
  rewrite !FloatAxioms.ltb_spec. unfold SFltb, SFcompare.
  destruct (Prim2SF x) as [s1|s1| |s1 m1 e1], (Prim2SF y) as [s2|s2| |s2 m2 e2];
    try destruct s1; try destruct s2; try done.
  all: rewrite (Z.compare_antisym e1 e2);
    destruct (e1 ?= e2)%Z; simpl; try done;
    change (PosDef.Pos.compare_cont Eq m2 m1) with (Pos.compare m2 m1);
    change (PosDef.Pos.compare_cont Eq m1 m2) with (Pos.compare m1 m2);
    rewrite (Pos.compare_antisym m1 m2);
    by destruct (m1 ?= m2)%positive.
Qed.

(** ** The classification of the bad bonds *)

Section UnwrapClassify.

Context {libraries : Libraries}.

Lemma foldl_found {A} (f : gset nat → A) (index : nat) (molecules : list (gset nat)) :
  ∀ init,
    is_Some init ∨ index ∈ ⋃ molecules →
    is_Some (foldl (fun acc molecule =>
                      if decide (index ∈ molecule) then Some (f molecule) else acc)
                   init molecules).
Proof.
  induction molecules as [|m ms IH]; intros init H; simpl.
  - destruct H as [?|H]; [done|]. set_solver.
  - apply IH. case_decide; [by left|]. destruct H as [?|H]; [by left|]. set_solver.
Qed.

Lemma _is_outlier_returns compound molecules index :
  index ∈ ⋃ molecules →
  ∃ b, CG_Compound._is_outlier compound molecules index = inr b.
Proof.
  intros H. unfold CG_Compound._is_outlier, CG_Compound.avg_dists.
  edestruct (foldl_found (A := float * float)) as [[a b] ->]; [by right|].
  by eexists.
Qed.

Lemma _d_to_center_returns compound molecules index :
  index ∈ ⋃ molecules →
  ∃ d, CG_Compound._d_to_center compound molecules index = inr d.
Proof.
  intros H. unfold CG_Compound._d_to_center.
  edestruct (foldl_found (A := float)) as [d ->]; [by right|].
  by eexists.
Qed.

(** The classification of a bond raises exactly when the bond is
    ambiguous. *)
Lemma classify_cases compound molecules outliers tup :
  tup.1 ∈ ⋃ molecules → tup.2 ∈ ⋃ molecules →
  (ambiguous compound molecules tup
   ∧ CG_Compound.classify compound molecules outliers tup = inl (RuntimeError tup))
  ∨ (¬ ambiguous compound molecules tup
     ∧ ∃ outliers', CG_Compound.classify compound molecules outliers tup = inr outliers').
Proof.
  intros H1 H2. unfold ambiguous.
  destruct (_is_outlier_returns compound molecules _ H1) as [b0 Hb0].
  destruct (_is_outlier_returns compound molecules _ H2) as [b1 Hb1].
  destruct (_d_to_center_returns compound molecules _ H1) as [d0 Hd0].
  destruct (_d_to_center_returns compound molecules _ H2) as [d1 Hd1].
  unfold CG_Compound.classify, mbind, outcome_bind, mret, outcome_ret, raise.
  rewrite Hb0, Hb1, Hd0, Hd1.
  destruct b0, b1; simpl;
    try (right; split; [intros (? & ? & _); congruence|eauto]).
  destruct (d1 <? d0)%float eqn:E1;
    [right; split; [intros (_ & _ & ? & ? & ? & ? & ? & ?); congruence|eauto]|].
  destruct (d0 <? d1)%float eqn:E2;
    [right; split; [intros (_ & _ & ? & ? & ? & ? & ? & ?); congruence|eauto]|].
  left. split; [|done]. split_and!; [done..|]. by exists d0, d1.
Qed.

(** Of two ends that both test as outliers, the one farther from the
    centre is added. *)
Lemma classify_selects compound molecules outliers tup outliers' d_0 d_1 :
  CG_Compound.classify compound molecules outliers tup = inr outliers' →
  CG_Compound._is_outlier compound molecules tup.1 = inr true →
  CG_Compound._is_outlier compound molecules tup.2 = inr true →
  CG_Compound._d_to_center compound molecules tup.1 = inr d_0 →
  CG_Compound._d_to_center compound molecules tup.2 = inr d_1 →
  ((d_1 <? d_0)%float = true → tup.1 ∈ outliers')
  ∧ ((d_0 <? d_1)%float = true → tup.2 ∈ outliers').
Proof.
  unfold CG_Compound.classify, mbind, outcome_bind, mret, outcome_ret, raise.
  intros H Hb0 Hb1 Hd0 Hd1. rewrite Hb0, Hb1, Hd0, Hd1 in H. simpl in H.
  destruct (d_1 <? d_0)%float eqn:E1.
  - injection H as <-. split; [set_solver|].
    intros E2. apply ltb_asym in E2. congruence.
  - destruct (d_0 <? d_1)%float eqn:E2; [|done].
    injection H as <-. split; [done|set_solver].
Qed.

Lemma classify_loop_selects compound molecules maybe_outliers :
  ∀ outliers checked outliers' checked' tup d_0 d_1,
    CG_Compound.classify_loop compound molecules maybe_outliers outliers checked
      = inr (outliers', checked') →
    tup ∈ maybe_outliers →
    CG_Compound._is_outlier compound molecules tup.1 = inr true →
    CG_Compound._is_outlier compound molecules tup.2 = inr true →
    CG_Compound._d_to_center compound molecules tup.1 = inr d_0 →
    CG_Compound._d_to_center compound molecules tup.2 = inr d_1 →
    ((d_1 <? d_0)%float = true → tup.1 ∈ outliers')
    ∧ ((d_0 <? d_1)%float = true → tup.2 ∈ outliers').
Proof.
  induction maybe_outliers as [|t l IH];
    intros o c o' c' tup d_0 d_1 Hloop Hin Hb0 Hb1 Hd0 Hd1; [by apply elem_of_nil in Hin|].
  simpl in Hloop. unfold mbind, outcome_bind in Hloop.
  destruct (CG_Compound.classify compound molecules o t) as [|o1] eqn:Hcl; [done|].
  apply elem_of_cons in Hin as [->|Hin].
  - pose proof (classify_selects _ _ _ _ _ _ _ Hcl Hb0 Hb1 Hd0 Hd1) as [S1 S2].
    apply classify_loop_spec in Hloop as (Hsub & _ & _). set_solver.
  - by eapply IH.
Qed.

(** The loop raises for the first ambiguous bond. *)
Lemma classify_loop_ambiguous compound molecules maybe_outliers :
  ∀ outliers checked,
    ends maybe_outliers ⊆ ⋃ molecules →
    (∃ tup, tup ∈ maybe_outliers ∧ ambiguous compound molecules tup) →
    ∃ before tup after,
      maybe_outliers = before ++ tup :: after
      ∧ (∀ t, t ∈ before → ¬ ambiguous compound molecules t)
      ∧ ambiguous compound molecules tup
      ∧ CG_Compound.classify_loop compound molecules maybe_outliers outliers checked
        = inl (RuntimeError tup).
Proof.
  induction maybe_outliers as [|t l IH]; intros o c Hends (tup & Hin & Hamb).
  { by apply elem_of_nil in Hin. }
  rewrite ends_cons in Hends.
  destruct (classify_cases compound molecules o t) as [[Ht Hcl]|[Ht [o1 Hcl]]];
    [set_solver..| |].
  - exists [], t, l. split_and!; [done| |done|].
    + intros ? ?%elem_of_nil. done.
    + simpl. unfold mbind, outcome_bind. by rewrite Hcl.
  - apply elem_of_cons in Hin as [->|Hin]; [done|].
    destruct (IH o1 ({[t.2]} ∪ ({[t.1]} ∪ c))) as (before & tup' & after & -> & Hb & Ha & Hl).
    { set_solver. }
    { eauto. }
    exists (t :: before), tup', after. split_and!; [done| |done|].
    + intros t' [->|?]%elem_of_cons; eauto.
    + simpl. unfold mbind, outcome_bind. by rewrite Hcl.
Qed.

Lemma eqb_not_ltb x y : (x =? y)%float = true → (x <? y)%float = false ∧ (y <? x)%float = false.
Proof.
  rewrite FloatAxioms.eqb_spec, !FloatAxioms.ltb_spec. unfold SFeqb, SFltb, SFcompare.
  destruct (Prim2SF x) as [s1|s1| |s1 m1 e1], (Prim2SF y) as [s2|s2| |s2 m2 e2];
    try destruct s1; try destruct s2; try done.
  all: rewrite (Z.compare_antisym e1 e2);
    destruct (e1 ?= e2)%Z; simpl; try done;
    change (PosDef.Pos.compare_cont Eq m2 m1) with (Pos.compare m2 m1);
    change (PosDef.Pos.compare_cont Eq m1 m2) with (Pos.compare m1 m2);
    rewrite (Pos.compare_antisym m1 m2);
    by destruct (m1 ?= m2)%positive.
Qed.

(** Equal distances are ambiguous. *)
Lemma ambiguous_eqb compound molecules tup d_0 d_1 :
  CG_Compound._is_outlier compound molecules tup.1 = inr true →
  CG_Compound._is_outlier compound molecules tup.2 = inr true →
  CG_Compound._d_to_center compound molecules tup.1 = inr d_0 →
  CG_Compound._d_to_center compound molecules tup.2 = inr d_1 →
  (d_0 =? d_1)%float = true →
  ambiguous compound molecules tup.
Proof.
  intros H0 H1 Hd0 Hd1 [? ?]%eqb_not_ltb. split_and!; [done..|]. by exists d_0, d_1.
Qed.

Lemma classify_both compound molecules outliers tup d_0 d_1 :
  CG_Compound._is_outlier compound molecules tup.1 = inr true →
  CG_Compound._is_outlier compound molecules tup.2 = inr true →
  CG_Compound._d_to_center compound molecules tup.1 = inr d_0 →
  CG_Compound._d_to_center compound molecules tup.2 = inr d_1 →
  CG_Compound.classify compound molecules outliers tup =
  if (d_1 <? d_0)%float then inr ({[tup.1]} ∪ outliers)
  else if (d_0 <? d_1)%float then inr ({[tup.2]} ∪ outliers)
  else inl (RuntimeError tup).
Proof.
  intros H0 H1 Hd0 Hd1.
  unfold CG_Compound.classify, mbind, outcome_bind, mret, outcome_ret, raise.
  rewrite H0, H1, Hd0, Hd1. simpl. by repeat case_match.
Qed.

End UnwrapClassify.

(** ** The outliers by molecule *)

Lemma elem_of_mol_ind molecules outlier i :
  i ∈ CG_Compound.mol_ind molecules outlier ↔
  ∃ m, molecules !! i = Some m ∧ outlier ∈ m.
Proof.
  unfold CG_Compound.mol_ind. rewrite list_elem_of_fmap. split.
  - intros ([j m] & -> & H). apply list_elem_of_filter in H as [H1 H2].
    apply elem_of_lookup_imap in H2 as (j' & m' & [= -> ->] & H2). eauto.
  - intros (m & H1 & H2). exists (i, m). split; [done|].
    apply list_elem_of_filter. split; [done|].
    apply elem_of_lookup_imap. eauto.
Qed.

Lemma head_mol_ind molecules outlier k :
  head (CG_Compound.mol_ind molecules outlier) = Some k →
  ∃ m, molecules !! k = Some m ∧ outlier ∈ m.
Proof.
  intros H. apply elem_of_mol_ind.
  destruct (CG_Compound.mol_ind molecules outlier); simplify_eq/=. left.
Qed.

Lemma head_mol_ind_disjoint molecules outlier k m :
  pairwise_disjoint molecules →
  molecules !! k = Some m → outlier ∈ m →
  head (CG_Compound.mol_ind molecules outlier) = Some k.
Proof.
  intros Hpd Hk Hin.
  assert (k ∈ CG_Compound.mol_ind molecules outlier) as Hk'
    by (apply elem_of_mol_ind; eauto).
  destruct (CG_Compound.mol_ind molecules outlier) as [|j l] eqn:E.
  { by apply elem_of_nil in Hk'. }
  simpl. f_equal.
  assert (j ∈ CG_Compound.mol_ind molecules outlier) as Hj by (rewrite E; left).
  apply elem_of_mol_ind in Hj as (m' & Hj & Hin').
  destruct (decide (j = k)) as [|Hne]; [done|].
  specialize (Hpd j k m' m Hj Hk Hne). set_solver.
Qed.

Section Organize.

Variable molecules : list (gset nat).

Lemma organize_fold_get l k v :
  v ∈ dd_get (foldl (CG_Compound.organize_step molecules) dd_empty l) k ↔
  v ∈ l ∧ head (CG_Compound.mol_ind molecules v) = Some k.
Proof.
  induction l as [|o l IH] using rev_ind.
  - unfold dd_get; simpl. rewrite lookup_empty; simpl.
    split; [set_solver|]. intros [?%elem_of_nil _]. done.
  - rewrite foldl_app; simpl. unfold CG_Compound.organize_step at 1.
    rewrite elem_of_app, list_elem_of_singleton.
    destruct (CG_Compound.mol_ind molecules o) as [|i r] eqn:E.
    + rewrite IH. split; [naive_solver|].
      intros [[?| ->] Hv]; [done|]. rewrite E in Hv. done.
    + rewrite dd_get_add. case_decide as Hik.
      * subst i. rewrite elem_of_union, elem_of_singleton, IH.
        split; [|naive_solver].
        intros [->|[? ?]]; [|naive_solver]. split; [by right|]. by rewrite E.
      * rewrite IH. split; [naive_solver|].
        intros [[?| ->] Hv]; [done|]. rewrite E in Hv. simplify_eq/=.
Qed.

Lemma organize_fold_keys l k :
  k ∈ dd_keys (foldl (CG_Compound.organize_step molecules) dd_empty l) ↔
  ∃ v, v ∈ l ∧ head (CG_Compound.mol_ind molecules v) = Some k.
Proof.
  induction l as [|o l IH] using rev_ind.
  - simpl. split; [by intros ?%elem_of_nil|]. intros (? & ?%elem_of_nil & _). done.
  - rewrite foldl_app; simpl. unfold CG_Compound.organize_step at 1.
    setoid_rewrite elem_of_app. setoid_rewrite list_elem_of_singleton.
    destruct (CG_Compound.mol_ind molecules o) as [|i r] eqn:E.
    + rewrite IH. split; [naive_solver|].
      intros (v & [?| ->] & Hv); [eauto|]. rewrite E in Hv. done.
    + unfold dd_add; simpl. case_decide as Hi.
      * rewrite IH. split; [naive_solver|].
        intros (v & [?| ->] & Hv); [eauto|]. rewrite E in Hv. simplify_eq/=.
        by apply IH.
      * rewrite elem_of_app, list_elem_of_singleton, IH. split.
        -- intros [(v & ? & ?)| ->]; [eauto|]. exists o. split; [by right|]. by rewrite E.
        -- intros (v & [?| ->] & Hv); [eauto|]. rewrite E in Hv. simplify_eq/=. by right.
Qed.

Lemma organize_fold_NoDup l : NoDup (dd_keys (foldl (CG_Compound.organize_step molecules) dd_empty l)).
Proof.
  induction l as [|o l IH] using rev_ind; [apply NoDup_nil_2|].
  rewrite foldl_app; simpl. unfold CG_Compound.organize_step at 1.
  destruct (CG_Compound.mol_ind molecules o); [done|]. by apply dd_add_NoDup.
Qed.

End Organize.

Section UnwrapRelocate.

Context {libraries : Libraries}.

Lemma organize_get molecules outliers k m :
  pairwise_disjoint molecules → molecules !! k = Some m →
  dd_get (CG_Compound.organize molecules outliers) k = outliers ∩ m.
Proof.
  intros Hpd Hk. apply set_eq. intros v.
  unfold CG_Compound.organize. rewrite organize_fold_get, elem_of_set_list, elem_of_intersection.
  split.
  - intros [? (m' & ? & ?)%head_mol_ind]. by simplify_eq.
  - intros [? ?]. split; [done|]. by eapply head_mol_ind_disjoint.
Qed.

Lemma organize_keys molecules outliers k :
  k ∈ dd_keys (CG_Compound.organize molecules outliers) ↔
  ∃ v, v ∈ outliers ∧ head (CG_Compound.mol_ind molecules v) = Some k.
Proof.
  unfold CG_Compound.organize. rewrite organize_fold_keys.
  by setoid_rewrite elem_of_set_list.
Qed.

Lemma organize_NoDup molecules outliers :
  NoDup (dd_keys (CG_Compound.organize molecules outliers)).
Proof. apply organize_fold_NoDup. Qed.

(** ** The relocation of the outliers *)

Lemma xyz_row_translate_to self i new_xyz j :
  CG_Compound.xyz_row (CG_Compound.translate_to self i new_xyz) j =
  if decide (j = i ∧ i < length (CG_Compound.particles self))
  then new_xyz else CG_Compound.xyz_row self j.
Proof.
  unfold CG_Compound.xyz_row, CG_Compound.xyz, CG_Compound.translate_to; simpl.
  rewrite !list_lookup_fmap. case_decide as H.
  - destruct H as [-> H]. rewrite list_lookup_alter_eq.
    apply lookup_lt_is_Some in H as [x ->]. done.
  - destruct (decide (j = i)) as [->|Hne].
    + rewrite list_lookup_alter_eq.
      rewrite (lookup_ge_None_2 (CG_Compound.particles self) i) by lia. done.
    + by rewrite list_lookup_alter_ne.
Qed.

Lemma move_outlier_length box mol_avg self outlier :
  length (CG_Compound.particles (CG_Compound.move_outlier box mol_avg self outlier))
  = length (CG_Compound.particles self).
Proof. unfold CG_Compound.move_outlier, CG_Compound.translate_to; simpl. apply length_alter. Qed.

Lemma foldl_move_outlier_length box mol_avg l :
  ∀ self, length (CG_Compound.particles (foldl (CG_Compound.move_outlier box mol_avg) self l))
          = length (CG_Compound.particles self).
Proof.
  induction l as [|o l IH]; intros self; simpl; [done|].
  by rewrite IH, move_outlier_length.
Qed.

Lemma foldl_move_outlier_bond_graph box mol_avg l :
  ∀ self, CG_Compound.bond_graph (foldl (CG_Compound.move_outlier box mol_avg) self l)
          = CG_Compound.bond_graph self.
Proof. induction l as [|o l IH]; intros self; simpl; [done|]. by rewrite IH. Qed.

Lemma foldl_move_outlier_bonds box mol_avg l :
  ∀ self, CG_Compound.bonds (foldl (CG_Compound.move_outlier box mol_avg) self l)
          = CG_Compound.bonds self.
Proof.
  intros self. unfold CG_Compound.bonds. by rewrite foldl_move_outlier_bond_graph.
Qed.

Lemma foldl_move_outlier_row box mol_avg l :
  ∀ self p,
    NoDup l →
    (∀ o, o ∈ l → o < length (CG_Compound.particles self)) →
    CG_Compound.xyz_row (foldl (CG_Compound.move_outlier box mol_avg) self l) p =
    if decide (p ∈ l) then relocated box mol_avg self p else CG_Compound.xyz_row self p.
Proof.
  induction l as [|o l IH]; intros self p Hnd Hlt.
  { rewrite decide_False; [done|]. by intros ?%elem_of_nil. }
  apply NoDup_cons in Hnd as [Ho Hnd].
  change (foldl ?f self (o :: l)) with (foldl f (f self o) l).
  rewrite IH; [|done|].
  2:{ intros o' Ho'. rewrite move_outlier_length. apply Hlt. by right. }
  assert (o < length (CG_Compound.particles self)) as Hlo by (apply Hlt; left).
  destruct (decide (p ∈ l)) as [Hpl|Hpl].
  - assert (p ≠ o) as Hne by (intros ->; done).
    rewrite decide_True by (by right).
    unfold relocated, CG_Compound.move_outlier.
    rewrite !xyz_row_translate_to, decide_False; [done|]. by intros [? _].
  - unfold CG_Compound.move_outlier. rewrite xyz_row_translate_to.
    destruct (decide (p = o)) as [->|Hne].
    + rewrite decide_True by done. rewrite decide_True by left. done.
    + rewrite decide_False by (by intros [? _]).
      rewrite decide_False; [done|]. by intros [?|?]%elem_of_cons.
Qed.

Lemma anchor_ext molecules outlier_dict self self' k :
  (∀ q, q ∈ default ∅ (molecules !! k) ∖ dd_get outlier_dict k →
        CG_Compound.xyz_row self' q = CG_Compound.xyz_row self q) →
  anchor molecules outlier_dict self' k = anchor molecules outlier_dict self k.
Proof.
  intros H. unfold anchor, CG_Compound.xyz_rows. f_equal.
  apply list_fmap_ext. intros i q Hq. apply H.
  apply elem_of_set_list. by eapply list_elem_of_lookup_2.
Qed.

Lemma relocate_spec molecules outlier_dict box :
  ∀ mol_inds self self',
    NoDup mol_inds →
    CG_Compound.box self = Some box →
    (∀ k v, k ∈ mol_inds → v ∈ dd_get outlier_dict k →
            v < length (CG_Compound.particles self)) →
    (∀ k k', k ∈ mol_inds → k' ∈ mol_inds → k ≠ k' →
             dd_get outlier_dict k ## dd_get outlier_dict k') →
    (∀ k k', k ∈ mol_inds → k' ∈ mol_inds →
             (default ∅ (molecules !! k) ∖ dd_get outlier_dict k) ## dd_get outlier_dict k') →
    CG_Compound.relocate molecules outlier_dict mol_inds self = inr self' →
    (∀ k p, k ∈ mol_inds → p ∈ dd_get outlier_dict k →
            CG_Compound.xyz_row self' p
            = relocated box (anchor molecules outlier_dict self k) self p)
    ∧ (∀ p, (∀ k, k ∈ mol_inds → p ∉ dd_get outlier_dict k) →
            CG_Compound.xyz_row self' p = CG_Compound.xyz_row self p)
    ∧ CG_Compound.bonds self' = CG_Compound.bonds self
    ∧ CG_Compound.box self' = CG_Compound.box self
    ∧ length (CG_Compound.particles self') = length (CG_Compound.particles self).
Proof.
  induction mol_inds as [|k l IH]; intros self self' Hnd Hbox Hlt Hgroups Hanchor; simpl.
  { intros [= <-]. split_and!; [|done..]. intros k p ?%elem_of_nil. done. }
  apply NoDup_cons in Hnd as [Hk Hnd].
  unfold mbind, outcome_bind, CG_Compound.relocate_molecule. rewrite Hbox. simpl.
  fold (anchor molecules outlier_dict self k).
  set (self1 := foldl (CG_Compound.move_outlier box (anchor molecules outlier_dict self k))
                      self (set_list (dd_get outlier_dict k))).
  assert (∀ p, CG_Compound.xyz_row self1 p =
               if decide (p ∈ dd_get outlier_dict k)
               then relocated box (anchor molecules outlier_dict self k) self p
               else CG_Compound.xyz_row self p) as Hrow1.
  { intros p. unfold self1. rewrite foldl_move_outlier_row.
    - destruct (decide (p ∈ dd_get outlier_dict k)) as [Hp|Hp].
      + rewrite decide_True; [done|]. by apply elem_of_set_list.
      + rewrite decide_False; [done|]. by rewrite elem_of_set_list.
    - apply NoDup_set_list.
    - intros o Ho%elem_of_set_list. eapply Hlt; [left|done]. }
  assert (length (CG_Compound.particles self1) = length (CG_Compound.particles self)) as Hlen1
    by apply foldl_move_outlier_length.
  intros Hrel. apply IH in Hrel as (Hmoved & Hkept & Hbonds & Hbox' & Hlen); [|done|..].
  - split_and!.
    + intros k' p [->|Hk']%elem_of_cons Hp.
      * rewrite Hkept, Hrow1; [by rewrite decide_True|].
        intros k' Hk' Hp'. assert (k ≠ k') as Hne by (intros ->; done).
        eapply (Hgroups k k'); [left|by right|done..].
      * rewrite (Hmoved k' p Hk' Hp). unfold relocated.
        assert (k ≠ k') as Hne by (intros ->; done).
        rewrite Hrow1, decide_False.
        2:{ intros Hp'. eapply (Hgroups k k'); [left|by right|done..]. }
        rewrite (anchor_ext molecules outlier_dict self self1 k'); [done|].
        intros q Hq. rewrite Hrow1, decide_False; [done|].
        intros Hq'. eapply (Hanchor k' k); [by right|left|done..].
    + intros p Hp. rewrite Hkept, Hrow1.
      * rewrite decide_False; [done|]. apply Hp. left.
      * intros k' Hk'. apply Hp. by right.
    + rewrite Hbonds. apply foldl_move_outlier_bonds.
    + rewrite Hbox'. unfold self1. by rewrite foldl_move_outlier_box.
    + lia.
  - unfold self1. by rewrite foldl_move_outlier_box.
  - intros k' v Hk' Hv. rewrite Hlen1. eapply Hlt; [by right|done].
  - intros k1 k2 H1 H2. apply Hgroups; by right.
  - intros k1 k2 H1 H2. apply Hanchor; by right.
Qed.

End UnwrapRelocate.

(** ** The calls of [unwrap] *)

Section UnwrapCalls.

Context {libraries : Libraries}.

Lemma organize_get_elem molecules outliers k v :
  v ∈ dd_get (CG_Compound.organize molecules outliers) k →
  v ∈ outliers ∧ ∃ m, molecules !! k = Some m ∧ v ∈ m.
Proof.
  unfold CG_Compound.organize. rewrite organize_fold_get, elem_of_set_list.
  intros [? ?%head_mol_ind]. done.
Qed.

(** One pass moves every outlier as [relocated] says, with the centre of
    the particles of its molecule that are not outliers, and moves nothing
    else. *)
Lemma unwrap_pass_spec self molecules maybe_outliers box self' :
  CG_Compound.wf self →
  CG_Compound.get_molecules self = inr molecules →
  CG_Compound.box self = Some box →
  ends maybe_outliers ⊆ ends (CG_Compound.bonds self) →
  CG_Compound.unwrap_pass self molecules maybe_outliers = inr self' →
  ∃ outliers,
    CG_Compound.find_outliers self molecules maybe_outliers (CG_Compound.bond_dict self)
      = inr outliers
    ∧ (∀ molecule p,
         molecule ∈ molecules → p ∈ molecule → p ∈ outliers →
         CG_Compound.xyz_row self' p
         = relocated box
             (mean_axis0 (CG_Compound.xyz_rows self (set_list (molecule ∖ outliers))))
             self p)
    ∧ (∀ p, p ∉ outliers → CG_Compound.xyz_row self' p = CG_Compound.xyz_row self p).
Proof.
  intros Hwf Hmol Hbox Hends Hpass.
  destruct (compound_get_molecules_inr self molecules Hmol) as (_ & Hpd & Hunion).
  unfold CG_Compound.unwrap_pass, mbind, outcome_bind in Hpass.
  pose proof (find_outliers_spec self molecules maybe_outliers Hends) as Hfind.
  destruct (CG_Compound.find_outliers _ _ _ _) as [e|outliers]; [done|].
  destruct Hfind as [_ Hsub]. exists outliers. split; [done|].
  set (outlier_dict := CG_Compound.organize molecules outliers) in *.
  apply (relocate_spec _ _ box) in Hpass as (Hmoved & Hkept & _); [|apply organize_NoDup|done|..].
  - split.
    + intros m p Hm Hp Ho. apply list_elem_of_lookup in Hm as [k Hk].
      assert (dd_get outlier_dict k = outliers ∩ m) as Hget by by apply organize_get.
      rewrite (Hmoved k p).
      * unfold anchor. rewrite Hk, Hget. simpl.
        by replace (m ∖ (outliers ∩ m)) with (m ∖ outliers) by set_solver.
      * apply organize_keys. exists p. split; [done|]. by eapply head_mol_ind_disjoint.
      * rewrite Hget. set_solver.
    + intros p Hp. apply Hkept. intros k _ Hin.
      by apply organize_get_elem in Hin as [? _].
  - intros k v _ Hv. apply organize_get_elem in Hv as [Hv _].
    apply Hsub, elem_of_ends in Hv as (bond & Hb & Hv).
    destruct (Hwf bond Hb) as [? ?]. by destruct Hv as [-> | ->].
  - intros k k' _ _ Hne v Hv Hv'.
    apply organize_get_elem in Hv as (_ & m & Hk & Hm).
    apply organize_get_elem in Hv' as (_ & m' & Hk' & Hm').
    specialize (Hpd k k' m m' Hk Hk' Hne). set_solver.
  - intros k k' _ _ q Hq Hq'.
    destruct (molecules !! k) as [m|] eqn:Hk; simpl in Hq; [|set_solver].
    apply elem_of_difference in Hq as [Hqm Hq].
    pose proof Hq' as Hq''.
    apply organize_get_elem in Hq' as (Hqo & m' & Hk' & Hm').
    destruct (decide (k = k')) as [->|Hne]; [done|].
    specialize (Hpd k k' m m' Hk Hk' Hne). set_solver.
Qed.

(** ** What [unwrap] leaves alone *)

Lemma translate_to_names self i new_xyz :
  name <$> CG_Compound.particles (CG_Compound.translate_to self i new_xyz)
  = name <$> CG_Compound.particles self.
Proof.
  unfold CG_Compound.translate_to; simpl.
  apply list_eq. intros j. rewrite !list_lookup_fmap.
  destruct (decide (j = i)) as [->|Hne].
  - rewrite list_lookup_alter_eq. by destruct (CG_Compound.particles self !! i).
  - by rewrite list_lookup_alter_ne.
Qed.

Lemma foldl_move_outlier_names box mol_avg l :
  ∀ self, name <$> CG_Compound.particles (foldl (CG_Compound.move_outlier box mol_avg) self l)
          = name <$> CG_Compound.particles self.
Proof.
  induction l as [|o l IH]; intros self; simpl; [done|].
  rewrite IH. apply translate_to_names.
Qed.

Lemma same_frame_refl self : same_frame self self.
Proof. done. Qed.

Lemma same_frame_trans self1 self2 self3 :
  same_frame self1 self2 → same_frame self2 self3 → same_frame self1 self3.
Proof. intros (? & ? & ?) (? & ? & ?). split_and!; congruence. Qed.

Lemma relocate_same_frame molecules outlier_dict mol_inds :
  ∀ self self',
    CG_Compound.relocate molecules outlier_dict mol_inds self = inr self' →
    same_frame self self'.
Proof.
  induction mol_inds as [|k l IH]; intros self self'; simpl.
  { by intros [= <-]. }
  unfold mbind, outcome_bind, CG_Compound.relocate_molecule.
  destruct (CG_Compound.box self) as [b|]; simpl; [|done].
  intros H%IH. eapply same_frame_trans; [|exact H].
  split_and!.
  - apply foldl_move_outlier_names.
  - apply foldl_move_outlier_bond_graph.
  - apply foldl_move_outlier_box.
Qed.

Lemma unwrap_once_same_frame self d_tolerance self' :
  unwrap_once self d_tolerance = inr self' → same_frame self self'.
Proof.
  unfold unwrap_once, mbind, outcome_bind.
  destruct (CG_Compound.get_molecules self) as [e|ms]; [done|].
  unfold CG_Compound.unwrap_pass, mbind, outcome_bind.
  destruct (CG_Compound.find_outliers _ _ _ _); [done|].
  apply relocate_same_frame.
Qed.

Lemma unwrap_once_bond_graph self d_tolerance self' :
  unwrap_once self d_tolerance = inr self' →
  CG_Compound.bond_graph self ≠ None ∧ CG_Compound.bond_graph self' ≠ None.
Proof.
  intros Hpass. pose proof (unwrap_once_same_frame _ _ _ Hpass) as (_ & Hgraph & _).
  rewrite Hgraph. unfold unwrap_once, mbind, outcome_bind in Hpass.
  destruct (CG_Compound.get_molecules self) as [e|ms] eqn:Hmol; [done|].
  by apply compound_get_molecules_inr in Hmol as [? _].
Qed.

(** ** The passes of [unwrap] *)

Lemma unwrap_from_S fuel self d_tolerance _count :
  CG_Compound.unwrap_from (S fuel) self d_tolerance _count =
  match CG_Compound.bond_graph self with
  | None => {| CG_Compound.final := self;
               CG_Compound.printed := [];
               CG_Compound.raised := Some AttributeError |}
  | Some _ =>
      match CG_Compound.check_bad_bonds self d_tolerance with
      | [] => {| CG_Compound.final := self;
                 CG_Compound.printed := [NoBadBonds d_tolerance];
                 CG_Compound.raised := None |}
      | _ :: _ =>
          match unwrap_once self d_tolerance with
          | inl e => {| CG_Compound.final := self;
                        CG_Compound.printed := [];
                        CG_Compound.raised := Some e |}
          | inr self' =>
              match CG_Compound.check_bad_bonds self' d_tolerance with
              | [] => {| CG_Compound.final := self';
                         CG_Compound.printed := [];
                         CG_Compound.raised := None |}
              | _ :: _ =>
                  if _count <? 5 then
                    let r := CG_Compound.unwrap_from fuel self' d_tolerance (S _count) in
                    {| CG_Compound.final := CG_Compound.final r;
                       CG_Compound.printed := TryingAgain (S _count) :: CG_Compound.printed r;
                       CG_Compound.raised := CG_Compound.raised r |}
                  else
                    {| CG_Compound.final := self';
                       CG_Compound.printed := [TryLimitExceeded];
                       CG_Compound.raised := None |}
              end
          end
      end
  end.
Proof.
  cbn [CG_Compound.unwrap_from]. unfold unwrap_once, mbind, outcome_bind.
  pose proof (compound_get_molecules_spec self) as Hspec.
  destruct (CG_Compound.bond_graph self) as [edges|].
  - destruct Hspec as (ms & -> & _ & _). done.
  - by rewrite Hspec.
Qed.

Lemma unwrap_from_spec d_tolerance n :
  ∀ _count fuel self,
    _count + n = 5 → S n ≤ fuel →
    ∃ k mid,
      k ≤ n ∧ unwrap_times k self d_tolerance = inr mid
      ∧ ending d_tolerance _count k mid (CG_Compound.unwrap_from fuel self d_tolerance _count).
Proof.
  induction n as [|n IH]; intros count fuel self Hcount Hfuel;
    (destruct fuel as [|fuel]; [lia|]); rewrite unwrap_from_S.
  - exists 0, self. split; [done|]. split; [done|].
    destruct (CG_Compound.bond_graph self) as [edges|] eqn:Hgraph; [|by apply no_bond_graph].
    assert (CG_Compound.bond_graph self ≠ None) as Hsome by congruence.
    destruct (CG_Compound.check_bad_bonds self d_tolerance) as [|b l] eqn:Hbad.
    { by apply no_change. }
    destruct (unwrap_once self d_tolerance) as [e|self'] eqn:Hpass.
    { eapply exception_raised; [done|by rewrite Hbad|done| |done].
      intros ->. by apply unwrap_once_fuel in Hpass. }
    destruct (CG_Compound.check_bad_bonds self' d_tolerance) as [|b' l'] eqn:Hbad'.
    { eapply repaired; [by rewrite Hbad|done..]. }
    replace (count <? 5) with false by (symmetry; apply Nat.ltb_ge; lia).
    eapply limit_exceeded; [lia|by rewrite Hbad|done|by rewrite Hbad'|done].
  - destruct (CG_Compound.bond_graph self) as [edges|] eqn:Hgraph.
    2:{ exists 0, self. split; [lia|]. split; [done|]. by apply no_bond_graph. }
    assert (CG_Compound.bond_graph self ≠ None) as Hsome by congruence.
    destruct (CG_Compound.check_bad_bonds self d_tolerance) as [|b l] eqn:Hbad.
    { exists 0, self. split; [lia|]. split; [done|]. by apply no_change. }
    destruct (unwrap_once self d_tolerance) as [e|self'] eqn:Hpass.
    { exists 0, self. split; [lia|]. split; [done|].
      eapply exception_raised; [done|by rewrite Hbad|done| |done].
      intros ->. by apply unwrap_once_fuel in Hpass. }
    destruct (CG_Compound.check_bad_bonds self' d_tolerance) as [|b' l'] eqn:Hbad'.
    { exists 0, self. split; [lia|]. split; [done|].
      eapply repaired; [by rewrite Hbad|done..]. }
    replace (count <? 5) with true by (symmetry; apply Nat.ltb_lt; lia).
    destruct (IH (S count) fuel self') as (k & mid & Hk & Htimes & Hend); [lia..|].
    exists (S k), mid. split; [lia|]. split.
    { simpl. unfold mbind, outcome_bind. by rewrite Hpass. }
    cbv zeta.
    destruct Hend as [-> Hnograph _| -> _ Hnone _|e ? ? ? ? ->|s ? ? ? ->|s ? ? ? ? ->].
    + simpl in Htimes. injection Htimes as <-.
      by apply unwrap_once_bond_graph in Hpass as [_ ?].
    + simpl in Htimes. injection Htimes as <-. congruence.
    + by eapply exception_raised.
    + by eapply repaired.
    + eapply limit_exceeded; [lia|done..].
Qed.

Lemma unwrap_from_fuel d_tolerance n :
  ∀ _count fuel self,
    5 ≤ _count + n → S n ≤ fuel →
    CG_Compound.unwrap_from fuel self d_tolerance _count
    = CG_Compound.unwrap_from (S n) self d_tolerance _count.
Proof.
  induction n as [|n IH]; intros count fuel self Hcount Hfuel;
    (destruct fuel as [|fuel]; [lia|]); rewrite !unwrap_from_S.
  - replace (count <? 5) with false by (symmetry; apply Nat.ltb_ge; lia). done.
  - destruct (CG_Compound.bond_graph self); [|done].
    destruct (CG_Compound.check_bad_bonds self d_tolerance); [done|].
    destruct (unwrap_once self d_tolerance) as [e|self']; [done|].
    destruct (CG_Compound.check_bad_bonds self' d_tolerance); [done|].
    destruct (count <? 5); [|done].
    by rewrite (IH (S count) fuel self') by lia.
Qed.

Lemma unwrap_from_same_frame d_tolerance fuel :
  ∀ self _count,
    same_frame self (CG_Compound.final (CG_Compound.unwrap_from fuel self d_tolerance _count)).
Proof.
  induction fuel as [|fuel IH]; intros self count; [done|].
  rewrite unwrap_from_S.
  destruct (CG_Compound.bond_graph self) eqn:Hgraph; [|done].
  destruct (CG_Compound.check_bad_bonds self d_tolerance); [done|].
  destruct (unwrap_once self d_tolerance) as [e|self'] eqn:Hpass; [done|].
  apply unwrap_once_same_frame in Hpass.
  destruct (CG_Compound.check_bad_bonds self' d_tolerance); [done|].
  destruct (count <? 5); simpl; [|done].
  eapply same_frame_trans; [exact Hpass|apply IH].
Qed.

(** A call that does not raise ran on a compound with a bond graph. *)
Lemma unwrap_from_bond_graph d_tolerance fuel self _count :
  CG_Compound.raised (CG_Compound.unwrap_from fuel self d_tolerance _count) = None →
  CG_Compound.bond_graph self ≠ None.
Proof.
  destruct fuel as [|fuel]; [done|]. rewrite unwrap_from_S.
  by destruct (CG_Compound.bond_graph self).
Qed.

(** A call that neither raises nor gives up leaves no bad bond. *)
Lemma unwrap_from_success d_tolerance fuel :
  ∀ self _count,
    CG_Compound.raised (CG_Compound.unwrap_from fuel self d_tolerance _count) = None →
    TryLimitExceeded ∉ CG_Compound.printed (CG_Compound.unwrap_from fuel self d_tolerance _count) →
    CG_Compound.check_bad_bonds
      (CG_Compound.final (CG_Compound.unwrap_from fuel self d_tolerance _count)) d_tolerance = [].
Proof.
  induction fuel as [|fuel IH]; intros self count; [done|].
  rewrite unwrap_from_S.
  destruct (CG_Compound.bond_graph self); [|done].
  destruct (CG_Compound.check_bad_bonds self d_tolerance) eqn:Hbad; [done|].
  destruct (unwrap_once self d_tolerance) as [e|self']; [done|].
  destruct (CG_Compound.check_bad_bonds self' d_tolerance) eqn:Hbad'; [done|].
  destruct (count <? 5); simpl.
  - intros Hr Hp. apply IH; [done|]. intros Hin. apply Hp. by right.
  - intros _ Hp. exfalso. apply Hp. left.
Qed.

(** A compound with a bond graph and without bad bonds is left as it is. *)
Lemma unwrap_no_bad_bonds self d_tolerance _count :
  CG_Compound.bond_graph self ≠ None →
  CG_Compound.check_bad_bonds self d_tolerance = [] →
  CG_Compound.unwrap self d_tolerance _count
  = {| CG_Compound.final := self;
       CG_Compound.printed := [NoBadBonds d_tolerance];
       CG_Compound.raised := None |}.
Proof.
  intros Hgraph H. unfold CG_Compound.unwrap. rewrite unwrap_from_S, H.
  by destruct (CG_Compound.bond_graph self).
Qed.

(** An ambiguous bad bond stops the call before anything is moved. *)
Lemma unwrap_ambiguous self d_tolerance _count molecules :
  CG_Compound.get_molecules self = inr molecules →
  (∃ tup, tup ∈ CG_Compound.check_bad_bonds self d_tolerance
          ∧ ambiguous self molecules tup) →
  ∃ before tup after,
    CG_Compound.check_bad_bonds self d_tolerance = before ++ tup :: after
    ∧ (∀ t, t ∈ before → ¬ ambiguous self molecules t)
    ∧ ambiguous self molecules tup
    ∧ CG_Compound.unwrap self d_tolerance _count
      = {| CG_Compound.final := self;
           CG_Compound.printed := [];
           CG_Compound.raised := Some (RuntimeError tup) |}.
Proof.
  intros Hmol Hamb.
  destruct (compound_get_molecules_inr self molecules Hmol) as (Hgraph & Hpd & Hunion).
  destruct (classify_loop_ambiguous self molecules
              (CG_Compound.check_bad_bonds self d_tolerance) ∅ ∅)
    as (before & tup & after & Heq & Hbefore & Htup & Hloop); [|done|].
  { rewrite Hunion. apply ends_check_bad_bonds. }
  exists before, tup, after. split_and!; [done..|].
  unfold CG_Compound.unwrap. rewrite unwrap_from_S.
  destruct (CG_Compound.bond_graph self); [|done].
  unfold unwrap_once, CG_Compound.unwrap_pass, CG_Compound.find_outliers, mbind, outcome_bind.
  rewrite Hmol, Hloop, Heq. by destruct before.
Qed.

End UnwrapCalls.

(** ** Patterns with a digit *)

Lemma is_digit_spec c : is_digit c = bool_decide (c ∈ digits).
Proof. by destruct c as [[] [] [] [] [] [] [] []]. Qed.

Lemma has_number_spec string :
  has_number string = true ↔
  ∃ c, c ∈ String.list_ascii_of_string string ∧ c ∈ digits.
Proof.
  induction string as [|c string IH]; simpl.
  - split; [done|]. intros (c & ?%elem_of_nil & _). done.
  - rewrite orb_true_iff, IH, is_digit_spec, bool_decide_eq_true. split.
    + intros [?|(c' & ? & ?)]; [exists c; split; [left|done]|].
      exists c'. split; [by right|done].
    + intros (c' & [->|?]%elem_of_cons & ?); [by left|]. right. by exists c'.
Qed.

(** ** The walk over the matches *)

Lemma add_atoms_spec group : ∀ seen, add_atoms seen group = list_to_set group ∪ seen.
Proof.
  unfold add_atoms. induction group as [|atom group IH]; intros seen; simpl.
  - set_solver.
  - rewrite IH. set_solver.
Qed.

Lemma truth_has_common_member seen group :
  truth (has_common_member seen group) = false ↔ Forall (fun atom => atom ∉ seen) group.
Proof.
  unfold truth, has_common_member. rewrite bool_decide_eq_false, Forall_forall.
  split.
  - intros H atom Hin Hseen. apply H. intros Heq.
    assert (atom ∈ seen ∩ list_to_set group) as Hc by set_solver.
    rewrite Heq in Hc. set_solver.
  - intros H Hne. apply Hne. apply set_eq. intros atom. split; [|set_solver].
    intros [Hs Hg%elem_of_list_to_set]%elem_of_intersection. by destruct (H atom Hg).
Qed.

Lemma accept_spec seen bead_inds group smarts name :
  accept (seen, bead_inds) (group, smarts, name) =
  if decide (has_number smarts = true ∨ Forall (fun atom => atom ∉ seen) group)
  then (list_to_set group ∪ seen, bead_inds ++ [(group, smarts, name)])
  else (seen, bead_inds).
Proof.
  unfold accept. rewrite add_atoms_spec.
  destruct (has_number smarts); [by rewrite decide_True by by left|].
  destruct (truth (has_common_member seen group)) eqn:E.
  - rewrite decide_False; [done|]. intros [?|H]; [done|].
    apply truth_has_common_member in H. congruence.
  - rewrite decide_True; [done|]. right. by apply truth_has_common_member.
Qed.

Lemma accept_all_snoc matches m : accept_all (matches ++ [m]) = accept (accept_all matches) m.
Proof. unfold accept_all. by rewrite foldl_app. Qed.

Lemma group_atoms_snoc bead_inds m :
  group_atoms (bead_inds ++ [m]) = list_to_set m.1.1 ∪ group_atoms bead_inds.
Proof.
  unfold group_atoms. rewrite fmap_app, union_list_app_L. simpl. set_solver.
Qed.

(** The claimed atoms are the atoms of the accepted matches, and the
    accepted matches are matches, in their order. *)
Lemma accept_all_spec matches :
  (accept_all matches).1 = group_atoms (accept_all matches).2
  ∧ sublist (accept_all matches).2 matches.
Proof.
  induction matches as [|[[group smarts] name] matches [IH1 IH2]] using rev_ind; [done|].
  rewrite accept_all_snoc. destruct (accept_all matches) as [seen bead_inds].
  rewrite accept_spec. simpl in *. case_decide; simpl.
  - rewrite group_atoms_snoc, IH1. split; [done|]. by apply sublist_app.
  - split; [done|]. by apply sublist_inserts_r.
Qed.

(** ** Labels *)

Lemma chr_inj m n : m < 256 → n < 256 → chr m = chr n → m = n.
Proof.
  intros Hm Hn [= H]. apply (f_equal Ascii.nat_of_ascii) in H.
  by rewrite !Ascii.nat_ascii_embedding in H.
Qed.

Lemma num2str_inj i j : i < 702 → j < 702 → num2str i = num2str j → i = j.
Proof.
  intros Hi Hj. unfold num2str.
  assert (i / 26 < 27) as Hqi by (apply Nat.Div0.div_lt_upper_bound; lia).
  assert (j / 26 < 27) as Hqj by (apply Nat.Div0.div_lt_upper_bound; lia).
  assert (i mod 26 < 26) as Hri by (apply Nat.mod_upper_bound; lia).
  assert (j mod 26 < 26) as Hrj by (apply Nat.mod_upper_bound; lia).
  pose proof (Nat.div_mod_eq i 26) as Hdi. pose proof (Nat.div_mod_eq j 26) as Hdj.
  revert Hqi Hqj Hri Hrj Hdi Hdj.
  generalize (i / 26), (i mod 26), (j / 26), (j mod 26). intros qi ri qj rj ? ? ? ? ? ?.
  destruct (i <? 26) eqn:Ei, (j <? 26) eqn:Ej;
    try apply Nat.ltb_lt in Ei; try apply Nat.ltb_lt in Ej.
  - intros Heq%chr_inj; lia.
  - done.
  - done.
  - unfold chr. cbn [String.app]. intros H. injection H as H1 H2.
    apply (f_equal Ascii.nat_of_ascii) in H1, H2.
    rewrite !Ascii.nat_ascii_embedding in H1, H2 by lia. lia.
Qed.

(** The matches of the patterns: a match of the pattern at index [i] is
    named after [i]. *)
Lemma elem_of_find_matches mol bead_smarts m :
  m ∈ find_matches mol bead_smarts ↔
  ∃ i smart_str group,
    bead_smarts !! i = Some smart_str
    ∧ group ∈ findall mol smart_str
    ∧ m = ((fun a => a - 1) <$> group, smart_str, "_" +:+ num2str i).
Proof.
  unfold find_matches. rewrite list_elem_of_join. split.
  - intros (l & Hm & Hl). apply elem_of_lookup_imap in Hl as (i & s & -> & Hi).
    apply list_elem_of_fmap in Hm as (group & -> & Hg). by exists i, s, group.
  - intros (i & s & group & Hi & Hg & ->). eexists. split; last first.
    + apply elem_of_lookup_imap. by exists i, s.
    + apply list_elem_of_fmap. by exists group.
Qed.

(** ** The particles of the coarse-grained compound *)

Lemma add_bond_particles comp pair :
  CG_Compound.particles (CG_Compound.add_bond comp pair) = CG_Compound.particles comp.
Proof. unfold CG_Compound.add_bond. by case_decide. Qed.

Lemma add_bond_box comp pair :
  CG_Compound.box (CG_Compound.add_bond comp pair) = CG_Compound.box comp.
Proof. unfold CG_Compound.add_bond. by case_decide. Qed.

(** A compound with a bond has a bond graph, and keeps it. *)
Lemma add_bond_bond_graph comp pair :
  CG_Compound.bond_graph (CG_Compound.add_bond comp pair) ≠ None.
Proof.
  unfold CG_Compound.add_bond, CG_Compound.bonds. case_decide as H; [|done].
  destruct (CG_Compound.bond_graph comp); [done|].
  simpl in H. destruct H as [H|H]; by apply elem_of_nil in H.
Qed.

Lemma foldl_add_bond_particles (f : nat * nat → nat * nat) l :
  ∀ comp,
    CG_Compound.particles (foldl (fun cmpd bond => CG_Compound.add_bond cmpd (f bond)) comp l)
    = CG_Compound.particles comp.
Proof.
  induction l as [|b l IH]; intros comp; simpl; [done|].
  by rewrite IH, add_bond_particles.
Qed.

Lemma foldl_add_bond_bond_graph (f : nat * nat → nat * nat) l :
  ∀ comp,
    CG_Compound.bond_graph (foldl (fun cmpd bond => CG_Compound.add_bond cmpd (f bond)) comp l)
    = None
    ↔ CG_Compound.bond_graph comp = None ∧ l = [].
Proof.
  induction l as [|b l IH]; intros comp; simpl; [naive_solver|].
  rewrite IH. pose proof (add_bond_bond_graph comp (f b)). naive_solver.
Qed.

(** [from_pybel] returns exactly for a molecule with a unit cell; the
    compound has a bond graph when the molecule has a bond. *)
Lemma from_pybel_spec mol :
  match unitcell mol with
  | None => from_pybel mol = inl NameError
  | Some maxs =>
      ∃ cmpd,
        from_pybel mol = inr cmpd
        ∧ CG_Compound.particles cmpd = atoms mol
        ∧ CG_Compound.box cmpd = Some maxs
        ∧ (CG_Compound.bond_graph cmpd = None ↔ OBMolBondIter mol = [])
  end.
Proof.
  unfold from_pybel. destruct (unitcell mol) as [maxs|]; [|done].
  eexists. split; [done|]. cbn [CG_Compound.particles CG_Compound.box CG_Compound.bond_graph].
  split_and!; [|done|].
  - by rewrite (foldl_add_bond_particles (fun bond => (bond.1 - 1, bond.2 - 1))).
  - rewrite (foldl_add_bond_bond_graph (fun bond => (bond.1 - 1, bond.2 - 1))). naive_solver.
Qed.

Lemma cg_comp_spec bead_inds :
  ∀ comp,
    (cg_comp comp bead_inds).2 = length (CG_Compound.particles comp)
    ∧ ∃ beads,
        CG_Compound.particles (cg_comp comp bead_inds).1 = CG_Compound.particles comp ++ beads
        ∧ name <$> beads = (fun m : bead_match => m.2) <$> bead_inds
        ∧ CG_Compound.bond_graph (cg_comp comp bead_inds).1 = CG_Compound.bond_graph comp.
Proof.
  intros comp. split; [done|]. unfold cg_comp. simpl.
  induction bead_inds as [|[[bead smarts] bead_name] l IH] using rev_ind.
  - exists []. by rewrite app_nil_r.
  - destruct IH as (beads & H1 & H2 & H3). rewrite foldl_app. simpl.
    eexists (beads ++ [_]). rewrite H1, H3, app_assoc. split; [done|].
    by rewrite !fmap_app, H2.
Qed.

(** ** The bonds between beads *)

Lemma crosses_swap bond bead_i bead_j :
  crosses (bond.2, bond.1) bead_i bead_j ↔ crosses bond bead_i bead_j.
Proof. unfold crosses; simpl. tauto. Qed.

(** [get_bonds] returns exactly for a compound with a bond graph. *)
Lemma get_bonds_spec comp :
  CG_Compound.get_bonds comp
  = match CG_Compound.bond_graph comp with
    | None => inl AttributeError
    | Some _ => inr (sorted_bonds comp)
    end.
Proof.
  unfold CG_Compound.get_bonds, sorted_bonds, CG_Compound.bonds.
  by destruct (CG_Compound.bond_graph comp).
Qed.

Lemma get_bonds_inr comp :
  CG_Compound.bond_graph comp ≠ None → CG_Compound.get_bonds comp = inr (sorted_bonds comp).
Proof. intros H. rewrite get_bonds_spec. by destruct (CG_Compound.bond_graph comp). Qed.

Lemma elem_of_get_bonds comp pair :
  pair ∈ sorted_bonds comp ↔
  ∃ bond, bond ∈ CG_Compound.bonds comp
          ∧ pair = (Nat.min bond.1 bond.2, Nat.max bond.1 bond.2).
Proof.
  unfold sorted_bonds. rewrite merge_sort_Permutation, list_elem_of_fmap.
  naive_solver.
Qed.

Lemma crosses_get_bonds comp bead_i bead_j :
  (∃ pair, pair ∈ sorted_bonds comp ∧ crosses pair bead_i bead_j) ↔
  (∃ bond, bond ∈ CG_Compound.bonds comp ∧ crosses bond bead_i bead_j).
Proof.
  split.
  - intros (pair & (bond & Hb & ->)%elem_of_get_bonds & Hc). exists bond. split; [done|].
    destruct bond as [a b]. simpl in Hc.
    destruct (Nat.le_ge_cases a b).
    + by rewrite Nat.min_l, Nat.max_r in Hc.
    + rewrite Nat.min_r, Nat.max_l in Hc by done. by apply (crosses_swap (a, b)).
  - intros (bond & Hb & Hc). eexists. split; [apply elem_of_get_bonds; eauto|].
    destruct bond as [a b]. simpl.
    destruct (Nat.le_ge_cases a b).
    + by rewrite Nat.min_l, Nat.max_r.
    + rewrite Nat.min_r, Nat.max_l by done. by apply (crosses_swap (a, b)).
Qed.

(** The list [bead_bonds] holds [(i, j)] for the groups [i] before [j] that
    a bond joins. *)
Lemma elem_of_bead_bonds_of bonds beads i j :
  (i, j) ∈ bead_bonds_of bonds beads ↔
  i < j ∧ ∃ m_i m_j,
    beads !! i = Some m_i ∧ beads !! j = Some m_j
    ∧ ∃ pair, pair ∈ bonds ∧ crosses pair m_i.1.1 m_j.1.1.
Proof.
  unfold bead_bonds_of. rewrite list_elem_of_join. split.
  - intros (l & Hin & Hl).
    apply elem_of_lookup_imap in Hl as (i0 & m_i & -> & Hi).
    apply lookup_take_Some in Hi as [Hi Hlt].
    apply list_elem_of_join in Hin as (l & Hin & Hl).
    apply elem_of_lookup_imap in Hl as (j0 & m_j & -> & Hj).
    rewrite lookup_drop in Hj.
    apply list_elem_of_join in Hin as (l & Hin & Hl).
    apply list_elem_of_fmap in Hl as (pair & -> & Hpair).
    apply elem_of_app in Hin as [Hin|Hin]; case_decide as Hc;
      try (by apply elem_of_nil in Hin);
      apply list_elem_of_singleton in Hin as [= -> ->];
      (split; [lia|]); exists m_i, m_j;
      (split; [done|]); (split; [by replace (j0 + i0 + 1) with (i0 + 1 + j0) by lia|]);
      exists pair; (split; [done|]); [by left|by right].
  - intros (Hlt & m_i & m_j & Hi & Hj & pair & Hpair & Hc).
    assert (j < length beads) as Hjlt by (by eapply lookup_lt_Some).
    eexists. split; last first.
    { apply elem_of_lookup_imap. exists i, m_i. split; [done|].
      apply lookup_take_Some. split; [done|lia]. }
    apply list_elem_of_join. eexists. split; last first.
    { apply elem_of_lookup_imap. exists (j - i - 1), m_j. split; [done|].
      rewrite lookup_drop. by replace (i + 1 + (j - i - 1)) with j by lia. }
    replace (j - i - 1 + i + 1) with j by lia.
    apply list_elem_of_join. eexists. split; last first.
    { apply list_elem_of_fmap. by exists pair. }
    simpl. destruct Hc as [Hc|Hc].
    + rewrite decide_True by done. left.
    + apply elem_of_app. right. rewrite decide_True by done. left.
Qed.

Lemma filter_seq_nil (P : nat → Prop) `{∀ x, Decision (P x)} start len :
  (∀ x, start ≤ x < start + len → ¬ P x) → filter P (seq start len) = [].
Proof.
  revert start. induction len as [|len IH]; intros start HP; simpl; [done|].
  rewrite filter_cons_False by (apply HP; lia). apply IH. intros x Hx. apply HP. lia.
Qed.

(** [bond_pair] holds the two beads, the one of the lower index first. *)
Lemma filter_seq_pair a b n :
  a < b → b < n → filter (fun i => i = a ∨ i = b) (seq 0 n) = [a; b].
Proof.
  intros Hab Hbn.
  replace n with (a + (1 + ((b - a - 1) + (1 + (n - b - 1))))) by lia.
  rewrite !seq_app, !filter_app. simpl.
  rewrite !filter_seq_nil by (intros x Hx; lia).
  rewrite filter_cons_True by (by left). rewrite filter_cons_True by (right; lia).
  rewrite !filter_nil. simpl. f_equal. f_equal. lia.
Qed.

Lemma add_bead_bond_spec N comp pair :
  pair.1 < pair.2 → pair.2 + N < length (CG_Compound.particles comp) →
  add_bead_bond N comp pair = inr (CG_Compound.add_bond comp (shift N pair)).
Proof.
  intros H1 H2. unfold add_bead_bond. rewrite filter_seq_pair by lia. done.
Qed.

(** The second loop of [cg_bonds] returns, and does not touch the
    particles. *)
Lemma add_bead_bonds_returns N bead_bonds :
  ∀ comp,
    (∀ pair, pair ∈ bead_bonds →
       pair.1 < pair.2 ∧ pair.2 + N < length (CG_Compound.particles comp)) →
    ∃ comp',
      add_bead_bonds N bead_bonds comp = inr comp'
      ∧ CG_Compound.particles comp' = CG_Compound.particles comp.
Proof.
  induction bead_bonds as [|pair l IH]; intros comp Hrange; simpl; [by exists comp|].
  destruct (Hrange pair) as [H1 H2]; [left|].
  rewrite add_bead_bond_spec by done. unfold mbind, outcome_bind.
  destruct (IH (CG_Compound.add_bond comp (shift N pair))) as (comp' & -> & Hp).
  { intros p Hp. rewrite add_bond_particles. apply Hrange. by right. }
  exists comp'. by rewrite Hp, add_bond_particles.
Qed.

Lemma add_bead_bonds_spec N bead_bonds :
  ∀ comp,
    (∀ pair, pair ∈ bead_bonds →
       pair.1 < pair.2 ∧ pair.2 + N < length (CG_Compound.particles comp)) →
    bead_bonds_ordered N (CG_Compound.bonds comp) →
    ∃ comp' new,
      add_bead_bonds N bead_bonds comp = inr comp'
      ∧ CG_Compound.bonds comp' = CG_Compound.bonds comp ++ new
      ∧ NoDup new
      ∧ (∀ bond, bond ∈ new → bond ∉ CG_Compound.bonds comp)
      ∧ (∀ bond, bond ∈ new → ∃ pair, pair ∈ bead_bonds ∧ bond = shift N pair)
      ∧ (∀ pair, pair ∈ bead_bonds → shift N pair ∈ CG_Compound.bonds comp').
Proof.
  induction bead_bonds as [|pair l IH]; intros comp Hrange Hord; simpl.
  { exists comp, []. rewrite app_nil_r. split_and!; try done.
    - apply NoDup_nil_2.
    - intros ? ?%elem_of_nil. done.
    - intros ? ?%elem_of_nil. done.
    - intros ? ?%elem_of_nil. done. }
  destruct (Hrange pair) as [H1 H2]; [left|].
  rewrite add_bead_bond_spec by done. unfold mbind, outcome_bind.
  assert (((shift N pair).2, (shift N pair).1) ∉ CG_Compound.bonds comp) as Hswap.
  { intros Hin. apply Hord in Hin; unfold shift in *; simpl in *; lia. }
  destruct (decide (shift N pair ∈ CG_Compound.bonds comp)) as [Hin|Hin].
  - assert (CG_Compound.add_bond comp (shift N pair) = comp) as ->.
    { unfold CG_Compound.add_bond. rewrite decide_True; [done|by left]. }
    destruct (IH comp) as (comp' & new & -> & Hb & Hnd & Hnew & Hfrom & Hall); [|done|].
    { intros p Hp. apply Hrange. by right. }
    exists comp', new. split_and!; try done.
    + intros bond Hbond. destruct (Hfrom bond Hbond) as (p & ? & ?). exists p. split; [by right|done].
    + intros p [->|Hp]%elem_of_cons; [|by apply Hall].
      rewrite Hb. apply elem_of_app. by left.
  - set (comp1 := {| CG_Compound.particles := CG_Compound.particles comp;
                     CG_Compound.bond_graph := Some (CG_Compound.bonds comp ++ [shift N pair]);
                     CG_Compound.box := CG_Compound.box comp |}).
    assert (CG_Compound.add_bond comp (shift N pair) = comp1) as ->.
    { unfold CG_Compound.add_bond. rewrite decide_False; [done|]. by intros [?|?]. }
    destruct (IH comp1) as (comp' & new & -> & Hb & Hnd & Hnew & Hfrom & Hall).
    { intros p Hp. apply Hrange. by right. }
    { intros bond [Hbond| ->%list_elem_of_singleton]%elem_of_app; [by apply Hord|].
      unfold shift; simpl; lia. }
    change (CG_Compound.bonds comp1) with (CG_Compound.bonds comp ++ [shift N pair]) in *.
    exists comp', (shift N pair :: new). split_and!.
    + done.
    + by rewrite Hb, <- app_assoc.
    + apply NoDup_cons. split; [|done]. intros Hn. apply Hnew in Hn.
      apply Hn, elem_of_app. right. left.
    + intros bond [->|Hbond]%elem_of_cons; [done|].
      intros Hc. apply (Hnew bond Hbond), elem_of_app. by left.
    + intros bond [->|Hbond]%elem_of_cons.
      * exists pair. split; [left|done].
      * destruct (Hfrom bond Hbond) as (p & ? & ?). exists p. split; [by right|done].
    + intros p [->|Hp]%elem_of_cons; [|by apply Hall].
      rewrite Hb. apply elem_of_app. left. apply elem_of_app. right. left.
Qed.

Lemma filter_none {A} (P : A → Prop) `{∀ x, Decision (P x)} (l : list A) :
  (∀ x, x ∈ l → ¬ P x) → filter P l = [].
Proof.
  induction l as [|a l IH]; intros HP; [done|].
  rewrite filter_cons_False by (apply HP; left). apply IH. intros x Hx. apply HP. by right.
Qed.

(** At most one bond of a list without duplicates joins two given
    particles, when the list holds them in one order only. *)
Lemma NoDup_filter_pair {A} `{EqDecision A} (x y : A) (l : list A) :
  NoDup l → y ∉ l → length (filter (fun b => b = x ∨ b = y) l) ≤ 1.
Proof.
  induction l as [|a l IH]; intros Hnd Hy; [simpl; lia|].
  apply NoDup_cons in Hnd as [Ha Hnd]. apply not_elem_of_cons in Hy as [Hya Hy].
  destruct (decide (a = x)) as [->|Hne].
  - rewrite filter_cons_True by (by left).
    rewrite filter_none; [simpl; lia|]. intros b Hb [->| ->]; done.
  - rewrite filter_cons_False by (intros [?|?]; done). by apply IH.
Qed.

Lemma bead_bonds_of_range bonds beads pair :
  pair ∈ bead_bonds_of bonds beads → pair.1 < pair.2 ∧ pair.2 < length beads.
Proof.
  destruct pair as [i j]. intros (Hlt & m_i & m_j & _ & Hj & _)%elem_of_bead_bonds_of.
  split; [done|]. by eapply lookup_lt_Some.
Qed.

(** [cg_bonds] returns the compound with the bonds [new] between beads after
    its own: one bond for every two groups that a bond joins. *)
Lemma cg_bonds_spec comp beads N :
  CG_Compound.bond_graph comp ≠ None →
  length (CG_Compound.particles comp) = N + length beads →
  (∀ bond, bond ∈ CG_Compound.bonds comp → bond.1 < N ∧ bond.2 < N) →
  ∃ comp' new,
    cg_bonds comp beads N = inr comp'
    ∧ CG_Compound.particles comp' = CG_Compound.particles comp
    ∧ CG_Compound.bonds comp' = CG_Compound.bonds comp ++ new
    ∧ NoDup new
    ∧ ∀ bond, bond ∈ new ↔
        ∃ i j m_i m_j,
          i < j ∧ beads !! i = Some m_i ∧ beads !! j = Some m_j
          ∧ bond = (i + N, j + N)
          ∧ ∃ b, b ∈ CG_Compound.bonds comp ∧ crosses b m_i.1.1 m_j.1.1.
Proof.
  intros Hgraph Hlen Hatoms. unfold cg_bonds. rewrite get_bonds_inr by done.
  unfold mbind, outcome_bind.
  set (bead_bonds := bead_bonds_of (sorted_bonds comp) beads).
  assert (∀ pair, pair ∈ bead_bonds →
            pair.1 < pair.2 ∧ pair.2 + N < length (CG_Compound.particles comp)) as Hrange.
  { intros pair [? ?]%bead_bonds_of_range. lia. }
  destruct (add_bead_bonds_returns N bead_bonds comp Hrange) as (comp' & Hret & Hparts).
  destruct (add_bead_bonds_spec N bead_bonds comp Hrange)
    as (comp'' & new & Hret' & Hbonds & Hnd & Hnew & Hfrom & Hall).
  { intros bond Hb HN. apply Hatoms in Hb. lia. }
  rewrite Hret in Hret'. injection Hret' as <-.
  exists comp', new. split_and!; [done..|].
  intros bond. split.
  - intros Hb. destruct (Hfrom bond Hb) as ([i j] & Hp & ->).
    apply elem_of_bead_bonds_of in Hp as (Hlt & m_i & m_j & Hi & Hj & Hc).
    apply crosses_get_bonds in Hc. by exists i, j, m_i, m_j.
  - intros (i & j & m_i & m_j & Hlt & Hi & Hj & -> & Hc).
    apply crosses_get_bonds in Hc.
    assert ((i, j) ∈ bead_bonds) as Hp.
    { apply elem_of_bead_bonds_of. split; [done|]. by exists m_i, m_j. }
    apply Hall in Hp. rewrite Hbonds in Hp. apply elem_of_app in Hp as [Hp|Hp]; [|done].
    apply Hatoms in Hp. simpl in Hp. lia.
Qed.

(** ** Molecules are connected components *)

Section Components.

Variable graph : defaultdict.
Hypothesis graph_ok : dd_ok graph.
Hypothesis graph_sym : ∀ a b, b ∈ dd_get graph a → a ∈ dd_get graph b.

Lemma _get_connected_group_loop_closed (R : nat → Prop) fuel :
  (∀ a b, R a → b ∈ dd_get graph a → R b) →
  ∀ nodes result already_seen result' already_seen',
    _get_connected_group_loop fuel graph nodes result already_seen
      = Some (result', already_seen') →
    (∀ a, a ∈ already_seen → dd_get graph a ⊆ already_seen ∪ nodes) →
    (∀ x, x ∈ nodes ∪ result → R x) →
    closed graph already_seen' ∧ (∀ x, x ∈ result' → R x).
Proof.
  intros HR. induction fuel as [|fuel IH]; intros nodes result seen result' seen' Hloop Hcl Hreach;
    simpl in Hloop; destruct (set_pop nodes) as [[node nodes']|] eqn:Hpop; try done.
  - injection Hloop as <- <-. apply set_pop_None in Hpop as ->.
    split; [|set_solver]. intros a Ha. specialize (Hcl a Ha). set_solver.
  - apply set_pop_Some in Hpop as [Hnode ->].
    apply IH in Hloop; [done| |].
    + intros a Ha x Hx. destruct (decide (x ∈ {[node]} ∪ seen)) as [|Hn]; [set_solver|].
      apply elem_of_union in Ha as [->%elem_of_singleton|Ha]; [set_solver|].
      specialize (Hcl a Ha x Hx). set_solver.
    + intros x Hx. assert (R node) by (apply Hreach; set_solver).
      destruct (decide (x ∈ nodes ∪ result)) as [|Hn]; [by apply Hreach|].
      destruct (decide (x = node)) as [->|?]; [done|].
      apply (HR node); [done|]. set_solver.
  - injection Hloop as <- <-. apply set_pop_None in Hpop as ->.
    split; [|set_solver]. intros a Ha. specialize (Hcl a Ha). set_solver.
Qed.

Lemma get_molecules_loop_components fuel :
  size (dd_dom graph) ≤ fuel →
  ∀ (nodes : list nat) (already_seen : gset nat) (result molecules : list (gset nat)),
    get_molecules_loop fuel graph nodes already_seen result = Some molecules →
    list_to_set nodes ⊆ dd_dom graph →
    already_seen = ⋃ result → already_seen ⊆ dd_dom graph →
    closed graph already_seen →
    Forall (component graph) result →
    Forall (component graph) molecules.
Proof.
  intros Hfuel nodes. induction nodes as [|node nodes IH];
    intros seen result molecules Hloop Hnodes Hseen Hsub Hcl Hall; simpl in Hloop.
  { by injection Hloop as <-. }
  case_decide as Hin.
  { eapply IH; [done|set_solver|done..]. }
  unfold _get_connected_group in Hloop.
  destruct (_get_connected_group_loop_spec graph graph_ok fuel {[node]} ∅ seen)
    as (added & Heq & Hn & Hd & Hu).
  { set_solver. }
  { set_solver. }
  { etrans; [|exact Hfuel]. apply subseteq_size. set_solver. }
  rewrite Heq in Hloop.
  destruct (_get_connected_group_loop_closed
              (fun x => rtc (fun a b => b ∈ dd_get graph a) node x) fuel
              ltac:(intros a b Ha Hb; eapply rtc_r; eauto)
              {[node]} ∅ seen _ _ Heq) as [Hcl' Hreach].
  { intros a Ha. specialize (Hcl a Ha). set_solver. }
  { intros x Hx. assert (x = node) as -> by set_solver. done. }
  eapply IH; [done|set_solver| |set_solver|done|].
  - rewrite union_list_app_L. simpl. set_solver.
  - apply Forall_app. split; [done|]. apply Forall_singleton. split.
    + exists node. split; [set_solver|]. intros x Hx. apply Hreach. set_solver.
    + intros a Ha x Hx. assert (a ∈ added) as Ha' by set_solver.
      assert (x ∈ seen ∪ added) as Hx' by (apply (Hcl' a); [set_solver|done]).
      apply elem_of_union in Hx' as [Hs|?]; [|set_solver].
      exfalso. apply graph_sym in Hx. specialize (Hcl x Hs a Hx). set_solver.
Qed.

End Components.

Lemma get_molecules_components snapshot molecules :
  get_molecules snapshot = Some molecules →
  Forall (component (_snap_bond_graph snapshot)) molecules.
Proof.
  unfold get_molecules. rewrite _snap_bond_graph_of_bonds.
  pose proof (of_bonds_ok (bonds_group snapshot)) as Hok. intros Hloop.
  eapply (get_molecules_loop_components _ Hok); [| |exact Hloop|..]; try done.
  - intros a b. rewrite !of_bonds_get. tauto.
  - unfold dd_dom. by rewrite size_list_to_set by apply Hok.
Qed.


Lemma rtc_symmetric {A} (R : relation A) x y :
  (∀ a b, R a b → R b a) → rtc R x y → rtc R y x.
Proof.
  intros Hsym. induction 1 as [|x y z Hxy _ IH]; [done|].
  eapply rtc_r; [exact IH|]. by apply Hsym.
Qed.

(** ** The sorted bonds *)

#[global] Instance pair_le_total : Total CG_Compound.pair_le.
Proof. intros [a b] [c d]. unfold CG_Compound.pair_le; simpl. lia. Qed.

#[global] Instance pair_le_trans : Transitive CG_Compound.pair_le.
Proof. intros [a b] [c d] [e f]. unfold CG_Compound.pair_le; simpl. lia. Qed.

#[global] Instance pair_le_antisym : AntiSymm (=) CG_Compound.pair_le.
Proof.
  intros [a b] [c d]. unfold CG_Compound.pair_le; simpl. intros H1 H2.
  f_equal; lia.
Qed.

Lemma get_bonds_Sorted self : Sorted CG_Compound.pair_le (sorted_bonds self).
Proof. unfold sorted_bonds. apply (Sorted_merge_sort _). Qed.

Lemma get_bonds_length self :
  length (sorted_bonds self) = length (CG_Compound.bonds self).
Proof.
  unfold sorted_bonds. by rewrite merge_sort_Permutation, length_fmap.
Qed.

Lemma elem_of_get_bonds_iff self a b :
  (a, b) ∈ sorted_bonds self ↔
  a ≤ b ∧ ((a, b) ∈ CG_Compound.bonds self ∨ (b, a) ∈ CG_Compound.bonds self).
Proof.
  rewrite elem_of_get_bonds. split.
  - intros ([c d] & Hin & [= -> ->]). simpl. split; [lia|].
    destruct (Nat.le_ge_cases c d).
    + left. by rewrite Nat.min_l, Nat.max_r.
    + right. by rewrite Nat.min_r, Nat.max_l.
  - intros [Hle [Hin|Hin]]; eexists; (split; [exact Hin|]); simpl; f_equal; lia.
Qed.

(** ** The letters of [num2str] *)

Lemma num2str_capitals num :
  num < 702 →
  Forall is_capital (String.list_ascii_of_string (num2str num))
  ∧ String.length (num2str num) = if num <? 26 then 1 else 2.
Proof.
  intros Hnum. unfold num2str.
  assert (num / 26 < 27) as Hq by (apply Nat.Div0.div_lt_upper_bound; lia).
  assert (1 ≤ num / 26 ∨ num < 26) as Hq'.
  { destruct (decide (num < 26)) as [|Hge]; [by right|left].
    apply Nat.div_le_lower_bound; lia. }
  assert (num mod 26 < 26) as Hr by (apply Nat.mod_upper_bound; lia).
  revert Hq Hq' Hr. generalize (num / 26), (num mod 26). intros q r Hq Hq' Hr.
  destruct (num <? 26) eqn:E.
  - apply Nat.ltb_lt in E. split; [|done]. unfold chr. cbn [String.list_ascii_of_string].
    apply Forall_singleton. unfold is_capital.
    rewrite Ascii.nat_ascii_embedding by lia. lia.
  - apply Nat.ltb_ge in E. split; [|done]. unfold chr.
    cbn [String.app String.list_ascii_of_string].
    apply List.Forall_cons; [|apply List.Forall_cons; [|apply List.Forall_nil]];
      unfold is_capital; rewrite Ascii.nat_ascii_embedding by lia; lia.
Qed.


(** ** [wrap] *)

Section WrapProofs.

Variable freud_wrap : vec → vec → vec.
Variable box : vec.

Lemma translate_to_lookup self i new_xyz j :
  CG_Compound.particles (CG_Compound.translate_to self i new_xyz) !! j
  = if decide (j = i) then (fun p => moved p new_xyz) <$> CG_Compound.particles self !! j
    else CG_Compound.particles self !! j.
Proof.
  unfold CG_Compound.translate_to; simpl. case_decide as H.
  - subst. by rewrite list_lookup_alter_eq.
  - by rewrite list_lookup_alter_ne.
Qed.

Lemma xyz_row_lookup self row p :
  CG_Compound.particles self !! row = Some p → CG_Compound.xyz_row self row = pos p.
Proof.
  intros H. unfold CG_Compound.xyz_row, CG_Compound.xyz.
  by rewrite list_lookup_fmap, H.
Qed.

Lemma foldl_wrap_lookup (rows : list nat) :
  ∀ self row p,
    CG_Compound.particles self !! row = Some p →
    CG_Compound.particles
      (foldl (fun self row =>
                CG_Compound.translate_to self row (freud_wrap box (CG_Compound.xyz_row self row)))
             self rows) !! row
    = Some (moved p (Nat.iter (length (filter (fun r => r = row) rows)) (freud_wrap box) (pos p))).
Proof.
  induction rows as [|r rows IH]; intros self row p Hp; simpl.
  { rewrite Hp. by destruct p. }
  destruct (decide (r = row)) as [->|Hne].
  - rewrite filter_cons_True by done. cbn [length].
    erewrite IH.
    2:{ rewrite translate_to_lookup, decide_True, Hp by done. done. }
    rewrite (xyz_row_lookup _ _ _ Hp), Nat.iter_succ_r. done.
  - rewrite filter_cons_False by done. apply IH.
    rewrite translate_to_lookup, decide_False by done. done.
Qed.

Lemma foldl_wrap_same_frame (rows : list nat) :
  ∀ self,
    same_frame self
      (foldl (fun self row =>
                CG_Compound.translate_to self row (freud_wrap box (CG_Compound.xyz_row self row)))
             self rows).
Proof.
  induction rows as [|r rows IH]; intros self; simpl; [done|].
  eapply same_frame_trans; [|apply IH].
  split_and!; [apply translate_to_names|done..].
Qed.

End WrapProofs.

(** The rows of [np.argwhere] hold a particle once for each of its
    coordinates out of the box. *)
Lemma rows_out_of_box_count self box row p :
  CG_Compound.particles self !! row = Some p →
  length (filter (fun r => r = row) (CG_Compound.rows_out_of_box self box))
  = out_of_box box (pos p).
Proof.
  unfold CG_Compound.rows_out_of_box, CG_Compound.xyz. destruct box as [[Lx Ly] Lz].
  generalize (CG_Compound.particles self). intros l. revert row.
  assert (∀ k row,
    l !! row = Some p →
    length (filter (fun r => r = k + row)
      (mjoin (imap (fun row p => let '(x, y, z) := p in
                      (if (Lx / 2 <? abs x)%float then [k + row] else []) ++
                      (if (Ly / 2 <? abs y)%float then [k + row] else []) ++
                      (if (Lz / 2 <? abs z)%float then [k + row] else []))
                   (pos <$> l))))
    = out_of_box (Lx, Ly, Lz) (pos p)) as H.
  { induction l as [|q l IH]; intros k row Hrow; [done|].
    rewrite fmap_cons, imap_cons. simpl mjoin. rewrite filter_app, length_app.
    destruct row as [|row]; simpl in Hrow.
    - injection Hrow as ->. rewrite Nat.add_0_r.
      rewrite (filter_none _ (mjoin _)).
      2:{ intros x Hx. apply list_elem_of_join in Hx as (l' & Hx & Hl').
          apply elem_of_lookup_imap in Hl' as (i & [[x' y'] z'] & -> & _).
          simpl in Hx.
          repeat (apply elem_of_app in Hx as [Hx|Hx]); repeat case_match;
            try (by apply elem_of_nil in Hx);
            apply list_elem_of_singleton in Hx; lia. }
      destruct (pos p) as [[x y] z]. unfold out_of_box.
      rewrite !filter_app, !length_app.
      repeat case_match; simpl; rewrite ?filter_cons_True, ?filter_nil by done; simpl; lia.
    - rewrite filter_none.
      2:{ intros x Hx. destruct (pos q) as [[x' y'] z'].
          repeat (apply elem_of_app in Hx as [Hx|Hx]); repeat case_match;
            try (by apply elem_of_nil in Hx);
            apply list_elem_of_singleton in Hx; lia. }
      cbn [length Nat.add]. specialize (IH (S k) row Hrow).
      replace (k + S row) with (S k + row) by lia. rewrite <- IH.
      f_equal. f_equal. f_equal. apply imap_ext. intros i [[x y] z] _.
      simpl. by rewrite Nat.add_succ_r. }
  intros row Hrow. apply (H 0 row Hrow).
Qed.


(** ** The particles at two indices *)

Lemma filter_imap_pair_fst {A} (P : nat → Prop) `{∀ x, Decision (P x)} (l : list A) :
  ∀ k, fst <$> filter (fun ip : nat * A => P ip.1) (imap (fun i p => (k + i, p)) l)
       = filter P (seq k (length l)).
Proof.
  induction l as [|p l IH]; intros k; [done|].
  rewrite imap_cons. cbn [length seq]. rewrite Nat.add_0_r.
  assert (imap ((fun i (p : A) => (k + i, p)) ∘ S) l = imap (fun i p => (S k + i, p)) l) as ->.
  { apply imap_ext. intros i x _. simpl. f_equal. lia. }
  destruct (decide (P k)) as [Hk|Hk].
  - rewrite !filter_cons_True by done. rewrite fmap_cons, IH. done.
  - rewrite !filter_cons_False by done. apply IH.
Qed.

Lemma particle_pair_fst self tup :
  fst <$> filter (fun ip : nat * Particle => ip.1 = tup.1 ∨ ip.1 = tup.2)
                 (imap pair (CG_Compound.particles self))
  = filter (fun i => i = tup.1 ∨ i = tup.2) (seq 0 (length (CG_Compound.particles self))).
Proof.
  pose proof (filter_imap_pair_fst (fun i => i = tup.1 ∨ i = tup.2)
                (CG_Compound.particles self) 0) as H.
  exact H.
Qed.

Lemma particle_pair_swap self a b :
  CG_Compound.particle_pair self (a, b) = CG_Compound.particle_pair self (b, a).
Proof.
  unfold CG_Compound.particle_pair. f_equal. apply list_filter_iff.
  intros [i p]. simpl. tauto.
Qed.

Lemma particle_pair_lt self a b p_a p_b :
  a < b →
  CG_Compound.particles self !! a = Some p_a →
  CG_Compound.particles self !! b = Some p_b →
  CG_Compound.particle_pair self (a, b) = [p_a; p_b].
Proof.
  intros Hab Ha Hb. unfold CG_Compound.particle_pair.
  pose proof (particle_pair_fst self (a, b)) as Hfst. simpl in Hfst.
  rewrite filter_seq_pair in Hfst by (try done; by eapply lookup_lt_Some).
  set (found := filter _ _) in *.
  assert (∀ ip, ip ∈ found → CG_Compound.particles self !! ip.1 = Some ip.2) as Hlook.
  { intros ip [_ Hin]%list_elem_of_filter.
    by apply elem_of_lookup_imap in Hin as (i & p & -> & Hp). }
  destruct found as [|[i0 q0] [|[i1 q1] [|? ?]]]; try done.
  injection Hfst as -> ->.
  pose proof (Hlook (a, q0) ltac:(left)) as H0.
  pose proof (Hlook (b, q1) ltac:(right; left)) as H1.
  simpl in *. congruence.
Qed.

Lemma NoDup_all_equal {A} (l : list A) c :
  NoDup l → (∀ x, x ∈ l → x = c) → length l ≤ 1.
Proof.
  intros Hnd Hall. destruct l as [|x [|y l]]; simpl; [lia..|].
  assert (x = c) as -> by (apply Hall; left).
  assert (y = c) as -> by (apply Hall; right; left).
  apply NoDup_cons in Hnd as [Hnd _]. exfalso. apply Hnd. left.
Qed.

(** Fewer than two particles are found when the two indices are the same
    or one of them is no particle of the compound. *)
Lemma particle_pair_short self a b :
  a = b ∨ length (CG_Compound.particles self) ≤ a ∨ length (CG_Compound.particles self) ≤ b →
  length (CG_Compound.particle_pair self (a, b)) ≤ 1.
Proof.
  intros Hab. unfold CG_Compound.particle_pair.
  rewrite length_fmap, <- (length_fmap fst), particle_pair_fst. simpl.
  set (n := length (CG_Compound.particles self)) in *. clearbody n.
  assert (NoDup (filter (fun i => i = a ∨ i = b) (seq 0 n))) as Hnd
    by (apply NoDup_filter, NoDup_seq).
  destruct Hab as [->|[Hge|Hge]].
  - apply (NoDup_all_equal _ b); [done|]. intros x [Hx _]%list_elem_of_filter. tauto.
  - apply (NoDup_all_equal _ b); [done|].
    intros x [Hx Hin]%list_elem_of_filter. apply elem_of_seq in Hin. lia.
  - apply (NoDup_all_equal _ a); [done|].
    intros x [Hx Hin]%list_elem_of_filter. apply elem_of_seq in Hin. lia.
Qed.

(** ** [is_bad_bond] *)

Lemma is_bad_bond_no_bond_graph self tup :
  CG_Compound.bond_graph self = None →
  CG_Compound.is_bad_bond self tup = inl AttributeError.
Proof.
  intros H. unfold CG_Compound.is_bad_bond. rewrite get_bonds_spec, H. done.
Qed.

Lemma is_bad_bond_swap self a b :
  CG_Compound.is_bad_bond self (a, b) = CG_Compound.is_bad_bond self (b, a).
Proof.
  unfold CG_Compound.is_bad_bond. rewrite (particle_pair_swap self a b).
  rewrite get_bonds_spec. destruct (CG_Compound.bond_graph self); [|done].
  unfold mbind, outcome_bind. simpl. apply decide_ext. tauto.
Qed.

Lemma is_bad_bond_None self a b :
  CG_Compound.bond_graph self ≠ None →
  (CG_Compound.is_bad_bond self (a, b) = inr None ↔ ¬ bonded (CG_Compound.bonds self) a b).
Proof.
  intros Hgraph. unfold CG_Compound.is_bad_bond, bonded.
  rewrite get_bonds_inr by done. unfold mbind, outcome_bind. simpl.
  assert ((¬ (a, b) ∈ sorted_bonds self ∧ ¬ (b, a) ∈ sorted_bonds self)
          ↔ ¬ ((a, b) ∈ CG_Compound.bonds self ∨ (b, a) ∈ CG_Compound.bonds self)) as Hiff.
  { rewrite !elem_of_get_bonds_iff. split.
    - intros [H1 H2] Hb. destruct (Nat.le_ge_cases a b); [apply H1|apply H2]; tauto.
    - intros H. split; intros [_ ?]; apply H; tauto. }
  case_decide as Hd.
  - split; [|done]. intros _. by apply Hiff.
  - split; [|intros H; by apply Hiff in H].
    destruct (CG_Compound.particle_pair self (a, b)) as [|p_0 [|p_1 ?]]; [done..|].
    destruct (vsub (pos p_0) (pos p_1)) as [[dx dy] dz].
    by destruct (CG_Compound.box self) as [[[Lx Ly] Lz]|].
Qed.

(** ** [amber_to_element] *)

Lemma amber_dict_values k v :
  CG_Compound.amber_dict_get k = Some v → v ∈ element_symbols ∧ CG_Compound.amber_dict_get v = None.
Proof.
  unfold CG_Compound.amber_dict_get. intros H%elem_of_list_to_map_2.
  assert (Forall (fun kv : string * string =>
                    kv.2 ∈ element_symbols ∧ CG_Compound.amber_dict_get kv.2 = None) amber_dict) as Hall.
  { apply (bool_decide_unpack _). by vm_compute. }
  rewrite Forall_forall in Hall. apply (Hall (k, v) H).
Qed.

Lemma amber_rename_None particles renamed :
  CG_Compound.amber_rename particles = (renamed, None) →
  Forall2 (fun p p' => CG_Compound.amber_dict_get (name p) = Some (name p') ∧ pos p' = pos p)
          particles renamed.
Proof.
  revert renamed. induction particles as [|p l IH]; intros renamed;
    cbn [CG_Compound.amber_rename].
  { intros [= <-]. constructor. }
  destruct (CG_Compound.amber_dict_get (name p)) as [element|] eqn:E; [|done].
  destruct (CG_Compound.amber_rename l) as [rest e]. intros [= <- ->].
  constructor; [done|]. by apply IH.
Qed.

Lemma amber_rename_Some particles renamed key :
  CG_Compound.amber_rename particles = (renamed, Some key) →
  ∃ before before' particle after,
    particles = before ++ particle :: after
    ∧ renamed = before' ++ particle :: after
    ∧ name particle = key ∧ CG_Compound.amber_dict_get key = None
    ∧ Forall2 (fun p p' => CG_Compound.amber_dict_get (name p) = Some (name p') ∧ pos p' = pos p)
              before before'.
Proof.
  revert renamed. induction particles as [|p l IH]; intros renamed;
    cbn [CG_Compound.amber_rename]; [done|].
  destruct (CG_Compound.amber_dict_get (name p)) as [element|] eqn:E.
  - destruct (CG_Compound.amber_rename l) as [rest e]. intros [= <- ->].
    destruct (IH rest eq_refl) as (before & before' & particle & after & -> & -> & Hk & Hn & Hall).
    exists (p :: before), ({| name := element; pos := pos p |} :: before'), particle, after.
    split_and!; [done..|]. by constructor.
  - intros [= <- <-]. exists [], [], p, l. split_and!; [done..|]. constructor.
Qed.

(** ** [get_decorr] *)

Lemma list_find_default_spec (acorr : list float) :
  0 < length acorr →
  let k := default 0 (fst <$> list_find (fun x : float => (0 <? x)%float = false) acorr) in
  k < length acorr
  ∧ (∀ i x, i < k → acorr !! i = Some x → (0 <? x)%float = true)
  ∧ ((∃ x, acorr !! k = Some x ∧ (0 <? x)%float = false)
     ∨ (k = 0 ∧ Forall (fun x => (0 <? x)%float = true) acorr)).
Proof.
  intros Hlen.
  destruct (list_find (fun x : float => (0 <? x)%float = false) acorr) as [[i x]|] eqn:E; simpl.
  - apply list_find_Some in E as (Hi & Hx & Hbefore). split_and!.
    + by eapply lookup_lt_Some.
    + intros j y Hj Hy. specialize (Hbefore j y Hy Hj).
      destruct (0 <? y)%float; [done|]. by destruct Hbefore.
    + left. by exists x.
  - apply list_find_None in E. split_and!.
    + done.
    + intros; lia.
    + right. split; [done|]. eapply Forall_impl; [exact E|].
      intros y Hy. simpl in Hy. destruct (0 <? y)%float; [done|]. by destruct Hy.
Qed.

Lemma get_decorr_spec acorr k :
  get_decorr acorr = Some k →
  k < length acorr
  ∧ (∀ i x, i < k → acorr !! i = Some x → (0 <? x)%float = true)
  ∧ ((∃ x, acorr !! k = Some x ∧ (0 <? x)%float = false)
     ∨ (k = 0 ∧ Forall (fun x => (0 <? x)%float = true) acorr)).
Proof.
  intros H.
  assert (0 < length acorr) as Hlen by (destruct acorr; [done|simpl; lia]).
  assert (k = default 0 (fst <$> list_find (fun x : float => (0 <? x)%float = false) acorr))
    as -> by (destruct acorr; [done|]; unfold get_decorr in H; congruence).
  by apply list_find_default_spec.
Qed.


(** ** The beads of [cg_comp] *)

Lemma xyz_rows_prefix comp comp' (bead : list nat) extra :
  CG_Compound.particles comp' = CG_Compound.particles comp ++ extra →
  Forall (fun i => i < length (CG_Compound.particles comp)) bead →
  CG_Compound.xyz_rows comp' bead = CG_Compound.xyz_rows comp bead.
Proof.
  intros Hparts Hall. unfold CG_Compound.xyz_rows.
  apply Forall_fmap_ext. eapply Forall_impl; [exact Hall|].
  intros i Hi. unfold CG_Compound.xyz_row, CG_Compound.xyz.
  by rewrite Hparts, fmap_app, lookup_app_l by (by rewrite length_fmap).
Qed.

Lemma cg_comp_beads bead_inds comp :
  ∃ beads,
    CG_Compound.particles (cg_comp comp bead_inds).1 = CG_Compound.particles comp ++ beads
    ∧ length beads = length bead_inds
    ∧ CG_Compound.bond_graph (cg_comp comp bead_inds).1 = CG_Compound.bond_graph comp
    ∧ CG_Compound.box (cg_comp comp bead_inds).1 = CG_Compound.box comp
    ∧ ∀ k m,
        bead_inds !! k = Some m →
        Forall (fun i => i < length (CG_Compound.particles comp)) m.1.1 →
        beads !! k = Some (bead_of comp m).
Proof.
  unfold cg_comp. cbn [fst].
  induction bead_inds as [|[[bead smarts] bead_name] l IH] using rev_ind.
  - exists []. rewrite app_nil_r. split_and!; [done..|]. intros k m Hk. by rewrite lookup_nil in Hk.
  - destruct IH as (beads & Hparts & Hlen & Hbonds & Hbox & Hbeads).
    rewrite foldl_app. cbn [foldl].
    match goal with |- context [CG_Compound.add ?c _] => set (comp1 := c) in * end.
    exists (beads ++ [bead_of comp1 (bead, smarts, bead_name)]).
    unfold CG_Compound.add. cbn [CG_Compound.particles CG_Compound.bond_graph CG_Compound.box].
    rewrite Hparts, Hbonds, Hbox, app_assoc, !length_app, Hlen. split_and!; [done..|].
    intros k m Hk Hall. apply lookup_app_Some in Hk as [Hk|[Hge Hk]].
    + rewrite lookup_app_l by (rewrite Hlen; by eapply lookup_lt_Some). by apply Hbeads.
    + apply list_lookup_singleton_Some in Hk as [Hk <-].
      assert (k = length beads) as -> by (rewrite Hlen; apply Nat.le_antisymm; [apply Nat.sub_0_le; exact Hk|exact Hge]). rewrite lookup_app_r by done. rewrite Nat.sub_diag.
      cbn [lookup list_lookup]. unfold bead_of. cbn [fst snd] in *. do 3 f_equal.
      by eapply xyz_rows_prefix.
Qed.

(** The second loop of [cg_bonds] adds bonds after the ones that are
    there. *)
Lemma add_bead_bonds_prefix N bead_bonds :
  ∀ comp comp',
    add_bead_bonds N bead_bonds comp = inr comp' →
    CG_Compound.bonds comp `prefix_of` CG_Compound.bonds comp'
    ∧ CG_Compound.box comp' = CG_Compound.box comp.
Proof.
  induction bead_bonds as [|pair l IH]; intros comp comp'; simpl.
  { by intros [= <-]. }
  unfold mbind, outcome_bind.
  destruct (add_bead_bond N comp pair) as [e|comp1] eqn:E; [done|].
  intros [Hpre Hbox]%IH.
  unfold add_bead_bond in E. repeat case_match; try done. injection E as <-.
  rewrite add_bond_box in Hbox. split; [|done]. etrans; [|exact Hpre].
  unfold CG_Compound.add_bond. case_decide; [done|].
  change (CG_Compound.bonds {| CG_Compound.particles := _;
                               CG_Compound.bond_graph := Some ?l;
                               CG_Compound.box := _ |}) with l.
  by apply prefix_app_r.
Qed.

Lemma accepted_in_range mol bead_smarts m :
  matches_in_range mol →
  m ∈ (accept_all (find_matches mol bead_smarts)).2 →
  Forall (fun i => i < length (atoms mol)) m.1.1.
Proof.
  intros Hmol Hm.
  destruct (accept_all_spec (find_matches mol bead_smarts)) as [_ Hsub].
  eapply elem_of_sublist in Hm; [|exact Hsub].
  apply elem_of_find_matches in Hm as (i & smart_str & group & _ & Hgroup & ->).
  cbn [fst]. apply Forall_fmap, Forall_forall. intros a Ha. simpl.
  specialize (Hmol smart_str group a Hgroup Ha). lia.
Qed.

Section CoarseResult.

Variable remove_atomistic : CG_Compound.t → outcome CG_Compound.t.

(** The lines [coarse] prints, whether it returns or raises: one for
    every pattern without a match, and the warning. *)
Lemma coarse_printed mol bead_smarts atomistic :
  (coarse remove_atomistic mol bead_smarts atomistic).2
  = (NotFound <$> filter (fun smart_str => findall mol smart_str = []) bead_smarts)
    ++ (if decide (NumHvyAtoms mol ≠ size (accept_all (find_matches mol bead_smarts)).1)
        then [LeftOut] else []).
Proof.
  unfold coarse, not_found.
  by destruct (accept_all (find_matches mol bead_smarts)) as [seen bead_inds].
Qed.

(** [coarse] raises for a molecule without a unit cell, and for one
    without a bond. *)
Lemma coarse_raises mol bead_smarts atomistic :
  (unitcell mol = None →
   (coarse remove_atomistic mol bead_smarts atomistic).1 = inl NameError)
  ∧ (unitcell mol ≠ None → OBMolBondIter mol = [] →
     (coarse remove_atomistic mol bead_smarts atomistic).1 = inl AttributeError).
Proof.
  unfold coarse. destruct (accept_all (find_matches mol bead_smarts)) as [seen bead_inds].
  cbn [fst].
  pose proof (from_pybel_spec mol) as Hpybel. split.
  - intros Hcell. rewrite Hcell in Hpybel. by rewrite Hpybel.
  - intros Hcell Hbonds. destruct (unitcell mol) as [maxs|]; [|done].
    destruct Hpybel as (cmpd & -> & _ & _ & Hgraph).
    unfold mbind, outcome_bind.
    destruct (cg_comp_beads bead_inds cmpd) as (beads & _ & _ & Hgraph' & _).
    destruct (cg_comp cmpd bead_inds) as [comp N]. cbn [fst] in Hgraph'.
    unfold cg_bonds. rewrite get_bonds_spec, Hgraph'.
    by rewrite (proj2 Hgraph Hbonds).
Qed.

(** For a molecule with a unit cell and a bond, [coarse] builds the
    compound [comp] with the atoms, the beads, and the bonds of the atoms
    first; it returns [comp] when [atomistic] is true, and what
    [remove_atomistic] makes of [comp] when it is not. *)
Lemma coarse_result mol bead_smarts atomistic maxs :
  unitcell mol = Some maxs → OBMolBondIter mol ≠ [] →
  ∃ cmpd comp beads,
    from_pybel mol = inr cmpd
    ∧ (coarse remove_atomistic mol bead_smarts atomistic).1
      = (if atomistic then inr comp else remove_atomistic comp)
    ∧ CG_Compound.particles comp = atoms mol ++ beads
    ∧ length beads = length (accept_all (find_matches mol bead_smarts)).2
    ∧ name <$> beads
      = (fun m : bead_match => m.2) <$> (accept_all (find_matches mol bead_smarts)).2
    ∧ CG_Compound.bonds cmpd `prefix_of` CG_Compound.bonds comp
    ∧ CG_Compound.box comp = Some maxs
    ∧ ∀ k m,
        (accept_all (find_matches mol bead_smarts)).2 !! k = Some m →
        Forall (fun i => i < length (atoms mol)) m.1.1 →
        beads !! k = Some (bead_of cmpd m).
Proof.
  intros Hcell Hbonds. unfold coarse.
  destruct (accept_all (find_matches mol bead_smarts)) as [seen bead_inds].
  pose proof (from_pybel_spec mol) as Hpybel. rewrite Hcell in Hpybel.
  destruct Hpybel as (cmpd & Hcmpd & Hatoms & Hbox0 & Hgraph0).
  rewrite Hcmpd. unfold mbind, outcome_bind, mret, outcome_ret.
  destruct (cg_comp_beads bead_inds cmpd)
    as (beads & Hparts & Hlen & Hgraph & Hbox & Hbeads).
  destruct (cg_comp_spec bead_inds cmpd) as (HN & beads' & Hparts' & Hnames & _).
  rewrite Hparts in Hparts'. apply app_inv_head in Hparts' as <-.
  rewrite Hatoms in HN, Hparts, Hbeads.
  destruct (cg_comp cmpd bead_inds) as [comp N]. cbn [fst snd] in *. subst N.
  assert (CG_Compound.bond_graph comp ≠ None) as Hsome.
  { rewrite Hgraph. intros Hnone. by apply Hgraph0 in Hnone. }
  unfold cg_bonds. rewrite get_bonds_inr by done.
  unfold mbind, outcome_bind, mret, outcome_ret.
  destruct (add_bead_bonds_returns (length (atoms mol))
              (bead_bonds_of (sorted_bonds comp) bead_inds) comp)
    as (comp' & Hret & Hparts').
  { intros pair [? ?]%bead_bonds_of_range. split; [done|].
    rewrite Hparts, length_app. lia. }
  rewrite Hret. destruct (add_bead_bonds_prefix _ _ _ _ Hret) as [Hpre Hbox'].
  exists cmpd, comp', beads. split_and!; [done|done| |done|done| | |done].
  - by rewrite Hparts', Hparts.
  - unfold CG_Compound.bonds in *. by rewrite <- Hgraph.
  - by rewrite Hbox', Hbox.
Qed.

End CoarseResult.

(** ** [poly_smiles] *)

Section PolySmiles.

Import Stdlib.Strings.Ascii.

Lemma count_atoms_brackets_spec monomer_string :
  polysmiles.count_atoms_brackets monomer_string
  = (Z.of_nat (length (filter (fun s => polysmiles.isalpha s = true) monomer_string)),
     Z.of_nat (length (filter (fun s => s = ")"%char) monomer_string))).
Proof.
  unfold polysmiles.count_atoms_brackets.
  enough (∀ a b,
             foldl (fun '(atom_count, bracket_count) s =>
                      let atom_count :=
                        if polysmiles.isalpha s then (atom_count + 1)%Z else atom_count in
                      let bracket_count :=
                        if decide (s = ")"%char) then (bracket_count + 1)%Z else bracket_count in
                      (atom_count, bracket_count)) (a, b) monomer_string
             = ((a + Z.of_nat (length (filter (fun s => polysmiles.isalpha s = true)
                                               monomer_string)))%Z,
                (b + Z.of_nat (length (filter (fun s => s = ")"%char) monomer_string)))%Z))
    as H by (by rewrite H).
  induction monomer_string as [|s l IH]; intros a b.
  { simpl. f_equal; lia. }
  cbn [foldl]. rewrite IH, !filter_cons.
  destruct (polysmiles.isalpha s) eqn:Ha; destruct (decide (s = ")"%char)) as [Hb|Hb];
    repeat case_decide; try done; cbn [length]; f_equal; lia.
Qed.

(** The indices of the items ["*"], counted from [k]. *)
Lemma key_indices_cons k (c : ascii) (l : list ascii) :
  fst <$> filter (fun iv : nat * list ascii => iv.2 = ["*"%char])
                 (imap (fun i s => (k + i, s)) ((fun s => [s]) <$> (c :: l)))
  = (if decide (c = "*"%char) then [k] else [])
    ++ (fst <$> filter (fun iv : nat * list ascii => iv.2 = ["*"%char])
                       (imap (fun i s => (S k + i, s)) ((fun s => [s]) <$> l))).
Proof.
  rewrite fmap_cons, imap_cons, Nat.add_0_r.
  assert (imap ((fun i (s : list ascii) => (k + i, s)) ∘ S) ((fun s => [s]) <$> l)
          = imap (fun i s => (S k + i, s)) ((fun s => [s]) <$> l)) as ->.
  { apply imap_ext. intros i x _. simpl. f_equal. lia. }
  rewrite filter_cons. cbn [snd].
  destruct (decide (c = "*"%char)) as [->|Hc].
  - by rewrite decide_True by done.
  - rewrite decide_False; [done|]. by intros [= ?].
Qed.

Lemma key_indices_none k (l : list ascii) :
  fst <$> filter (fun iv : nat * list ascii => iv.2 = ["*"%char])
                 (imap (fun i s => (k + i, s)) ((fun s => [s]) <$> l)) = []
  ↔ "*"%char ∉ l.
Proof.
  revert k. induction l as [|c l IH]; intros k.
  { split; [intros _; apply not_elem_of_nil|done]. }
  rewrite key_indices_cons, not_elem_of_cons, <- (IH (S k)).
  destruct (decide (c = "*"%char)) as [->|Hc]; cbn [app]; [naive_solver|].
  split; [by intros ->|]. by intros [_ ->].
Qed.

Lemma key_indices_app k (pre l : list ascii) :
  "*"%char ∉ pre →
  fst <$> filter (fun iv : nat * list ascii => iv.2 = ["*"%char])
                 (imap (fun i s => (k + i, s)) ((fun s => [s]) <$> (pre ++ l)))
  = fst <$> filter (fun iv : nat * list ascii => iv.2 = ["*"%char])
                   (imap (fun i s => (k + length pre + i, s)) ((fun s => [s]) <$> l)).
Proof.
  revert k. induction pre as [|c pre IH]; intros k Hpre.
  { simpl. by rewrite Nat.add_0_r. }
  apply not_elem_of_cons in Hpre as [Hc Hpre].
  rewrite <- app_comm_cons, key_indices_cons, decide_False by done.
  rewrite IH by done. simpl. do 2 f_equal. apply imap_ext. intros i x _. f_equal. lia.
Qed.

Lemma key_indices_one k (l : list ascii) key_1 :
  fst <$> filter (fun iv : nat * list ascii => iv.2 = ["*"%char])
                 (imap (fun i s => (k + i, s)) ((fun s => [s]) <$> l)) = [key_1]
  → ∃ mid post,
      l = mid ++ "*"%char :: post ∧ "*"%char ∉ mid ∧ "*"%char ∉ post
      ∧ key_1 = k + length mid.
Proof.
  revert k. induction l as [|c l IH]; intros k; [done|].
  rewrite key_indices_cons. destruct (decide (c = "*"%char)) as [->|Hc]; cbn [app].
  - intros [= <- Hl]. apply (proj1 (key_indices_none (S k) l)) in Hl. exists [], l. split_and!; [done| |done|simpl; lia].
    apply not_elem_of_nil.
  - intros H. apply (IH (S k)) in H as (mid & post & -> & Hmid & Hpost & ->).
    exists (c :: mid), post. split_and!; [done| |done|simpl; lia].
    apply not_elem_of_cons. by split; [congruence|].
Qed.

Lemma key_indices_two k (l : list ascii) key_0 key_1 :
  fst <$> filter (fun iv : nat * list ascii => iv.2 = ["*"%char])
                 (imap (fun i s => (k + i, s)) ((fun s => [s]) <$> l)) = [key_0; key_1]
  → ∃ pre mid post,
      l = pre ++ "*"%char :: mid ++ "*"%char :: post
      ∧ "*"%char ∉ pre ∧ "*"%char ∉ mid ∧ "*"%char ∉ post
      ∧ key_0 = k + length pre ∧ key_1 = key_0 + 1 + length mid.
Proof.
  revert k. induction l as [|c l IH]; intros k; [done|].
  rewrite key_indices_cons. destruct (decide (c = "*"%char)) as [->|Hc]; cbn [app].
  - intros [= <- H]. apply (key_indices_one (S k)) in H as (mid & post & -> & Hmid & Hpost & ->).
    exists [], mid, post. split_and!; [done| |done|done|simpl; lia..].
    apply not_elem_of_nil.
  - intros H. apply (IH (S k)) in H as (pre & mid & post & -> & Hpre & Hmid & Hpost & -> & ->).
    exists (c :: pre), mid, post. split_and!; [done| |done|done|simpl; lia..].
    apply not_elem_of_cons. by split; [congruence|].
Qed.

Lemma key_indices_site (pre post : list ascii) (x : ascii) :
  "*"%char ∉ pre → x ≠ "*"%char → "*"%char ∉ post →
  fst <$> filter (fun iv : nat * list ascii => iv.2 = ["*"%char])
                 (imap pair ((fun s => [s]) <$> (pre ++ "*"%char :: x :: "*"%char :: post)))
  = [length pre; length pre + 2].
Proof.
  intros Hpre Hx Hpost.
  pose proof (key_indices_app 0 pre ("*"%char :: x :: "*"%char :: post) Hpre) as H.
  etrans; [exact H|]. clear H.
  rewrite !key_indices_cons, decide_True, decide_False, decide_True by done.
  apply (key_indices_none (S (S (S (0 + length pre))))) in Hpost. rewrite Hpost.
  simpl. do 2 f_equal. lia.
Qed.

Lemma elem_of_monomer_list (c : ascii) (l : list ascii) :
  [c] ∈ (fun s => [s]) <$> l ↔ c ∈ l.
Proof.
  rewrite list_elem_of_fmap. split; [|by exists c].
  by intros (y & [= ->] & Hy).
Qed.

Lemma remove_first (x : list ascii) (l1 l2 : list (list ascii)) :
  x ∉ l1 → polysmiles.remove x (l1 ++ x :: l2) = inr (l1 ++ l2).
Proof.
  induction l1 as [|y l1 IH]; intros Hx; simpl.
  { by rewrite decide_True. }
  apply not_elem_of_cons in Hx as [Hy Hx].
  rewrite decide_False by done. by rewrite IH.
Qed.

Lemma mjoin_monomer_list (l : list ascii) : mjoin ((fun s => [s]) <$> l) = l.
Proof. induction l as [|c l IH]; [done|]. rewrite fmap_cons. simpl. f_equal. exact IH. Qed.

(** ** [str.format] on strings without braces *)

Lemma format_from_literal numbered (s rest arg : list ascii) :
  brace_free s →
  polysmiles.format_from numbered (s ++ rest) arg
  = polysmiles.prepend s (polysmiles.format_from numbered rest arg).
Proof.
  intros [Hopen Hclose]. induction s as [|c s IH]; simpl.
  { by destruct (polysmiles.format_from numbered rest arg). }
  apply not_elem_of_cons in Hopen as [Hc1 Hopen].
  apply not_elem_of_cons in Hclose as [Hc2 Hclose].
  rewrite !decide_False by done. rewrite IH by done.
  by destruct (polysmiles.format_from numbered rest arg).
Qed.

Lemma format_from_brace_free numbered (s arg : list ascii) :
  brace_free s → polysmiles.format_from numbered s arg = inr s.
Proof.
  intros Hs. rewrite <- (app_nil_r s) at 1. rewrite format_from_literal by done.
  simpl. by rewrite app_nil_r.
Qed.

Lemma format_field (before after arg : list ascii) :
  brace_free before → brace_free after →
  polysmiles.format (before ++ ["{"; "}"]%char ++ after) arg = inr (before ++ arg ++ after).
Proof.
  intros Hb Ha. unfold polysmiles.format. rewrite format_from_literal by done.
  cbn [app polysmiles.format_from]. rewrite decide_True, decide_False, decide_True by done.
  by rewrite format_from_brace_free.
Qed.

Lemma brace_free_app (s t : list ascii) : brace_free (s ++ t) ↔ brace_free s ∧ brace_free t.
Proof. unfold brace_free. rewrite !not_elem_of_app. tauto. Qed.

Lemma brace_free_replicate n : brace_free (replicate n ")"%char).
Proof.
  split; by intros [[=] _]%elem_of_replicate.
Qed.

Lemma copies_S_r n (s : list ascii) : copies (S n) s = copies n s ++ s.
Proof.
  unfold copies. induction n as [|n IH]; simpl in *; [by rewrite app_nil_r|].
  rewrite <- app_assoc. f_equal. exact IH.
Qed.

Lemma brackets_closing monomer_string :
  (if decide (Z.of_nat (length (filter (fun s => s = ")"%char) monomer_string)) = 0%Z)
   then polysmiles.str_mul [")"%char]
          (Z.of_nat (length (filter (fun s => polysmiles.isalpha s = true) monomer_string)))
   else polysmiles.str_mul [")"%char]
          (Z.of_nat (length (filter (fun s => polysmiles.isalpha s = true) monomer_string))
           - Z.of_nat (length (filter (fun s => s = ")"%char) monomer_string))))
  = replicate (closing monomer_string) ")"%char.
Proof.
  unfold closing, polysmiles.str_mul.
  assert (∀ n, mjoin (replicate n [")"%char]) = replicate n ")"%char) as Hrep.
  { intros n. induction n as [|n IH]; [done|]. simpl. by rewrite IH. }
  repeat case_decide; try lia; rewrite Hrep; f_equal; lia.
Qed.

Section Converter.

Context {R : Type} (encode decode : list ascii → R).

(** With one character marked, [poly_smiles] takes the two ["*"] out and
    formats. *)
Lemma poly_smiles_site (pre post : list ascii) (x : ascii) (n : Z) :
  "*"%char ∉ pre → x ≠ "*"%char → "*"%char ∉ post →
  polysmiles.poly_smiles encode decode (pre ++ "*"%char :: x :: "*"%char :: post) n
  = match polysmiles.format_loop n
            (pre ++ x :: ["{"; "}"]%char
                 ++ replicate (closing (pre ++ "*"%char :: x :: "*"%char :: post)) ")"%char
                 ++ post)
            (pre ++ x :: post) (seq 0 (Z.to_nat n)) ["{"; "}"]%char with
    | inl e => inl e
    | inr polymer => inr (polysmiles.convert_smiles encode decode None (Some polymer))
    end.
Proof.
  intros Hpre Hx Hpost. unfold polysmiles.poly_smiles.
  rewrite count_atoms_brackets_spec. cbv zeta. rewrite brackets_closing.
  set (brackets := replicate _ ")"%char).
  rewrite decide_False.
  2:{ intros H. apply H. apply elem_of_monomer_list. apply elem_of_app. right. constructor. }
  rewrite key_indices_site by done.
  rewrite decide_False by lia.
  rewrite !fmap_app, !fmap_cons.
  rewrite insert_app_r_alt by (rewrite length_fmap; lia).
  rewrite length_fmap. replace (length pre + 2 - length pre) with 2 by lia.
  cbn [insert list_insert].
  rewrite remove_first by (by rewrite elem_of_monomer_list).
  assert (("{"%char :: "}"%char :: brackets) ∉ ((fun s => [s]) <$> pre) ++ [[x]]) as Hsite.
  { intros [(y & [=] & _)%list_elem_of_fmap|[=]%list_elem_of_singleton]%elem_of_app. }
  pose proof (remove_first _ _ ((fun s => [s]) <$> post) Hsite) as Hr.
  rewrite <- app_assoc in Hr. cbn [app] in *. rewrite Hr. clear Hr Hsite.
  rewrite !join_app, !mjoin_monomer_list.
  change (mjoin ([x] :: ?a :: ?l)) with (x :: a ++ mjoin l).
  change (mjoin ([x] :: ?l)) with (x :: mjoin l).
  rewrite !mjoin_monomer_list.
  change (mjoin []) with (@nil ascii). by rewrite <- app_assoc.
Qed.

End Converter.

(** The loop that formats the polymer: each pass but the last puts the
    template in the field, and the last pass the monomer. *)
Lemma format_loop_spec (template_0 template_1 monomer : list ascii) (j : nat) :
  ∀ (i : nat) (polymer_0 polymer_1 : list ascii),
    brace_free template_0 → brace_free template_1 →
    brace_free polymer_0 → brace_free polymer_1 →
    polysmiles.format_loop (Z.of_nat (S (i + j)))
      (template_0 ++ ["{"; "}"]%char ++ template_1) monomer
      (seq i (S j)) (polymer_0 ++ ["{"; "}"]%char ++ polymer_1)
    = inr (polymer_0 ++ copies j template_0 ++ monomer ++ copies j template_1 ++ polymer_1).
Proof.
  induction j as [|j IH]; intros i polymer_0 polymer_1 H0 H1 Hp0 Hp1.
  - cbn [seq polysmiles.format_loop]. rewrite decide_True by lia.
    by rewrite format_field.
  - change (seq i (S (S j))) with (i :: seq (S i) (S j)).
    cbn [polysmiles.format_loop]. rewrite decide_False by lia.
    rewrite format_field by done.
    replace (polymer_0 ++ (template_0 ++ ["{"; "}"]%char ++ template_1) ++ polymer_1)
      with ((polymer_0 ++ template_0) ++ ["{"; "}"]%char ++ (template_1 ++ polymer_1))
      by (by rewrite <- !app_assoc).
    replace (S (i + S j)) with (S (S i + j)) by lia.
    rewrite IH; [|done|done|by apply brace_free_app..].
    f_equal. rewrite (copies_S_r j template_1). unfold copies at 3. cbn [replicate].
    change (mjoin (template_0 :: ?l)) with (template_0 ++ mjoin l).
    fold (copies j template_0). by rewrite <- !app_assoc.
Qed.

Lemma key_indices_two_apart (monomer_string : list ascii) key_0 key_1 :
  fst <$> filter (fun iv : nat * list ascii => iv.2 = ["*"%char])
                 (imap pair ((fun s => [s]) <$> monomer_string)) = [key_0; key_1] →
  (Z.of_nat key_1 - Z.of_nat key_0 = 2)%Z →
  marks_one_character monomer_string.
Proof.
  intros H Hkeys.
  apply (key_indices_two 0) in H as (pre & mid & post & -> & Hpre & Hmid & Hpost & -> & ->).
  destruct mid as [|x [|? ?]]; simpl in Hkeys; try lia.
  exists pre, x, post. split_and!; [done..| |done].
  intros ->. apply Hmid. constructor.
Qed.

End PolySmiles.

(** ** The centre of a molecule *)

(** The loops of [_is_outlier] and [_d_to_center] end with the value of the
    one molecule that holds the index. *)
Lemma foldl_the_molecule {A} (f : gset nat → A) (index : nat) (molecules : list (gset nat))
    (molecule : gset nat) :
  pairwise_disjoint molecules →
  molecule ∈ molecules → index ∈ molecule →
  ∀ init,
    foldl (fun acc m => if decide (index ∈ m) then Some (f m) else acc) init molecules
    = Some (f molecule).
Proof.
  induction molecules as [|m ms IH] using rev_ind; intros Hpd Hin Hindex init.
  { by apply elem_of_nil in Hin. }
  rewrite foldl_app. cbn [foldl].
  apply elem_of_app in Hin as [Hin| ->%list_elem_of_singleton].
  - assert (index ∉ m) as Hm.
    { apply list_elem_of_lookup in Hin as [i Hi]. intros Hm.
      assert (i < length ms) as Hlt by (by eapply lookup_lt_Some).
      specialize (Hpd i (length ms) molecule m).
      rewrite lookup_app_l in Hpd by done.
      rewrite lookup_app_r, Nat.sub_diag in Hpd by done.
      specialize (Hpd Hi eq_refl ltac:(lia)). set_solver. }
    rewrite decide_False by done. apply IH; [|done..].
    intros i j m1 m2 Hi Hj Hne. apply (Hpd i j); [|  |done].
    + by apply lookup_app_l_Some.
    + by apply lookup_app_l_Some.
  - by rewrite decide_True.
Qed.

Section UnwrapCentre.

Context {libraries : Libraries}.

Lemma _is_outlier_spec compound molecules molecule index :
  pairwise_disjoint molecules →
  molecule ∈ molecules → index ∈ molecule →
  CG_Compound._is_outlier compound molecules index
  = inr (exclusion_improves compound molecule index).
Proof.
  intros Hpd Hin Hindex. unfold CG_Compound._is_outlier, CG_Compound.avg_dists.
  rewrite (foldl_the_molecule
             (fun molecule =>
                (np_mean (v_distance (CG_Compound.xyz_rows compound (set_list molecule))
                            (mean_axis0 (CG_Compound.xyz_rows compound (set_list molecule)))),
                 np_mean (v_distance
                            (CG_Compound.xyz_rows compound (set_list (molecule ∖ {[index]})))
                            (mean_axis0 (CG_Compound.xyz_rows compound
                                           (set_list (molecule ∖ {[index]})))))))
             index molecules molecule Hpd Hin Hindex).
  done.
Qed.

Lemma _d_to_center_spec compound molecules molecule index :
  pairwise_disjoint molecules →
  molecule ∈ molecules → index ∈ molecule →
  CG_Compound._d_to_center compound molecules index
  = inr (distance (CG_Compound.xyz_row compound index) (centre compound molecule)).
Proof.
  intros Hpd Hin Hindex. unfold CG_Compound._d_to_center.
  rewrite (foldl_the_molecule
             (fun molecule =>
                distance (CG_Compound.xyz_row compound index)
                         (mean_axis0 (CG_Compound.xyz_rows compound (set_list molecule))))
             index molecules molecule Hpd Hin Hindex).
  done.
Qed.

(** The two ends of a bond are in one molecule. *)
Lemma bond_in_one_molecule self molecules molecule bond :
  CG_Compound.get_molecules self = inr molecules →
  bond ∈ CG_Compound.bonds self →
  molecule ∈ molecules →
  (bond.1 ∈ molecule ↔ bond.2 ∈ molecule).
Proof.
  unfold CG_Compound.get_molecules, CG_Compound.bonds.
  destruct (CG_Compound.bond_graph self) as [edges|]; [|done]. cbn [default].
  destruct (get_molecules _) as [ms|] eqn:Hmol; [|done]. intros [= ->] Hbond Hin.
  apply get_molecules_components in Hmol.
  rewrite Forall_forall in Hmol. destruct (Hmol molecule Hin) as [_ Hclosed].
  rewrite _snap_bond_graph_of_bonds in Hclosed. cbn [bonds_group] in Hclosed.
  destruct bond as [a b]. cbn [fst snd].
  split; intros H; apply (Hclosed _ H); apply of_bonds_get; tauto.
Qed.

End UnwrapCentre.

(** ** What [unwrap] raises *)

Section UnwrapRaises.

Context {libraries : Libraries}.

(** With the ends of the bonds in the molecules, the classification raises
    for an ambiguous bond only. *)
Lemma classify_loop_raises_ambiguous compound molecules maybe_outliers :
  ∀ outliers checked e,
    ends maybe_outliers ⊆ ⋃ molecules →
    CG_Compound.classify_loop compound molecules maybe_outliers outliers checked = inl e →
    ∃ tup, tup ∈ maybe_outliers ∧ ambiguous compound molecules tup ∧ e = RuntimeError tup.
Proof.
  induction maybe_outliers as [|tup l IH]; intros o c e Hends; simpl; [done|].
  rewrite ends_cons in Hends. unfold mbind, outcome_bind.
  destruct (classify_cases compound molecules o tup) as [[Hamb Hcl]|[_ [o' Hcl]]];
    [set_solver..| |]; rewrite Hcl.
  - intros [= <-]. exists tup. split; [left|done].
  - intros (tup' & Hin & Hamb & ->)%IH; [|set_solver].
    exists tup'. split; [by right|done].
Qed.

Lemma unwrap_once_raises self d_tolerance e :
  unwrap_once self d_tolerance = inl e →
  (e = AttributeError ∧ CG_Compound.bond_graph self = None)
  ∨ (e = TypeError ∧ CG_Compound.box self = None)
  ∨ ∃ molecules tup,
      CG_Compound.get_molecules self = inr molecules
      ∧ tup ∈ CG_Compound.check_bad_bonds self d_tolerance
      ∧ ambiguous self molecules tup ∧ e = RuntimeError tup.
Proof.
  unfold unwrap_once, mbind, outcome_bind.
  destruct (CG_Compound.get_molecules self) as [e'|ms] eqn:Hmol.
  { intros [= <-]. apply compound_get_molecules_inl in Hmol as [? ->]. by left. }
  destruct (compound_get_molecules_inr self ms Hmol) as (_ & _ & Hunion).
  unfold CG_Compound.unwrap_pass, mbind, outcome_bind.
  pose proof (find_outliers_spec self ms (CG_Compound.check_bad_bonds self d_tolerance)
                (ends_check_bad_bonds _ _)) as H.
  destruct (CG_Compound.find_outliers _ _ _ _) as [e'|o].
  - intros [= <-]. right. right.
    apply classify_loop_raises_ambiguous in H as (tup & Hin & Hamb & ->).
    + by exists ms, tup.
    + rewrite Hunion. apply ends_check_bad_bonds.
  - intros Hr. apply relocate_raises in Hr as [-> ?]. right. by left.
Qed.

Lemma unwrap_from_raises d_tolerance fuel :
  ∀ self _count e,
    CG_Compound.raised (CG_Compound.unwrap_from fuel self d_tolerance _count) = Some e →
    e = OutOfFuel
    ∨ (e = AttributeError ∧ CG_Compound.bond_graph self = None)
    ∨ (e = TypeError ∧ CG_Compound.box self = None)
    ∨ ∃ tup, (tup ∈ CG_Compound.bonds self) ∧ e = RuntimeError tup.
Proof.
  induction fuel as [|fuel IH]; intros self count e.
  { intros [= <-]. by left. }
  rewrite unwrap_from_S.
  destruct (CG_Compound.bond_graph self) as [edges|] eqn:Hgraph.
  2:{ intros [= <-]. right. by left. }
  destruct (CG_Compound.check_bad_bonds self d_tolerance); [done|].
  destruct (unwrap_once self d_tolerance) as [e'|self'] eqn:Hpass.
  { intros [= <-]. right.
    apply unwrap_once_raises in Hpass as [[_ ?]|[?|(ms & tup & _ & Hin & _ & ->)]].
    - congruence.
    - right. by left.
    - right. right. exists tup. split; [|done].
      unfold CG_Compound.check_bad_bonds in Hin. by apply list_elem_of_filter in Hin as [_ ?]. }
  pose proof (unwrap_once_same_frame _ _ _ Hpass) as (_ & Hgraph' & Hbox').
  destruct (CG_Compound.check_bad_bonds self' d_tolerance); [done|].
  destruct (count <? 5); [|done]. simpl.
  intros [?|[[? ?]|[[? ?]|(tup & Hin & ->)]]]%IH; [by left|right..].
  - left. split; [done|]. congruence.
  - right. left. split; [done|]. congruence.
  - right. right. exists tup. split; [|done].
    unfold CG_Compound.bonds in *. by rewrite <- Hgraph'.
Qed.

Lemma unwrap_from_has_fuel d_tolerance fuel :
  ∀ self _count,
    6 ≤ _count + fuel → 1 ≤ fuel →
    CG_Compound.raised (CG_Compound.unwrap_from fuel self d_tolerance _count) ≠ Some OutOfFuel.
Proof.
  induction fuel as [|fuel IH]; intros self count Hcount Hfuel; [lia|].
  rewrite unwrap_from_S.
  destruct (CG_Compound.bond_graph self); [|done].
  destruct (CG_Compound.check_bad_bonds self d_tolerance); [done|].
  destruct (unwrap_once self d_tolerance) as [e|self'] eqn:Hpass.
  { simpl. intros [= ->]. by apply unwrap_once_fuel in Hpass. }
  destruct (CG_Compound.check_bad_bonds self' d_tolerance); [done|].
  destruct (count <? 5) eqn:Hlt; [|done]. apply Nat.ltb_lt in Hlt. simpl.
  apply IH; lia.
Qed.

(** A particle of one of the molecules is tested in its molecule; a
    particle of none leaves the local variables of the tests unbound. *)
Lemma foldl_no_molecule {A} (f : gset nat → A) (index : nat) (molecules : list (gset nat)) :
  index ∉ ⋃ molecules →
  ∀ init,
    foldl (fun acc m => if decide (index ∈ m) then Some (f m) else acc) init molecules = init.
Proof.
  induction molecules as [|m ms IH]; intros Hno init; simpl; [done|].
  rewrite decide_False by set_solver. apply IH. set_solver.
Qed.

Lemma _is_outlier_unbound compound molecules index :
  index ∉ ⋃ molecules →
  CG_Compound._is_outlier compound molecules index = inl UnboundLocalError.
Proof.
  intros Hno. unfold CG_Compound._is_outlier, CG_Compound.avg_dists.
  by rewrite (foldl_no_molecule _ index molecules Hno).
Qed.

Lemma _d_to_center_unbound compound molecules index :
  index ∉ ⋃ molecules →
  CG_Compound._d_to_center compound molecules index = inl UnboundLocalError.
Proof.
  intros Hno. unfold CG_Compound._d_to_center.
  by rewrite (foldl_no_molecule _ index molecules Hno).
Qed.

End UnwrapRaises.

(** ** The bonds of [from_pybel] *)

Lemma bonds_Some particles edges box :
  CG_Compound.bonds {| CG_Compound.particles := particles;
                       CG_Compound.bond_graph := Some edges;
                       CG_Compound.box := box |} = edges.
Proof. done. Qed.

Lemma add_bond_bonded comp pair a b :
  bonded (CG_Compound.bonds (CG_Compound.add_bond comp pair)) a b
  ↔ bonded (CG_Compound.bonds comp) a b ∨ (a, b) = pair ∨ (b, a) = pair.
Proof.
  unfold CG_Compound.add_bond, bonded. destruct pair as [i j]. cbn [fst snd].
  case_decide as Hin.
  - split; [tauto|]. intros [?|[[= -> ->]|[= -> ->]]]; tauto.
  - rewrite !bonds_Some, !elem_of_app, !list_elem_of_singleton. naive_solver.
Qed.

Lemma add_bond_NoDup comp pair :
  NoDup (CG_Compound.bonds comp) → NoDup (CG_Compound.bonds (CG_Compound.add_bond comp pair)).
Proof.
  intros Hnd. unfold CG_Compound.add_bond. case_decide as Hin; [done|].
  rewrite bonds_Some. apply NoDup_app. split_and!; [done| |apply NoDup_singleton].
  intros x Hx ->%list_elem_of_singleton. tauto.
Qed.

Lemma foldl_add_bond_bonded (f : nat * nat → nat * nat) l :
  ∀ comp a b,
    bonded (CG_Compound.bonds
              (foldl (fun cmpd bond => CG_Compound.add_bond cmpd (f bond)) comp l)) a b
    ↔ bonded (CG_Compound.bonds comp) a b
      ∨ ∃ bond, bond ∈ l ∧ ((a, b) = f bond ∨ (b, a) = f bond).
Proof.
  induction l as [|x l IH]; intros comp a b; simpl.
  - split; [tauto|]. intros [?|(bond & Hin & _)]; [done|]. by apply elem_of_nil in Hin.
  - rewrite IH, add_bond_bonded. setoid_rewrite elem_of_cons. naive_solver.
Qed.

Lemma foldl_add_bond_NoDup (f : nat * nat → nat * nat) l :
  ∀ comp,
    NoDup (CG_Compound.bonds comp) →
    NoDup (CG_Compound.bonds
             (foldl (fun cmpd bond => CG_Compound.add_bond cmpd (f bond)) comp l)).
Proof.
  induction l as [|x l IH]; intros comp Hnd; simpl; [done|].
  by apply IH, add_bond_NoDup.
Qed.

Lemma pairwise_disjoint_singleton (m : gset nat) : pairwise_disjoint [m].
Proof.
  intros i j m1 m2 Hi Hj Hne.
  apply lookup_lt_Some in Hi, Hj. simpl in *. lia.
Qed.

(** * The claims *)

(** ** Molecules *)

(** C7 (amended): for every snapshot [get_molecules] returns; for a
    compound the method raises [AttributeError] when the compound has no
    bond graph, and returns when it has one.  The molecules returned are
    pairwise disjoint, and a particle is in one of them exactly when it is
    an end of a bond.  A particle without bonds is in no molecule. *)
Theorem C7_molecules_partition_the_bonded_particles :
  (∀ snapshot,
     ∃ molecules,
       get_molecules snapshot = Some molecules
       ∧ pairwise_disjoint molecules
       ∧ ∀ i, i ∈ ⋃ molecules ↔
              ∃ bond, bond ∈ bonds_group snapshot ∧ (i = bond.1 ∨ i = bond.2))
  ∧ (∀ self,
       match CG_Compound.bond_graph self with
       | None => CG_Compound.get_molecules self = inl AttributeError
       | Some edges =>
           ∃ molecules,
             CG_Compound.get_molecules self = inr molecules
             ∧ pairwise_disjoint molecules
             ∧ ∀ i, i ∈ ⋃ molecules ↔
                    ∃ bond, bond ∈ edges ∧ (i = bond.1 ∨ i = bond.2)
       end).
Proof.
  split.
  - intros snapshot. apply get_molecules_spec.
  - intros self. pose proof (compound_get_molecules_spec self) as Hspec.
    unfold CG_Compound.bonds in Hspec.
    destruct (CG_Compound.bond_graph self) as [edges|]; [|done].
    destruct Hspec as (ms & Hms & Hpd & Hu).
    exists ms. split_and!; [done..|]. intros i. by rewrite Hu, elem_of_ends.
Qed.

(** C7, as stated: of three particles with one bond between the first two,
    the third is in no molecule, so the molecules do not cover the
    particles. *)
Lemma C7_unbonded_particle_in_no_molecule :
  get_molecules {| particles_N := 3; bonds_group := [(0, 1)] |} = Some [{[0; 1]}]
  ∧ 2 ∉ ⋃ [({[0; 1]} : gset nat)].
Proof. split; [by vm_compute|]. set_solver. Qed.

(** ** [unwrap] *)

Lemma wf_three : CG_Compound.wf three.
Proof.
  intros bond Hb. change (CG_Compound.bonds three) with [(0, 1); (0, 2)] in Hb.
  repeat (apply elem_of_cons in Hb as [->|Hb]; [simpl; lia|]).
  by apply elem_of_nil in Hb.
Qed.

(** C1 (amended): when a pass of [unwrap] over a compound with a box
    returns, every outlier [p] of every molecule has been moved to what
    freud's unwrap makes of its position and the image [img], where the
    centre [c] is the mean position of the particles of the molecule that
    are not outliers, in the order in which Python lists them, and [img]
    is, along every axis, 1 if [c - p.pos] is above half the box, plus -1
    if it is below minus half the box; no other particle is moved. *)
Theorem C1_unwrap_relocates_the_outliers {libraries : Libraries}
    self d_tolerance molecules box self' :
  CG_Compound.wf self →
  CG_Compound.get_molecules self = inr molecules →
  CG_Compound.box self = Some box →
  unwrap_once self d_tolerance = inr self' →
  ∃ outliers,
    CG_Compound.find_outliers self molecules
      (CG_Compound.check_bad_bonds self d_tolerance) (CG_Compound.bond_dict self)
      = inr outliers
    ∧ (∀ molecule p,
         molecule ∈ molecules → p ∈ molecule → p ∈ outliers →
         let c := mean_axis0 (CG_Compound.xyz_rows self (set_list (molecule ∖ outliers))) in
         let img := CG_Compound.img_of (vsub c (CG_Compound.xyz_row self p)) box in
         CG_Compound.xyz_row self' p = freud_unwrap box (CG_Compound.xyz_row self p) img)
    ∧ (∀ p, p ∉ outliers → CG_Compound.xyz_row self' p = CG_Compound.xyz_row self p).
Proof.
  intros Hwf Hmol Hbox Hpass. unfold unwrap_once in Hpass. rewrite Hmol in Hpass.
  destruct (unwrap_pass_spec self molecules (CG_Compound.check_bad_bonds self d_tolerance)
              box self' Hwf Hmol Hbox (ends_check_bad_bonds _ _) Hpass)
    as (outliers & Hfind & Hmoved & Hkept).
  exists outliers. split_and!; [done| |done].
  intros molecule p Hm Hp Ho. apply (Hmoved molecule p Hm Hp Ho).
Qed.

Section ThreeAtoms.

#[local] Existing Instance example_libraries.

Lemma C1_unwrap_relocates_the_outliers_witness :
  CG_Compound.wf three
  ∧ CG_Compound.get_molecules three = inr [{[0; 1; 2]}]
  ∧ CG_Compound.box three = Some (10, 10, 10)%float
  ∧ ∃ self',
      unwrap_once three CG_Compound.default_d_tolerance = inr self'
      ∧ ∃ outliers,
          CG_Compound.find_outliers three [{[0; 1; 2]}]
            (CG_Compound.check_bad_bonds three CG_Compound.default_d_tolerance)
            (CG_Compound.bond_dict three)
            = inr outliers
          ∧ (∀ molecule p,
               molecule ∈ [({[0; 1; 2]} : gset nat)] → p ∈ molecule → p ∈ outliers →
               let c := mean_axis0 (CG_Compound.xyz_rows three (set_list (molecule ∖ outliers))) in
               let img := CG_Compound.img_of (vsub c (CG_Compound.xyz_row three p))
                            (10, 10, 10)%float in
               CG_Compound.xyz_row self' p
               = freud_unwrap (10, 10, 10)%float (CG_Compound.xyz_row three p) img)
          ∧ (∀ p, p ∉ outliers → CG_Compound.xyz_row self' p = CG_Compound.xyz_row three p).
Proof.
  split; [apply wf_three|]. split; [by vm_compute|]. split; [reflexivity|].
  eexists. split; [by vm_compute|].
  apply (C1_unwrap_relocates_the_outliers three CG_Compound.default_d_tolerance);
    [apply wf_three|by vm_compute|reflexivity|by vm_compute].
Defined.

(** C1, the scenario as stated, with the set of the two atoms listed as
    CPython lists it and the means added as NumPy adds two numbers: for
    every tolerance below the length of the bond, the two atoms are as far
    from the centre of their molecule as each other, so [unwrap] raises and
    leaves the compound as it was, with the second atom at (9.9, 0, 0). *)
Lemma C1_two_atoms_are_not_moved :
  CG_Compound.xyz_row two 1 = (9.9, 0, 0)%float
  ∧ PrimFloat.ltb CG_Compound.default_d_tolerance
      (distance (CG_Compound.xyz_row two 0) (CG_Compound.xyz_row two 1)) = true
  ∧ ∀ d_tolerance,
      PrimFloat.ltb d_tolerance
        (distance (CG_Compound.xyz_row two 0) (CG_Compound.xyz_row two 1)) = true →
      CG_Compound.unwrap two d_tolerance 0
      = {| CG_Compound.final := two;
           CG_Compound.printed := [];
           CG_Compound.raised := Some (RuntimeError (0, 1)) |}.
Proof.
  split; [done|]. split; [by vm_compute|]. intros d_tolerance Hbad.
  assert (CG_Compound.check_bad_bonds two d_tolerance = [(0, 1)]) as Hscan.
  { unfold CG_Compound.check_bad_bonds. change (CG_Compound.bonds two) with [(0, 1)].
    by rewrite filter_cons_True by exact Hbad. }
  unfold CG_Compound.unwrap. rewrite unwrap_from_S, Hscan.
  change (CG_Compound.bond_graph two) with (Some [(0, 1)]). cbv iota.
  unfold unwrap_once. rewrite Hscan.
  replace (CG_Compound.get_molecules two ≫= _)
    with (@inl exception CG_Compound.t (RuntimeError (0, 1))) by (by vm_compute).
  done.
Qed.

End ThreeAtoms.

(** C2: take a bad bond whose two ends both test as outliers: for each of
    them, the particles of their molecule are on average closer to their
    centre when the end is left out.  Both ends are in the same molecule;
    with [d_0] and [d_1] the distances of the ends to the centre of the
    molecule, the classification adds the end that is farther from the
    centre, and that end is among the outliers [find_outliers] returns.
    When neither distance is below the other, as when they are equal,
    [unwrap] raises the [RuntimeError] of the first bad bond that it cannot
    decide, which names both ends of that bond, and moves nothing. *)
Theorem C2_the_farther_end_is_the_outlier_and_a_tie_raises {libraries : Libraries}
    self d_tolerance _count molecules molecule tup :
  CG_Compound.get_molecules self = inr molecules →
  tup ∈ CG_Compound.check_bad_bonds self d_tolerance →
  molecule ∈ molecules →
  tup.1 ∈ molecule →
  exclusion_improves self molecule tup.1 = true →
  exclusion_improves self molecule tup.2 = true →
  let d_0 := distance (CG_Compound.xyz_row self tup.1) (centre self molecule) in
  let d_1 := distance (CG_Compound.xyz_row self tup.2) (centre self molecule) in
  tup.2 ∈ molecule
  ∧ CG_Compound._is_outlier self molecules tup.1 = inr true
  ∧ CG_Compound._is_outlier self molecules tup.2 = inr true
  ∧ CG_Compound._d_to_center self molecules tup.1 = inr d_0
  ∧ CG_Compound._d_to_center self molecules tup.2 = inr d_1
  ∧ (∀ outliers,
       CG_Compound.classify self molecules outliers tup =
       if (d_1 <? d_0)%float then inr ({[tup.1]} ∪ outliers)
       else if (d_0 <? d_1)%float then inr ({[tup.2]} ∪ outliers)
       else inl (RuntimeError tup))
  ∧ ((d_0 <? d_1)%float = true → (d_1 <? d_0)%float = false)
  ∧ (∀ outliers,
       CG_Compound.find_outliers self molecules
         (CG_Compound.check_bad_bonds self d_tolerance) (CG_Compound.bond_dict self)
         = inr outliers →
       ((d_1 <? d_0)%float = true → tup.1 ∈ outliers)
       ∧ ((d_0 <? d_1)%float = true → tup.2 ∈ outliers))
  ∧ ((d_0 =? d_1)%float = true → (d_1 <? d_0)%float = false ∧ (d_0 <? d_1)%float = false)
  ∧ ((d_1 <? d_0)%float = false → (d_0 <? d_1)%float = false →
     ∃ before tup' after,
       CG_Compound.check_bad_bonds self d_tolerance = before ++ tup' :: after
       ∧ (∀ t, t ∈ before → ¬ ambiguous self molecules t)
       ∧ ambiguous self molecules tup'
       ∧ CG_Compound.unwrap self d_tolerance _count
         = {| CG_Compound.final := self;
              CG_Compound.printed := [];
              CG_Compound.raised := Some (RuntimeError tup') |}).
Proof.
  intros Hmol Hin Hm Hend He0 He1 d_0 d_1.
  destruct (compound_get_molecules_inr self molecules Hmol) as (_ & Hpd & _).
  assert (tup ∈ CG_Compound.bonds self) as Hbond.
  { unfold CG_Compound.check_bad_bonds in Hin. by apply list_elem_of_filter in Hin as [_ ?]. }
  assert (tup.2 ∈ molecule) as Hend'
    by (by apply (bond_in_one_molecule self molecules molecule tup Hmol Hbond Hm)).
  assert (CG_Compound._is_outlier self molecules tup.1 = inr true) as H0
    by (by rewrite (_is_outlier_spec self molecules molecule), He0).
  assert (CG_Compound._is_outlier self molecules tup.2 = inr true) as H1
    by (by rewrite (_is_outlier_spec self molecules molecule), He1).
  assert (CG_Compound._d_to_center self molecules tup.1 = inr d_0) as Hd0
    by (by apply _d_to_center_spec).
  assert (CG_Compound._d_to_center self molecules tup.2 = inr d_1) as Hd1
    by (by apply _d_to_center_spec).
  split_and!; [done..| | | | |].
  - intros outliers. by apply classify_both.
  - apply ltb_asym.
  - intros outliers Hfind.
    pose proof (find_outliers_spec self molecules _ (ends_check_bad_bonds self d_tolerance))
      as Hspec.
    rewrite Hfind in Hspec. destruct Hspec as [(classified & checked & Hloop & Hsub) _].
    destruct (classify_loop_selects _ _ _ _ _ _ _ _ _ _ Hloop Hin H0 H1 Hd0 Hd1) as [S0 S1].
    split; intros E; [apply Hsub, S0, E|apply Hsub, S1, E].
  - intros [? ?]%eqb_not_ltb. done.
  - intros Hge Hle. apply unwrap_ambiguous; [done|].
    exists tup. split; [done|]. split_and!; [done..|]. by exists d_0, d_1.
Qed.

Section TwoAndFourAtoms.

#[local] Existing Instance example_libraries.

(** In [four] the ends of the bad bond are at different distances from the
    centre, and the farther one, the particle 2, is an outlier; in [two]
    they are at the same distance, and [unwrap] raises. *)
Lemma C2_the_farther_end_is_the_outlier_and_a_tie_raises_witness :
  (CG_Compound.check_bad_bonds four CG_Compound.default_d_tolerance = [(1, 2)]
   ∧ PrimFloat.ltb (distance (CG_Compound.xyz_row four 1) (centre four {[0; 1; 2; 3]}))
                   (distance (CG_Compound.xyz_row four 2) (centre four {[0; 1; 2; 3]})) = true
   ∧ ∀ outliers,
       CG_Compound.find_outliers four [{[0; 1; 2; 3]}]
         (CG_Compound.check_bad_bonds four CG_Compound.default_d_tolerance)
         (CG_Compound.bond_dict four)
         = inr outliers →
       2 ∈ outliers)
  ∧ (CG_Compound.check_bad_bonds two CG_Compound.default_d_tolerance = [(0, 1)]
     ∧ PrimFloat.eqb (distance (CG_Compound.xyz_row two 0) (centre two {[0; 1]}))
                     (distance (CG_Compound.xyz_row two 1) (centre two {[0; 1]})) = true
     ∧ ∃ before tup' after,
         CG_Compound.check_bad_bonds two CG_Compound.default_d_tolerance
           = before ++ tup' :: after
         ∧ (∀ t, t ∈ before → ¬ ambiguous two [{[0; 1]}] t)
         ∧ ambiguous two [{[0; 1]}] tup'
         ∧ CG_Compound.unwrap two CG_Compound.default_d_tolerance 0
           = {| CG_Compound.final := two;
                CG_Compound.printed := [];
                CG_Compound.raised := Some (RuntimeError tup') |}).
Proof.
  split.
  - split; [by vm_compute|]. split; [by vm_compute|]. intros outliers Hfind.
    apply (C2_the_farther_end_is_the_outlier_and_a_tie_raises
             four CG_Compound.default_d_tolerance 0 [{[0; 1; 2; 3]}] {[0; 1; 2; 3]} (1, 2));
      [by vm_compute| |left|set_solver|by vm_compute|by vm_compute|exact Hfind|by vm_compute].
    replace (CG_Compound.check_bad_bonds four CG_Compound.default_d_tolerance)
      with [(1, 2)] by (by vm_compute).
    left.
  - split; [by vm_compute|]. split; [by vm_compute|].
    apply (C2_the_farther_end_is_the_outlier_and_a_tie_raises
             two CG_Compound.default_d_tolerance 0 [{[0; 1]}] {[0; 1]} (0, 1));
      [by vm_compute| |left|set_solver|by vm_compute|by vm_compute|by vm_compute|by vm_compute].
    replace (CG_Compound.check_bad_bonds two CG_Compound.default_d_tolerance)
      with [(0, 1)] by (by vm_compute).
    left.
Defined.

End TwoAndFourAtoms.

(** C3: a call of [unwrap] needs no more than six calls of itself, each
    with one scan and one pass: after [k ≤ 5] passes that left bad bonds
    and were followed by a call with the counter one higher on the
    positions they left, the last call raises [AttributeError] because the
    compound has no bond graph, finds no bad bond, raises in its pass,
    leaves no bad bond, or, when the counter has reached 5 and bad bonds
    remain, says that the try limit is exceeded and stops with the
    positions of its pass. *)
Theorem C3_unwrap_stops_within_six_passes {libraries : Libraries} self d_tolerance :
  (∀ fuel, 6 ≤ fuel →
     CG_Compound.unwrap_from fuel self d_tolerance 0 = CG_Compound.unwrap self d_tolerance 0)
  ∧ ∃ k mid,
      k ≤ 5
      ∧ unwrap_times k self d_tolerance = inr mid
      ∧ ending d_tolerance 0 k mid (CG_Compound.unwrap self d_tolerance 0).
Proof.
  split.
  - intros fuel Hfuel. unfold CG_Compound.unwrap. change (S (5 - 0)) with 6.
    apply (unwrap_from_fuel d_tolerance 5); lia.
  - unfold CG_Compound.unwrap. change (S (5 - 0)) with 6.
    apply (unwrap_from_spec d_tolerance 5); lia.
Qed.

(** C8: when a call of [unwrap] has neither raised nor given up at the try
    limit, the compound it leaves has no bond longer than [d_tolerance],
    and another call with the same [d_tolerance] only says that it found no
    such bond: the compound stays as it is. *)
Theorem C8_unwrap_again_changes_nothing {libraries : Libraries}
    self d_tolerance _count _count' :
  CG_Compound.raised (CG_Compound.unwrap self d_tolerance _count) = None →
  TryLimitExceeded ∉ CG_Compound.printed (CG_Compound.unwrap self d_tolerance _count) →
  CG_Compound.check_bad_bonds
    (CG_Compound.final (CG_Compound.unwrap self d_tolerance _count)) d_tolerance = []
  ∧ CG_Compound.unwrap (CG_Compound.final (CG_Compound.unwrap self d_tolerance _count))
      d_tolerance _count'
    = {| CG_Compound.final := CG_Compound.final (CG_Compound.unwrap self d_tolerance _count);
         CG_Compound.printed := [NoBadBonds d_tolerance];
         CG_Compound.raised := None |}.
Proof.
  intros Hraised Hprinted.
  assert (CG_Compound.check_bad_bonds
            (CG_Compound.final (CG_Compound.unwrap self d_tolerance _count)) d_tolerance = [])
    as Hbad by (by apply unwrap_from_success).
  split; [done|]. apply unwrap_no_bad_bonds; [|done].
  destruct (unwrap_from_same_frame d_tolerance (S (5 - _count)) self _count) as (_ & Hgraph & _).
  unfold CG_Compound.unwrap in *. rewrite Hgraph. by eapply unwrap_from_bond_graph.
Qed.

Section ThreeAtomsAgain.

#[local] Existing Instance example_libraries.

Lemma C8_unwrap_again_changes_nothing_witness :
  CG_Compound.raised (CG_Compound.unwrap three CG_Compound.default_d_tolerance 0) = None
  ∧ CG_Compound.printed (CG_Compound.unwrap three CG_Compound.default_d_tolerance 0) = []
  ∧ CG_Compound.final (CG_Compound.unwrap three CG_Compound.default_d_tolerance 0) ≠ three
  ∧ CG_Compound.unwrap
      (CG_Compound.final (CG_Compound.unwrap three CG_Compound.default_d_tolerance 0))
      CG_Compound.default_d_tolerance 0
    = {| CG_Compound.final :=
           CG_Compound.final (CG_Compound.unwrap three CG_Compound.default_d_tolerance 0);
         CG_Compound.printed := [NoBadBonds CG_Compound.default_d_tolerance];
         CG_Compound.raised := None |}.
Proof.
  split; [by vm_compute|]. split; [by vm_compute|]. split; [by vm_compute|].
  apply (C8_unwrap_again_changes_nothing three CG_Compound.default_d_tolerance 0 0).
  - by vm_compute.
  - replace (CG_Compound.printed (CG_Compound.unwrap three CG_Compound.default_d_tolerance 0))
      with (@nil message) by (by vm_compute).
    apply not_elem_of_nil.
Defined.

End ThreeAtomsAgain.

(** [wrap] on a compound without a box says so and leaves the compound as
    it is. *)
Lemma wrap_without_box freud_wrap self :
  CG_Compound.box self = None →
  CG_Compound.wrap freud_wrap self = (self, [CantWrap]).
Proof. intros H. unfold CG_Compound.wrap. by rewrite H. Qed.

(** [unwrap] never prints the message of [wrap]. *)
Lemma unwrap_from_never_CantWrap {libraries : Libraries} d_tolerance fuel :
  ∀ self _count,
    CantWrap ∉ CG_Compound.printed (CG_Compound.unwrap_from fuel self d_tolerance _count).
Proof.
  induction fuel as [|fuel IH]; intros self count; [apply not_elem_of_nil|].
  rewrite unwrap_from_S.
  repeat case_match; simpl;
    repeat (apply not_elem_of_cons; split; [done|]); try apply not_elem_of_nil.
  apply IH.
Qed.

(** C9, the divergence: on three atoms with a bond across the boundary and
    no box, [unwrap] raises [TypeError] where [wrap] prints that the box is
    not set; the compound is left as it was, and nothing is printed.  The
    set of the three atoms is listed as CPython lists it and the means are
    added as NumPy adds three numbers; whatever the libraries do, [unwrap]
    never prints the line of [wrap]. *)
Theorem C9_unwrap_without_box_raises :
  CG_Compound.box three_without_box = None
  ∧ CG_Compound.unwrap (libraries := example_libraries)
      three_without_box CG_Compound.default_d_tolerance 0
    = {| CG_Compound.final := three_without_box;
         CG_Compound.printed := [];
         CG_Compound.raised := Some TypeError |}
  ∧ (∀ freud_wrap,
       CG_Compound.wrap freud_wrap three_without_box = (three_without_box, [CantWrap]))
  ∧ (∀ (libraries : Libraries) self d_tolerance _count,
       CantWrap ∉ CG_Compound.printed (CG_Compound.unwrap self d_tolerance _count)).
Proof.
  split; [done|]. split; [by vm_compute|]. split.
  - intros freud_wrap. by apply wrap_without_box.
  - intros libraries self d_tolerance count. apply unwrap_from_never_CantWrap.
Qed.

(** ** Coarse-graining *)

(** C4: [coarse] walks the matches in their order with the set of claimed
    atoms, which holds the atoms of the matches accepted so far.  The next
    match is accepted when its pattern has a digit, or when none of its
    atoms is claimed; then all its atoms are claimed and it is the last
    accepted match.  Otherwise neither the claimed atoms nor the accepted
    matches change.  Of the matches (0, 1, 2) and (2, 3, 4) of patterns
    without a digit, in this order, the first alone is accepted. *)
Theorem C4_matches_are_accepted_in_order :
  (∀ matches group smarts name,
     (accept_all matches).1 = group_atoms (accept_all matches).2
     ∧ sublist (accept_all matches).2 matches
     ∧ accept_all (matches ++ [(group, smarts, name)]) =
       if decide (has_number smarts = true
                  ∨ Forall (fun atom => atom ∉ (accept_all matches).1) group)
       then (list_to_set group ∪ (accept_all matches).1,
             (accept_all matches).2 ++ [(group, smarts, name)])
       else accept_all matches)
  ∧ (∀ smarts smarts' name name',
       has_number smarts = false → has_number smarts' = false →
       accept_all [([0; 1; 2], smarts, name); ([2; 3; 4], smarts', name')]
       = ({[0; 1; 2]}, [([0; 1; 2], smarts, name)])).
Proof.
  split.
  - intros matches group smarts name.
    destruct (accept_all_spec matches) as [H1 H2]. split_and!; [done..|].
    rewrite accept_all_snoc. destruct (accept_all matches) as [seen bead_inds].
    apply accept_spec.
  - intros smarts smarts' name name' H H'.
    change (accept_all [([0; 1; 2], smarts, name); ([2; 3; 4], smarts', name')])
      with (accept (accept (∅, []) ([0; 1; 2], smarts, name)) ([2; 3; 4], smarts', name')).
    rewrite (accept_spec ∅), decide_True.
    2:{ right. apply Forall_forall. set_solver. }
    rewrite accept_spec, decide_False.
    + f_equal; set_solver.
    + rewrite H'. intros [?|Hall]; [done|].
      apply Forall_cons in Hall as [Hno _]. set_solver.
Qed.

(** C10: a pattern has a number exactly when one of its characters is a
    digit from 0 to 9; a match with an atom that is claimed already is
    accepted exactly when its pattern has a number; and what [coarse] does
    with a match depends on its pattern through [has_number] alone. *)
Theorem C10_a_digit_makes_a_pattern_ring_like :
  (∀ smarts,
     has_number smarts = true ↔
     ∃ c, c ∈ String.list_ascii_of_string smarts ∧ c ∈ digits)
  ∧ (∀ seen bead_inds group smarts name,
       ¬ Forall (fun atom => atom ∉ seen) group →
       accept (seen, bead_inds) (group, smarts, name) =
       if has_number smarts
       then (list_to_set group ∪ seen, bead_inds ++ [(group, smarts, name)])
       else (seen, bead_inds))
  ∧ (∀ seen bead_inds group smarts smarts' name,
       has_number smarts = has_number smarts' →
       (accept (seen, bead_inds) (group, smarts, name)).1
       = (accept (seen, bead_inds) (group, smarts', name)).1
       ∧ length (accept (seen, bead_inds) (group, smarts, name)).2
         = length (accept (seen, bead_inds) (group, smarts', name)).2).
Proof.
  split_and!.
  - apply has_number_spec.
  - intros seen bead_inds group smarts name Hclaimed. rewrite accept_spec.
    destruct (has_number smarts).
    + by rewrite decide_True by (by left).
    + rewrite decide_False; [done|]. by intros [?|?].
  - intros seen bead_inds group smarts smarts' name Heq. rewrite !accept_spec, Heq.
    case_decide; simpl; by rewrite ?length_app.
Qed.

(** C6 (amended): [coarse] raises [NameError] for a molecule without a
    unit cell and [AttributeError] for one without a bond.  For any other
    molecule it builds the atoms followed by one bead for every accepted
    match, and returns this compound when [atomistic] is true and what
    [remove_atomistic] makes of it when it is not.  A bead is named [_] and
    the letters of [num2str i], where [i] is the place of the pattern of its
    match in [bead_smarts], so the beads of one pattern share their label;
    below 702 patterns, two patterns have two labels.  The letters go A, B,
    ..., Z, AA, AB, ..., ZZ. *)
Theorem C6_beads_are_labelled_by_pattern remove_atomistic mol bead_smarts atomistic :
  match unitcell mol, OBMolBondIter mol with
  | None, _ => (coarse remove_atomistic mol bead_smarts atomistic).1 = inl NameError
  | Some _, [] => (coarse remove_atomistic mol bead_smarts atomistic).1 = inl AttributeError
  | Some _, _ :: _ =>
      ∃ comp beads,
        (coarse remove_atomistic mol bead_smarts atomistic).1
        = (if atomistic then inr comp else remove_atomistic comp)
        ∧ CG_Compound.particles comp = atoms mol ++ beads
        ∧ name <$> beads
          = (fun m : bead_match => m.2) <$> (accept_all (find_matches mol bead_smarts)).2
  end
  ∧ (∀ m, m ∈ (accept_all (find_matches mol bead_smarts)).2 →
       ∃ i group,
         bead_smarts !! i = Some m.1.2
         ∧ group ∈ findall mol m.1.2
         ∧ m = ((fun a => a - 1) <$> group, m.1.2, "_" +:+ num2str i))
  ∧ (∀ i j, i < 702 → j < 702 → num2str i = num2str j → i = j)
  ∧ num2str <$> [0; 1; 25; 26; 27; 51; 52; 701] = ["A"; "B"; "Z"; "AA"; "AB"; "AZ"; "BA"; "ZZ"].
Proof.
  split_and!; [| | |done].
  - destruct (coarse_raises remove_atomistic mol bead_smarts atomistic) as [Hcell Hbond].
    destruct (unitcell mol) as [maxs|] eqn:Hmaxs; [|by apply Hcell].
    destruct (OBMolBondIter mol) as [|bond bonds] eqn:Hbonds; [by apply Hbond|].
    destruct (coarse_result remove_atomistic mol bead_smarts atomistic maxs)
      as (cmpd & comp & beads & _ & Hret & Hparts & _ & Hnames & _); [done|by rewrite Hbonds|].
    by exists comp, beads.
  - intros m Hm.
    destruct (accept_all_spec (find_matches mol bead_smarts)) as [_ Hsub].
    eapply elem_of_sublist in Hm; [|done].
    apply elem_of_find_matches in Hm as (i & s & group & Hi & Hg & ->).
    by exists i, group.
  - apply num2str_inj.
Qed.

(** C6, as stated: [CCC] matches hexane twice without overlap, and the two
    beads are both labelled [_A]. *)
Lemma C6_two_beads_share_a_label :
  ∃ comp,
    (∀ remove_atomistic, (coarse remove_atomistic hexane ["CCC"] true).1 = inr comp)
    ∧ name <$> drop 6 (CG_Compound.particles comp) = ["_A"; "_A"].
Proof. eexists. split; [intros remove_atomistic; by vm_compute|]. done. Qed.

(** C5: take a compound of [N] atoms and the beads of the groups [beads],
    with bonds between atoms only.  Without a bond graph, [cg_bonds] raises
    [AttributeError]; with one, it returns the compound with the bonds
    [new] added.  For the groups at [i < j], the bond of bead [i] and bead
    [j] is in the result exactly when a bond of the compound joins an atom
    of one group to an atom of the other, and the result has at most one
    bond between the two beads. *)
Theorem C5_one_bond_for_every_two_bonded_groups comp beads N :
  length (CG_Compound.particles comp) = N + length beads →
  (∀ bond, bond ∈ CG_Compound.bonds comp → bond.1 < N ∧ bond.2 < N) →
  match CG_Compound.bond_graph comp with
  | None => cg_bonds comp beads N = inl AttributeError
  | Some _ =>
      ∃ comp' new,
        cg_bonds comp beads N = inr comp'
        ∧ CG_Compound.particles comp' = CG_Compound.particles comp
        ∧ CG_Compound.bonds comp' = CG_Compound.bonds comp ++ new
        ∧ ∀ i j m_i m_j,
            i < j → beads !! i = Some m_i → beads !! j = Some m_j →
            ((i + N, j + N) ∈ CG_Compound.bonds comp' ↔
             ∃ bond, bond ∈ CG_Compound.bonds comp ∧ crosses bond m_i.1.1 m_j.1.1)
            ∧ (j + N, i + N) ∉ CG_Compound.bonds comp'
            ∧ length (filter (fun bond => bond = (i + N, j + N) ∨ bond = (j + N, i + N))
                             (CG_Compound.bonds comp')) ≤ 1
  end.
Proof.
  intros Hlen Hatoms.
  destruct (CG_Compound.bond_graph comp) as [edges|] eqn:Hgraph.
  2:{ unfold cg_bonds. by rewrite get_bonds_spec, Hgraph. }
  destruct (cg_bonds_spec comp beads N) as (comp' & new & Hret & Hparts & Hbonds & Hnd & Hnew);
    [congruence|done..|].
  exists comp', new. split_and!; [done..|].
  intros i j m_i m_j Hlt Hi Hj.
  assert (∀ a b, (a + N, b + N) ∉ CG_Compound.bonds comp) as Hbeads.
  { intros a b Hin. apply Hatoms in Hin. simpl in Hin. lia. }
  assert ((j + N, i + N) ∉ new) as Hswap.
  { intros (i' & j' & _ & _ & Hlt' & _ & _ & [= ? ?] & _)%Hnew. lia. }
  split_and!.
  - rewrite Hbonds, elem_of_app, Hnew. split.
    + intros [Hin|(i' & j' & m_i' & m_j' & _ & Hi' & Hj' & [= ? ?] & Hc)];
        [by apply Hbeads in Hin|].
      assert (i' = i) as -> by lia. assert (j' = j) as -> by lia. by simplify_eq.
    + intros Hc. right. by exists i, j, m_i, m_j.
  - rewrite Hbonds. intros [Hin|Hin]%elem_of_app; [by apply Hbeads in Hin|done].
  - rewrite Hbonds, filter_app, length_app, filter_none.
    + simpl. by apply NoDup_filter_pair.
    + intros bond Hin [->| ->]; by apply Hbeads in Hin.
Qed.

Lemma C5_one_bond_for_every_two_bonded_groups_witness :
  length (CG_Compound.particles hexane_with_beads) = 6 + length hexane_beads
  ∧ (∀ bond, bond ∈ CG_Compound.bonds hexane_with_beads → bond.1 < 6 ∧ bond.2 < 6)
  ∧ ∃ comp' new,
      cg_bonds hexane_with_beads hexane_beads 6 = inr comp'
      ∧ CG_Compound.particles comp' = CG_Compound.particles hexane_with_beads
      ∧ CG_Compound.bonds comp' = CG_Compound.bonds hexane_with_beads ++ new
      ∧ ∀ i j m_i m_j,
          i < j → hexane_beads !! i = Some m_i → hexane_beads !! j = Some m_j →
          ((i + 6, j + 6) ∈ CG_Compound.bonds comp' ↔
           ∃ bond, bond ∈ CG_Compound.bonds hexane_with_beads ∧ crosses bond m_i.1.1 m_j.1.1)
          ∧ (j + 6, i + 6) ∉ CG_Compound.bonds comp'
          ∧ length (filter (fun bond => bond = (i + 6, j + 6) ∨ bond = (j + 6, i + 6))
                           (CG_Compound.bonds comp')) ≤ 1.
Proof.
  assert (∀ bond, bond ∈ CG_Compound.bonds hexane_with_beads → bond.1 < 6 ∧ bond.2 < 6)
    as Hatoms.
  { intros bond Hb.
    replace (CG_Compound.bonds hexane_with_beads)
      with [(0, 1); (1, 2); (2, 3); (3, 4); (4, 5)] in Hb by (by vm_compute).
    repeat (apply elem_of_cons in Hb as [->|Hb]; [simpl; lia|]).
    by apply elem_of_nil in Hb. }
  split; [by vm_compute|]. split; [exact Hatoms|].
  apply (C5_one_bond_for_every_two_bonded_groups hexane_with_beads hexane_beads 6
           ltac:(by vm_compute) Hatoms).
Defined.

(** * Further properties of the code *)

(** X1: the molecules [get_molecules] returns for a snapshot are the
    connected components of its bonds.  A molecule is not empty, any two
    of its particles are joined by a chain of bonds, and a particle bonded
    to a particle of a molecule is in that molecule; no two molecules
    share a particle; and two bonded particles are in a molecule. *)
Theorem get_molecules_gives_the_connected_components snapshot :
  ∃ molecules,
    get_molecules snapshot = Some molecules
    ∧ pairwise_disjoint molecules
    ∧ (∀ a b, bonded (bonds_group snapshot) a b → ∃ m, m ∈ molecules ∧ a ∈ m ∧ b ∈ m)
    ∧ ∀ m, m ∈ molecules →
        m ≠ ∅
        ∧ (∀ a b, a ∈ m → b ∈ m → rtc (bonded (bonds_group snapshot)) a b)
        ∧ (∀ a b, bonded (bonds_group snapshot) a b → a ∈ m → b ∈ m).
Proof.
  destruct (get_molecules_spec snapshot) as (molecules & Hmol & Hpd & Hunion).
  exists molecules. split; [done|]. split; [done|].
  assert (∀ m, m ∈ molecules →
            m ≠ ∅
            ∧ (∀ a b, a ∈ m → b ∈ m → rtc (bonded (bonds_group snapshot)) a b)
            ∧ (∀ a b, bonded (bonds_group snapshot) a b → a ∈ m → b ∈ m)) as Hcomp.
  { intros m Hm.
    pose proof (get_molecules_components snapshot molecules Hmol) as Hall.
    rewrite Forall_forall in Hall. destruct (Hall m Hm) as [(root & Hroot & Hreach) Hclosed].
    rewrite _snap_bond_graph_of_bonds in Hreach, Hclosed.
    assert (∀ x, x ∈ m → rtc (bonded (bonds_group snapshot)) root x) as Hreach'.
    { intros x Hx. eapply rtc_subrel; [|apply Hreach, Hx].
      intros a b Hab. apply of_bonds_get in Hab. exact Hab. }
    split_and!.
    - set_solver.
    - intros a b Ha Hb. etrans; [|by apply Hreach'].
      apply rtc_symmetric; [|by apply Hreach']. unfold bonded. tauto.
    - intros a b Hab Ha. apply (Hclosed a Ha). by apply of_bonds_get. }
  split; [|done]. intros a b Hab.
  assert (a ∈ ⋃ molecules) as Ha.
  { apply Hunion. destruct Hab as [Hab|Hab]; eexists; (split; [exact Hab|]); simpl; tauto. }
  apply elem_of_union_list in Ha as (m & Hm & Ha).
  exists m. split_and!; [done..|]. destruct (Hcomp m Hm) as (_ & _ & Hclosed).
  by apply (Hclosed a b).
Qed.

(** X2: [bond_dict] maps a particle to the particles it is bonded to, so it
    is symmetric, and its keys are the particles with a bond; reading the
    entry of any other particle gives the empty set. *)
Theorem bond_dict_holds_the_bonded_neighbours self i j :
  (j ∈ dd_get (CG_Compound.bond_dict self) i ↔
   (i, j) ∈ CG_Compound.bonds self ∨ (j, i) ∈ CG_Compound.bonds self)
  ∧ (j ∈ dd_get (CG_Compound.bond_dict self) i ↔ i ∈ dd_get (CG_Compound.bond_dict self) j)
  ∧ (i ∈ dd_keys (CG_Compound.bond_dict self) ↔
     ∃ bond, bond ∈ CG_Compound.bonds self ∧ (i = bond.1 ∨ i = bond.2))
  ∧ (i ∉ dd_keys (CG_Compound.bond_dict self) → dd_get (CG_Compound.bond_dict self) i = ∅).
Proof.
  rewrite bond_dict_of_bonds. split_and!.
  - apply of_bonds_get.
  - rewrite !of_bonds_get. tauto.
  - rewrite <- of_bonds_dom. unfold dd_dom. by rewrite elem_of_list_to_set.
  - intros Hi. apply (dd_ok_key _ (of_bonds_ok _)). unfold dd_dom.
    by rewrite elem_of_list_to_set.
Qed.

(** X3: [get_bonds] raises [AttributeError] on a compound without a bond
    graph.  Otherwise it returns as many pairs as the compound has bonds,
    each with the lower index first, sorted by first and then by second
    index; a pair is in it exactly when its two particles are bonded. *)
Theorem get_bonds_is_sorted_with_the_lower_index_first self :
  match CG_Compound.bond_graph self with
  | None => CG_Compound.get_bonds self = inl AttributeError
  | Some edges =>
      ∃ pairs,
        CG_Compound.get_bonds self = inr pairs
        ∧ Sorted CG_Compound.pair_le pairs
        ∧ length pairs = length edges
        ∧ ∀ a b, (a, b) ∈ pairs ↔ a ≤ b ∧ ((a, b) ∈ edges ∨ (b, a) ∈ edges)
  end.
Proof.
  rewrite get_bonds_spec.
  pose proof (get_bonds_Sorted self) as Hsorted.
  pose proof (get_bonds_length self) as Hlength.
  pose proof (elem_of_get_bonds_iff self) as Hiff.
  unfold CG_Compound.bonds in Hlength, Hiff.
  destruct (CG_Compound.bond_graph self) as [edges|]; [|done].
  by exists (sorted_bonds self).
Qed.

(** X4: whatever [unwrap] does, raising included, it only moves particles:
    the compound it leaves has the same particle names in the same order,
    the same bond graph, so the same bonds, and the same box. *)
Theorem unwrap_only_moves_particles {libraries : Libraries} self d_tolerance _count :
  name <$> CG_Compound.particles (CG_Compound.final (CG_Compound.unwrap self d_tolerance _count))
  = name <$> CG_Compound.particles self
  ∧ length (CG_Compound.particles (CG_Compound.final (CG_Compound.unwrap self d_tolerance _count)))
    = length (CG_Compound.particles self)
  ∧ CG_Compound.bond_graph (CG_Compound.final (CG_Compound.unwrap self d_tolerance _count))
    = CG_Compound.bond_graph self
  ∧ CG_Compound.bonds (CG_Compound.final (CG_Compound.unwrap self d_tolerance _count))
    = CG_Compound.bonds self
  ∧ CG_Compound.box (CG_Compound.final (CG_Compound.unwrap self d_tolerance _count))
    = CG_Compound.box self.
Proof.
  destruct (unwrap_from_same_frame d_tolerance (S (5 - _count)) self _count)
    as (Hnames & Hgraph & Hbox).
  fold (CG_Compound.unwrap self d_tolerance _count) in Hnames, Hgraph, Hbox.
  split_and!; [done| |done| |done].
  - by rewrite <- (length_fmap name), Hnames, length_fmap.
  - unfold CG_Compound.bonds. by rewrite Hgraph.
Qed.

(** X5: below 702, [num2str] gives capital letters only: one letter below
    26, two letters from 26 on. *)
Theorem num2str_gives_capital_letters_below_702 num :
  num < 702 →
  Forall is_capital (String.list_ascii_of_string (num2str num))
  ∧ String.length (num2str num) = if num <? 26 then 1 else 2.
Proof. intros Hnum. by apply num2str_capitals. Qed.

Lemma num2str_gives_capital_letters_below_702_witness :
  701 < 702
  ∧ Forall is_capital (String.list_ascii_of_string (num2str 701))
  ∧ String.length (num2str 701) = 2.
Proof.
  split; [lia|]. apply (num2str_gives_capital_letters_below_702 701). lia.
Defined.

(** X6: [wrap] on a compound with a box prints nothing and wraps a particle
    once for each of its coordinates that is out of the box, each time from
    the position the wrap before left; a particle with no coordinate out of
    the box is not moved.  Names, bonds and box stay. *)
Theorem wrap_wraps_once_for_each_coordinate_out_of_the_box
    freud_wrap self box row particle :
  CG_Compound.box self = Some box →
  CG_Compound.particles self !! row = Some particle →
  (CG_Compound.wrap freud_wrap self).2 = []
  ∧ CG_Compound.particles (CG_Compound.wrap freud_wrap self).1 !! row
    = Some (moved particle
              (Nat.iter (out_of_box box (pos particle)) (freud_wrap box) (pos particle)))
  ∧ CG_Compound.bonds (CG_Compound.wrap freud_wrap self).1 = CG_Compound.bonds self
  ∧ CG_Compound.box (CG_Compound.wrap freud_wrap self).1 = CG_Compound.box self.
Proof.
  intros Hbox Hrow. unfold CG_Compound.wrap. rewrite Hbox. simpl.
  split; [done|]. split.
  - rewrite (foldl_wrap_lookup freud_wrap box _ self row particle Hrow).
    by rewrite (rows_out_of_box_count self box row particle Hrow).
  - destruct (foldl_wrap_same_frame freud_wrap box (CG_Compound.rows_out_of_box self box) self)
      as (_ & Hgraph & Hbox').
    split; [|by rewrite Hbox']. unfold CG_Compound.bonds. by rewrite Hgraph.
Qed.

Lemma wrap_wraps_once_for_each_coordinate_out_of_the_box_witness :
  CG_Compound.box three = Some (10, 10, 10)%float
  ∧ CG_Compound.particles three !! 2 = Some (atom 9.9)
  ∧ out_of_box (10, 10, 10)%float (pos (atom 9.9)) = 1
  ∧ (CG_Compound.wrap wrap_down three).2 = []
  ∧ CG_Compound.particles (CG_Compound.wrap wrap_down three).1 !! 2
    = Some (moved (atom 9.9)
              (Nat.iter (out_of_box (10, 10, 10)%float (pos (atom 9.9)))
                        (wrap_down (10, 10, 10)%float) (pos (atom 9.9))))
  ∧ CG_Compound.bonds (CG_Compound.wrap wrap_down three).1 = CG_Compound.bonds three
  ∧ CG_Compound.box (CG_Compound.wrap wrap_down three).1 = CG_Compound.box three.
Proof.
  split; [reflexivity|]. split; [reflexivity|]. split; [by vm_compute|].
  apply (wrap_wraps_once_for_each_coordinate_out_of_the_box wrap_down three); reflexivity.
Defined.

(** X7: [unwrap_position] does not look at the order of the two indices:
    for two particles of a compound with a box it returns what freud's
    unwrap makes of the position of the particle of higher index and the
    image taken from the position of the other minus its own, for [tup]
    and for [tup[::-1]] alike. *)
Theorem unwrap_position_moves_the_particle_of_higher_index {libraries : Libraries}
    self a b p_a p_b box :
  a < b →
  CG_Compound.particles self !! a = Some p_a →
  CG_Compound.particles self !! b = Some p_b →
  CG_Compound.box self = Some box →
  CG_Compound.unwrap_position self (a, b)
  = inr (freud_unwrap box (pos p_b) (CG_Compound.img_of (vsub (pos p_a) (pos p_b)) box))
  ∧ CG_Compound.unwrap_position self (b, a) = CG_Compound.unwrap_position self (a, b).
Proof.
  intros Hab Ha Hb Hbox. unfold CG_Compound.unwrap_position. rewrite Hbox.
  rewrite (particle_pair_swap self b a), (particle_pair_lt self a b p_a p_b) by done.
  done.
Qed.

Section UnwrapPositionExample.

#[local] Existing Instance example_libraries.

Lemma unwrap_position_moves_the_particle_of_higher_index_witness :
  0 < 2
  ∧ CG_Compound.particles three !! 0 = Some (atom 0.1)
  ∧ CG_Compound.particles three !! 2 = Some (atom 9.9)
  ∧ CG_Compound.box three = Some (10, 10, 10)%float
  ∧ CG_Compound.unwrap_position three (0, 2)
    = inr (freud_unwrap (10, 10, 10)%float (pos (atom 9.9))
             (CG_Compound.img_of (vsub (pos (atom 0.1)) (pos (atom 9.9))) (10, 10, 10)%float))
  ∧ CG_Compound.unwrap_position three (2, 0) = CG_Compound.unwrap_position three (0, 2).
Proof.
  split; [lia|]. split; [reflexivity|]. split; [reflexivity|]. split; [reflexivity|].
  apply (unwrap_position_moves_the_particle_of_higher_index three 0 2); [lia|reflexivity..].
Defined.

End UnwrapPositionExample.

(** X8: [unwrap_position] raises [TypeError] when the box is not set, and,
    with a box, [IndexError] when the two indices are the same or one of
    them is no particle of the compound. *)
Theorem unwrap_position_raises {libraries : Libraries} self a b :
  (CG_Compound.box self = None →
   CG_Compound.unwrap_position self (a, b) = inl TypeError)
  ∧ (CG_Compound.box self ≠ None →
     a = b ∨ length (CG_Compound.particles self) ≤ a ∨ length (CG_Compound.particles self) ≤ b →
     CG_Compound.unwrap_position self (a, b) = inl IndexError).
Proof.
  unfold CG_Compound.unwrap_position. split.
  - by intros ->.
  - intros Hbox Hab. destruct (CG_Compound.box self) as [box|]; [|done].
    pose proof (particle_pair_short self a b Hab) as Hlen.
    destruct (CG_Compound.particle_pair self (a, b)) as [|p_0 [|p_1 ?]]; [done..|].
    simpl in Hlen. lia.
Qed.

(** X9: [is_bad_bond] does not depend on the order of the two indices.
    It raises [AttributeError] on a compound without a bond graph; on one
    with a bond graph it prints that the bond is not found and returns
    [None] exactly when the two particles are not bonded; and for two
    bonded particles of a compound with a box it tells whether the
    positions differ by more than half the box along some axis. *)
Theorem is_bad_bond_tests_the_bond_whatever_the_order self a b :
  CG_Compound.is_bad_bond self (a, b) = CG_Compound.is_bad_bond self (b, a)
  ∧ (CG_Compound.bond_graph self = None →
     CG_Compound.is_bad_bond self (a, b) = inl AttributeError)
  ∧ (CG_Compound.bond_graph self ≠ None →
     (CG_Compound.is_bad_bond self (a, b) = inr None ↔ ¬ bonded (CG_Compound.bonds self) a b))
  ∧ ∀ p_a p_b Lx Ly Lz,
      bonded (CG_Compound.bonds self) a b → a < b →
      CG_Compound.particles self !! a = Some p_a →
      CG_Compound.particles self !! b = Some p_b →
      CG_Compound.box self = Some (Lx, Ly, Lz) →
      CG_Compound.is_bad_bond self (a, b)
      = inr (Some (let '(dx, dy, dz) := vsub (pos p_a) (pos p_b) in
                   (Lx / 2 <? abs dx)%float || (Ly / 2 <? abs dy)%float
                   || (Lz / 2 <? abs dz)%float)).
Proof.
  split_and!.
  - apply is_bad_bond_swap.
  - apply is_bad_bond_no_bond_graph.
  - apply is_bad_bond_None.
  - intros p_a p_b Lx Ly Lz Hb Hab Ha Hpb Hbox.
    assert (CG_Compound.bond_graph self ≠ None) as Hgraph.
    { intros Hnone. unfold bonded, CG_Compound.bonds in Hb. rewrite Hnone in Hb.
      destruct Hb as [Hb|Hb]; by apply elem_of_nil in Hb. }
    pose proof (is_bad_bond_None self a b Hgraph) as Hnone.
    unfold CG_Compound.is_bad_bond in *. rewrite get_bonds_inr in * by done.
    unfold mbind, outcome_bind in *. cbn [fst snd] in *.
    rewrite (particle_pair_lt self a b p_a p_b) in * by done.
    case_decide as Hd; [exfalso; by apply Hnone|].
    rewrite Hbox. by destruct (vsub (pos p_a) (pos p_b)) as [[dx dy] dz].
Qed.

(** X10: when [amber_to_element] returns, every particle has the element
    symbol [amber_dict] gives for its name, at its position, and bonds and
    box are as before.  No element symbol is a key of [amber_dict], so
    another call on the compound, when it has a particle, raises the
    [KeyError] of the name of the first particle and changes nothing. *)
Theorem amber_to_element_renames_once self self' :
  CG_Compound.amber_to_element self = (self', None) →
  Forall2 (fun p p' => CG_Compound.amber_dict_get (name p) = Some (name p') ∧ pos p' = pos p)
          (CG_Compound.particles self) (CG_Compound.particles self')
  ∧ Forall (fun p' => name p' ∈ element_symbols) (CG_Compound.particles self')
  ∧ CG_Compound.bonds self' = CG_Compound.bonds self
  ∧ CG_Compound.box self' = CG_Compound.box self
  ∧ ∀ p' rest,
      CG_Compound.particles self' = p' :: rest →
      CG_Compound.amber_to_element self' = (self', Some (name p')).
Proof.
  unfold CG_Compound.amber_to_element.
  destruct (CG_Compound.amber_rename (CG_Compound.particles self)) as [renamed e] eqn:E.
  intros [= <- ->]. simpl. apply amber_rename_None in E.
  assert (Forall (fun p' => name p' ∈ element_symbols
                            ∧ CG_Compound.amber_dict_get (name p') = None) renamed) as Hall.
  { apply Forall_forall. intros p' Hp'.
    apply list_elem_of_lookup in Hp' as [i Hi].
    destruct (Forall2_lookup_r _ _ _ _ _ E Hi) as (p & _ & Hp & _).
    by apply amber_dict_values in Hp. }
  split_and!; [done| |done..|].
  - eapply Forall_impl; [exact Hall|]. by intros p' [? _].
  - intros p' rest ->. apply Forall_cons in Hall as [[_ Hnone] _].
    cbn [CG_Compound.amber_rename]. by rewrite Hnone.
Qed.

Lemma amber_to_element_renames_once_witness :
  ∃ self',
    CG_Compound.amber_to_element amber_pair = (self', None)
    ∧ name <$> CG_Compound.particles self' = ["C"; "H"]
    ∧ Forall2 (fun p p' => CG_Compound.amber_dict_get (name p) = Some (name p') ∧ pos p' = pos p)
              (CG_Compound.particles amber_pair) (CG_Compound.particles self')
    ∧ Forall (fun p' => name p' ∈ element_symbols) (CG_Compound.particles self')
    ∧ CG_Compound.bonds self' = CG_Compound.bonds amber_pair
    ∧ CG_Compound.box self' = CG_Compound.box amber_pair
    ∧ ∀ p' rest,
        CG_Compound.particles self' = p' :: rest →
        CG_Compound.amber_to_element self' = (self', Some (name p')).
Proof.
  eexists. split; [by vm_compute|]. split; [reflexivity|].
  apply (amber_to_element_renames_once amber_pair). by vm_compute.
Defined.

(** X11: when [amber_to_element] raises a [KeyError], it has renamed the
    particles before the first one whose name is no key of [amber_dict],
    the key of the error is the name of that particle, and that particle
    and the ones after it are as they were. *)
Theorem amber_to_element_stops_at_the_first_unknown_name self self' key :
  CG_Compound.amber_to_element self = (self', Some key) →
  ∃ before before' particle after,
    CG_Compound.particles self = before ++ particle :: after
    ∧ CG_Compound.particles self' = before' ++ particle :: after
    ∧ name particle = key
    ∧ CG_Compound.amber_dict_get key = None
    ∧ Forall2 (fun p p' => CG_Compound.amber_dict_get (name p) = Some (name p') ∧ pos p' = pos p)
              before before'.
Proof.
  unfold CG_Compound.amber_to_element.
  destruct (CG_Compound.amber_rename (CG_Compound.particles self)) as [renamed e] eqn:E.
  intros [= <- ->]. simpl. by apply amber_rename_Some.
Qed.

Lemma amber_to_element_stops_at_the_first_unknown_name_witness :
  ∃ self',
    CG_Compound.amber_to_element amber_mixed = (self', Some "C")
    ∧ name <$> CG_Compound.particles self' = ["C"; "C"; "hc"]
    ∧ ∃ before before' particle after,
        CG_Compound.particles amber_mixed = before ++ particle :: after
        ∧ CG_Compound.particles self' = before' ++ particle :: after
        ∧ name particle = "C"
        ∧ CG_Compound.amber_dict_get "C" = None
        ∧ Forall2 (fun p p' => CG_Compound.amber_dict_get (name p) = Some (name p')
                               ∧ pos p' = pos p)
                  before before'.
Proof.
  eexists. split; [by vm_compute|]. split; [reflexivity|].
  apply (amber_to_element_stops_at_the_first_unknown_name amber_mixed). by vm_compute.
Defined.

(** X12: [get_decorr] returns an index of the array; every entry before it
    is above 0, and the entry at it is not above 0, unless no entry is:
    then it returns 0, as it does when the first entry is not above 0. *)
Theorem get_decorr_is_the_first_entry_not_above_zero acorr k :
  get_decorr acorr = Some k →
  k < length acorr
  ∧ (∀ i x, i < k → acorr !! i = Some x → (0 <? x)%float = true)
  ∧ ((∃ x, acorr !! k = Some x ∧ (0 <? x)%float = false)
     ∨ (k = 0 ∧ Forall (fun x => (0 <? x)%float = true) acorr)).
Proof. apply get_decorr_spec. Qed.

Lemma get_decorr_is_the_first_entry_not_above_zero_witness :
  get_decorr acorr_example = Some 2
  ∧ 2 < length acorr_example
  ∧ (∀ i x, i < 2 → acorr_example !! i = Some x → (0 <? x)%float = true)
  ∧ ((∃ x, acorr_example !! 2 = Some x ∧ (0 <? x)%float = false)
     ∨ (2 = 0 ∧ Forall (fun x => (0 <? x)%float = true) acorr_example)).
Proof.
  split; [by vm_compute|].
  apply (get_decorr_is_the_first_entry_not_above_zero acorr_example 2). by vm_compute.
Defined.

(** X13: [coarse] prints a line for every pattern without a match, in
    the order of the patterns, and then the warning when the number of
    heavy atoms is not the number of atoms in accepted matches.  On a
    molecule whose matches are made of its atoms, it then raises
    [NameError] without a unit cell and [AttributeError] without a bond.
    Otherwise it builds a compound with the atoms of the molecule first
    and then, for every accepted match in order, a bead with the name of
    the match at the mean of the positions of its atoms; the bonds of the
    atoms come first in its bonds, and its box is the unit cell of the
    molecule.  With [atomistic=True] it returns this compound, and else
    what [remove_atomistic] makes of it. *)
Theorem coarse_adds_a_bead_at_the_mean_of_each_accepted_match
    remove_atomistic mol bead_smarts atomistic :
  matches_in_range mol →
  (coarse remove_atomistic mol bead_smarts atomistic).2
  = (NotFound <$> filter (fun smart_str => findall mol smart_str = []) bead_smarts)
    ++ (if decide (NumHvyAtoms mol ≠ size (accept_all (find_matches mol bead_smarts)).1)
        then [LeftOut] else [])
  ∧ match unitcell mol, OBMolBondIter mol with
    | None, _ => (coarse remove_atomistic mol bead_smarts atomistic).1 = inl NameError
    | Some _, [] => (coarse remove_atomistic mol bead_smarts atomistic).1 = inl AttributeError
    | Some maxs, _ :: _ =>
        ∃ cmpd comp,
          from_pybel mol = inr cmpd
          ∧ (coarse remove_atomistic mol bead_smarts atomistic).1
            = (if atomistic then inr comp else remove_atomistic comp)
          ∧ CG_Compound.particles comp
            = atoms mol
              ++ ((fun m : bead_match =>
                     {| name := m.2;
                        pos := mean_axis0 (CG_Compound.xyz_rows cmpd m.1.1) |})
                  <$> (accept_all (find_matches mol bead_smarts)).2)
          ∧ CG_Compound.bonds cmpd `prefix_of` CG_Compound.bonds comp
          ∧ CG_Compound.box comp = Some maxs
    end.
Proof.
  intros Hmol. split; [apply coarse_printed|].
  destruct (coarse_raises remove_atomistic mol bead_smarts atomistic) as [Hcell Hbond].
  destruct (unitcell mol) as [maxs|] eqn:Hmaxs; [|by apply Hcell].
  destruct (OBMolBondIter mol) as [|bond bonds] eqn:Hbonds; [by apply Hbond|].
  destruct (coarse_result remove_atomistic mol bead_smarts atomistic maxs)
    as (cmpd & comp & beads & Hcmpd & Hret & Hparts & Hlen & _ & Hpre & Hbox & Hbeads);
    [done|by rewrite Hbonds|].
  exists cmpd, comp. split_and!; [done|done| |done..].
  rewrite Hparts. f_equal. apply list_eq. intros k. rewrite list_lookup_fmap.
  destruct ((accept_all (find_matches mol bead_smarts)).2 !! k) as [m|] eqn:Hk.
  - apply Hbeads; [done|]. eapply accepted_in_range; [done|].
    by eapply list_elem_of_lookup_2.
  - apply lookup_ge_None. rewrite Hlen. by apply lookup_ge_None.
Qed.

Lemma coarse_adds_a_bead_at_the_mean_of_each_accepted_match_witness :
  matches_in_range hexane
  ∧ (accept_all (find_matches hexane ["CCC"])).2
    = [([0; 1; 2], "CCC", "_A"); ([3; 4; 5], "CCC", "_A")]
  ∧ from_pybel hexane = inr hexane_compound
  ∧ ∀ remove_atomistic,
      (coarse remove_atomistic hexane ["CCC"] true).2 = []
      ∧ ∃ cmpd comp,
          from_pybel hexane = inr cmpd
          ∧ (coarse remove_atomistic hexane ["CCC"] true).1 = inr comp
          ∧ CG_Compound.particles comp
            = atoms hexane
              ++ ((fun m : bead_match =>
                     {| name := m.2;
                        pos := mean_axis0 (CG_Compound.xyz_rows cmpd m.1.1) |})
                  <$> (accept_all (find_matches hexane ["CCC"])).2)
          ∧ CG_Compound.bonds cmpd `prefix_of` CG_Compound.bonds comp
          ∧ CG_Compound.box comp = Some (10, 10, 10)%float.
Proof.
  assert (matches_in_range hexane) as Hmol.
  { intros smart_str group i Hgroup Hi. simpl in Hgroup. case_decide; [|by apply elem_of_nil in Hgroup].
    repeat (apply elem_of_cons in Hgroup as [->|Hgroup];
            [repeat (apply elem_of_cons in Hi as [->|Hi]; [simpl; lia|]);
             by apply elem_of_nil in Hi|]).
    by apply elem_of_nil in Hgroup. }
  split; [exact Hmol|]. split; [by vm_compute|]. split; [by vm_compute|].
  intros remove_atomistic.
  apply (coarse_adds_a_bead_at_the_mean_of_each_accepted_match
           remove_atomistic hexane ["CCC"] true Hmol).
Defined.

Section PolySmilesProperties.

Import Stdlib.Strings.Ascii.

(** X14: [poly_smiles] wants one character between two ["*"].  Without a
    ["*"] in the string it prints that the site is to be identified, and
    with ["*"] placed in any other way that only one site is to be
    selected; both times it returns [None].  With one character marked it
    prints nothing, and when [length] is not positive it has the
    converter decode the string of the two braces. *)
Theorem poly_smiles_wants_one_character_between_two_stars
    {R : Type} (encode decode : list ascii → R) (monomer_string : list ascii) (n : Z) :
  ("*"%char ∉ monomer_string →
   polysmiles.poly_smiles encode decode monomer_string n
   = inr (["ERROR: Identify the wanted polymerization site using *x*"],
          polysmiles.NoneValue))
  ∧ ("*"%char ∈ monomer_string → ¬ marks_one_character monomer_string →
     polysmiles.poly_smiles encode decode monomer_string n
     = inr (["ERROR: Select only one polymerization site using *x*"],
            polysmiles.NoneValue))
  ∧ (marks_one_character monomer_string →
     (∀ out, polysmiles.poly_smiles encode decode monomer_string n = inr out → out.1 = [])
     ∧ ((n ≤ 0)%Z →
        polysmiles.poly_smiles encode decode monomer_string n
        = inr ([], polysmiles.Converted (decode ["{"; "}"]%char)))).
Proof.
  split_and!.
  - intros Hstar. unfold polysmiles.poly_smiles.
    destruct (polysmiles.count_atoms_brackets monomer_string) as [atom_count bracket_count].
    rewrite decide_True; [done|]. by rewrite elem_of_monomer_list.
  - intros Hstar Hsite. unfold polysmiles.poly_smiles.
    destruct (polysmiles.count_atoms_brackets monomer_string) as [atom_count bracket_count].
    cbv zeta. rewrite decide_False by (rewrite elem_of_monomer_list; tauto).
    destruct (fst <$> filter _ _) as [|key_0 [|key_1 [|? ?]]] eqn:Hkeys; [done..| |done].
    case_decide as Hapart; [done|]. destruct Hsite.
    apply (key_indices_two_apart _ key_0 key_1); [done|lia].
  - intros (pre & x & post & -> & Hpre & Hx & Hpost).
    rewrite poly_smiles_site by done. split.
    + intros out. destruct (polysmiles.format_loop _ _ _ _ _) as [e|polymer]; [done|].
      intros [= <-]. unfold polysmiles.convert_smiles. simpl. by destruct polymer.
    + intros Hn. replace (Z.to_nat n) with 0 by lia. done.
Qed.

(** X15: for a string without braces in which one character is marked,
    [poly_smiles] with a positive [length] has the converter decode the
    polymer: the monomer without its two ["*"], with, before it, as many
    copies of its part up to the marked character as there are more
    repeats, and after it as many copies of the closing brackets and the
    part after the site. *)
Theorem poly_smiles_nests_the_monomer_at_the_marked_character
    {R : Type} (encode decode : list ascii → R) (pre post : list ascii) (x : ascii) (n : nat) :
  "*"%char ∉ pre → x ≠ "*"%char → "*"%char ∉ post →
  brace_free (pre ++ x :: post) →
  polysmiles.poly_smiles encode decode (pre ++ "*"%char :: x :: "*"%char :: post)
    (Z.of_nat (S n))
  = inr ([], polysmiles.Converted
               (decode (copies n (pre ++ [x])
                        ++ (pre ++ x :: post)
                        ++ copies n (replicate
                                       (closing (pre ++ "*"%char :: x :: "*"%char :: post))
                                       ")"%char ++ post)))).
Proof.
  intros Hpre Hx Hpost Hfree. rewrite poly_smiles_site by done.
  apply (brace_free_app pre (x :: post)) in Hfree as [Hfree_pre Hfree_post].
  apply (brace_free_app [x] post) in Hfree_post as [Hfree_x Hfree_post].
  pose proof (format_loop_spec (pre ++ [x])
                (replicate (closing (pre ++ "*"%char :: x :: "*"%char :: post)) ")"%char ++ post)
                (pre ++ x :: post) n 0 [] []) as Hloop.
  rewrite <- !app_assoc in Hloop. cbn [app] in Hloop. change (0 + n) with n in Hloop.
  rewrite Nat2Z.id. cbn [app].
  rewrite Hloop; clear Hloop.
  - rewrite app_nil_r. unfold polysmiles.convert_smiles.
    destruct (copies n (pre ++ [x]) ++ pre ++ x :: post ++ _) as [|c polymer] eqn:Hpolymer;
      [|].
    2:{ cbn [polysmiles.truthy andb fst snd default from_option]. rewrite <- Hpolymer.
        do 3 f_equal. by rewrite <- (app_assoc pre). }
    apply (f_equal length) in Hpolymer. rewrite !length_app in Hpolymer.
    simpl in Hpolymer. lia.
  - by apply brace_free_app.
  - apply brace_free_app. split; [apply brace_free_replicate|done].
  - split; apply not_elem_of_nil.
  - split; apply not_elem_of_nil.
Qed.

Lemma poly_smiles_nests_the_monomer_at_the_marked_character_witness :
  "*"%char ∉ String.list_ascii_of_string "ccc"
  ∧ "c"%char ≠ "*"%char
  ∧ "*"%char ∉ String.list_ascii_of_string "cc6"
  ∧ brace_free (String.list_ascii_of_string "cccccc6")
  ∧ polysmiles.poly_smiles id id (String.list_ascii_of_string "ccc*c*cc6") 2
    = inr ([], polysmiles.Converted (String.list_ascii_of_string "cccccccccc6))))))cc6")).
Proof.
  assert ("*"%char ∉ String.list_ascii_of_string "ccc") as Hpre
    by (by apply (bool_decide_unpack _)).
  assert ("*"%char ∉ String.list_ascii_of_string "cc6") as Hpost
    by (by apply (bool_decide_unpack _)).
  assert (brace_free (String.list_ascii_of_string "cccccc6")) as Hfree
    by (split; by apply (bool_decide_unpack _)).
  split; [exact Hpre|]. split; [done|]. split; [exact Hpost|]. split; [exact Hfree|].
  apply (poly_smiles_nests_the_monomer_at_the_marked_character id id
           (String.list_ascii_of_string "ccc") (String.list_ascii_of_string "cc6") "c"%char 1);
    [exact Hpre|done|exact Hpost|exact Hfree].
Defined.

End PolySmilesProperties.

(** X16: [unwrap] raises in three cases only: [AttributeError] on a
    compound without a bond graph, [TypeError] on a compound without a
    box, and [RuntimeError] with a bond of the compound. *)
Theorem unwrap_raises_for_three_reasons {libraries : Libraries} self d_tolerance _count e :
  CG_Compound.raised (CG_Compound.unwrap self d_tolerance _count) = Some e →
  (e = AttributeError ∧ CG_Compound.bond_graph self = None)
  ∨ (e = TypeError ∧ CG_Compound.box self = None)
  ∨ ∃ tup, tup ∈ CG_Compound.bonds self ∧ e = RuntimeError tup.
Proof.
  intros Hraised. pose proof Hraised as Hfuel.
  apply unwrap_from_raises in Hraised as [->|H]; [|done].
  apply unwrap_from_has_fuel in Hfuel; [done|lia..].
Qed.

Section UnwrapRaisesExample.

#[local] Existing Instance example_libraries.

Lemma unwrap_raises_for_three_reasons_witness :
  CG_Compound.raised (CG_Compound.unwrap two CG_Compound.default_d_tolerance 0)
  = Some (RuntimeError (0, 1))
  ∧ ((RuntimeError (0, 1) = AttributeError ∧ CG_Compound.bond_graph two = None)
     ∨ (RuntimeError (0, 1) = TypeError ∧ CG_Compound.box two = None)
     ∨ ∃ tup, tup ∈ CG_Compound.bonds two ∧ RuntimeError (0, 1) = RuntimeError tup).
Proof.
  split; [by vm_compute|].
  apply (unwrap_raises_for_three_reasons two CG_Compound.default_d_tolerance 0).
  by vm_compute.
Defined.

End UnwrapRaisesExample.

(** X17: for a particle of one of the molecules, which share no particle,
    [_is_outlier] tells whether the particles of the molecule are on
    average closer to their centre when the particle is left out, and
    [_d_to_center] gives the distance of the particle to the centre of the
    molecule.  For a particle of no molecule both raise
    [UnboundLocalError]. *)
Theorem outlier_tests_look_at_the_molecule_of_the_particle {libraries : Libraries}
    compound molecules index :
  pairwise_disjoint molecules →
  (∀ molecule,
     molecule ∈ molecules → index ∈ molecule →
     CG_Compound._is_outlier compound molecules index
     = inr (np_mean (v_distance (CG_Compound.xyz_rows compound
                                   (set_list (molecule ∖ {[index]})))
                                (mean_axis0 (CG_Compound.xyz_rows compound
                                               (set_list (molecule ∖ {[index]})))))
            <? np_mean (v_distance (CG_Compound.xyz_rows compound (set_list molecule))
                                   (mean_axis0 (CG_Compound.xyz_rows compound
                                                  (set_list molecule)))))%float
     ∧ CG_Compound._d_to_center compound molecules index
       = inr (distance (CG_Compound.xyz_row compound index)
                       (mean_axis0 (CG_Compound.xyz_rows compound (set_list molecule)))))
  ∧ (index ∉ ⋃ molecules →
     CG_Compound._is_outlier compound molecules index = inl UnboundLocalError
     ∧ CG_Compound._d_to_center compound molecules index = inl UnboundLocalError).
Proof.
  intros Hpd. split.
  - intros molecule Hm Hindex. split.
    + by rewrite (_is_outlier_spec compound molecules molecule).
    + by rewrite (_d_to_center_spec compound molecules molecule).
  - intros Hno. split; [by apply _is_outlier_unbound|by apply _d_to_center_unbound].
Qed.

Section OutlierTestsExample.

#[local] Existing Instance example_libraries.

Lemma outlier_tests_look_at_the_molecule_of_the_particle_witness :
  pairwise_disjoint [({[0; 1; 2]} : gset nat)]
  ∧ CG_Compound._is_outlier three [{[0; 1; 2]}] 2 = inr true
  ∧ CG_Compound._is_outlier three [{[0; 1; 2]}] 0 = inr false
  ∧ CG_Compound._is_outlier three [{[0; 1; 2]}] 3 = inl UnboundLocalError
  ∧ CG_Compound._d_to_center three [{[0; 1; 2]}] 3 = inl UnboundLocalError.
Proof.
  split; [apply pairwise_disjoint_singleton|].
  split; [by vm_compute|]. split; [by vm_compute|].
  apply (outlier_tests_look_at_the_molecule_of_the_particle three [{[0; 1; 2]}] 3).
  - apply pairwise_disjoint_singleton.
  - set_solver.
Defined.

End OutlierTestsExample.

(** X18: [from_pybel] raises [NameError] for a molecule without a unit
    cell, after it has made the compound.  For a molecule with a unit cell,
    whose bonds join atoms of the molecule, it returns a compound with the
    atoms of the molecule, the unit cell as its box, and a bond between two
    atoms exactly when openbabel lists a bond between them, counting from
    1; no bond is there twice, and the compound has a bond graph exactly
    when the molecule has a bond. *)
Theorem from_pybel_takes_atoms_bonds_and_unit_cell mol :
  bonds_in_range mol →
  match unitcell mol with
  | None => from_pybel mol = inl NameError
  | Some maxs =>
      ∃ cmpd,
        from_pybel mol = inr cmpd
        ∧ CG_Compound.particles cmpd = atoms mol
        ∧ CG_Compound.box cmpd = Some maxs
        ∧ (CG_Compound.bond_graph cmpd = None ↔ OBMolBondIter mol = [])
        ∧ NoDup (CG_Compound.bonds cmpd)
        ∧ CG_Compound.wf cmpd
        ∧ ∀ a b,
            bonded (CG_Compound.bonds cmpd) a b ↔
            ∃ bond, bond ∈ OBMolBondIter mol
                    ∧ ((a + 1, b + 1) = bond ∨ (b + 1, a + 1) = bond)
  end.
Proof.
  intros Hrange.
  pose proof (from_pybel_spec mol) as Hspec. unfold from_pybel in *.
  destruct (unitcell mol) as [maxs|]; [|done].
  destruct Hspec as (cmpd & Hret & Hparts & Hbox & Hgraph).
  assert (∀ a b,
            bonded (CG_Compound.bonds cmpd) a b ↔
            ∃ bond, bond ∈ OBMolBondIter mol
                    ∧ ((a + 1, b + 1) = bond ∨ (b + 1, a + 1) = bond)) as Hbonded.
  { injection Hret as <-. intros a b.
    pose proof (foldl_add_bond_bonded (fun bond => (bond.1 - 1, bond.2 - 1))
                  (OBMolBondIter mol)
                  {| CG_Compound.particles := atoms mol;
                     CG_Compound.bond_graph := None;
                     CG_Compound.box := None |} a b) as Hiff.
    unfold CG_Compound.bonds in *. cbn [CG_Compound.bond_graph] in *. rewrite Hiff.
    unfold bonded. cbn [default]. split.
    - intros [[H|H]|([i j] & Hin & H)]; [by apply elem_of_nil in H..|].
      exists (i, j). split; [done|]. destruct (Hrange _ Hin) as [? ?]. cbn [fst snd] in *.
      destruct H as [[= -> ->]|[= -> ->]]; [left|right]; f_equal; lia.
    - intros ([i j] & Hin & H). right. exists (i, j). split; [done|]. cbn [fst snd].
      destruct H as [[= <- <-]|[= <- <-]]; [left|right]; f_equal; lia. }
  exists cmpd. split_and!; [done..| | |done].
  - injection Hret as <-.
    apply (foldl_add_bond_NoDup (fun bond => (bond.1 - 1, bond.2 - 1))). apply NoDup_nil_2.
  - intros [a b] Hin. rewrite Hparts. cbn [fst snd].
    destruct (proj1 (Hbonded a b)) as ([i j] & Hin' & H); [by left|].
    destruct (Hrange _ Hin') as [? ?]. cbn [fst snd] in *.
    destruct H as [[= <- <-]|[= <- <-]]; lia.
Qed.

Lemma from_pybel_takes_atoms_bonds_and_unit_cell_witness :
  bonds_in_range hexane
  ∧ from_pybel hexane = inr hexane_compound
  ∧ ∃ cmpd,
      from_pybel hexane = inr cmpd
      ∧ CG_Compound.particles cmpd = atoms hexane
      ∧ CG_Compound.box cmpd = Some (10, 10, 10)%float
      ∧ (CG_Compound.bond_graph cmpd = None ↔ OBMolBondIter hexane = [])
      ∧ NoDup (CG_Compound.bonds cmpd)
      ∧ CG_Compound.wf cmpd
      ∧ ∀ a b,
          bonded (CG_Compound.bonds cmpd) a b ↔
          ∃ bond, bond ∈ OBMolBondIter hexane
                  ∧ ((a + 1, b + 1) = bond ∨ (b + 1, a + 1) = bond).
Proof.
  assert (bonds_in_range hexane) as Hrange.
  { intros bond Hin. simpl in Hin.
    repeat (apply elem_of_cons in Hin as [->|Hin]; [simpl; lia|]).
    by apply elem_of_nil in Hin. }
  split; [exact Hrange|]. split; [by vm_compute|].
  apply (from_pybel_takes_atoms_bonds_and_unit_cell hexane Hrange).
Defined.
